(** * Pixels collaborative canvas: the real-time edit pipeline

    A shallow embedding of [app/models.py], [app/redis_cache.py],
    [app/database.py], [app/rate_limiter.py] and [app/main.py], and the
    properties of the edit pipeline proved (or refuted) over it.

    Conventions of the embedding:
    - Python [int] is [Z]; a [bytes] object is a [list Z] of values in
      [0, 256); [str] is [string]; wall-clock readings ([time.time()]) and
      token counts are exact rationals ([Q]).
    - A call that can raise returns a [Result]; the state reached before the
      exception is kept, as the effects of the Python code are.
    - The clock readings a function takes are arguments of its embedding;
      all readings of [datetime.now] within one flush are one argument.
    - DynamoDB and Redis are modelled by their contents plus the set of
      commands that currently raise; Redis also has its clock, against
      which the time to live of a key is read; [gzip] and [pickle] round
      trips are the identity on the data they carry.
    - A user id is a [str] or [None]: [None] is what a payload with
      ["userId": null] hands on. *)

From Stdlib Require Import ZArith QArith Qminmax Lqa Lia Ascii.
From stdpp Require Import base gmap sets list strings pretty.

Local Open Scope Z_scope.

(** ** [hashlib.sha256(...).hexdigest()]

    SHA-256 as in FIPS 180-4, on byte lists. *)
Module SHA256.

Definition mask32 (x : Z) : Z := Z.land x 0xffffffff.

Definition add32 (x y : Z) : Z := mask32 (x + y).

Definition rotr (n x : Z) : Z :=
  Z.lor (Z.shiftr x n) (mask32 (Z.shiftl x (32 - n))).

Definition Ch (x y z : Z) : Z :=
  Z.lxor (Z.land x y) (Z.land (Z.lxor x 0xffffffff) z).

Definition Maj (x y z : Z) : Z :=
  Z.lxor (Z.lxor (Z.land x y) (Z.land x z)) (Z.land y z).

Definition Sigma0 (x : Z) : Z :=
  Z.lxor (Z.lxor (rotr 2 x) (rotr 13 x)) (rotr 22 x).

Definition Sigma1 (x : Z) : Z :=
  Z.lxor (Z.lxor (rotr 6 x) (rotr 11 x)) (rotr 25 x).

Definition sigma0 (x : Z) : Z :=
  Z.lxor (Z.lxor (rotr 7 x) (rotr 18 x)) (Z.shiftr x 3).

Definition sigma1 (x : Z) : Z :=
  Z.lxor (Z.lxor (rotr 17 x) (rotr 19 x)) (Z.shiftr x 10).

(** The first 64 primes. *)
Definition is_prime (p : nat) : bool :=
  forallb (λ d, negb (Z.of_nat p mod Z.of_nat d =? 0)) (seq 2 (p - 2)).

Definition primes : list Z := Z.of_nat <$> filter is_prime (seq 2 310).

(** The integer cube root of [n], between [lo] and [hi], by bisection. *)
Fixpoint cube_root (fuel : nat) (n lo hi : Z) : Z :=
  match fuel with
  | O => lo
  | S fuel' =>
      let mid := (lo + hi) / 2 in
      if mid * mid * mid <=? n then cube_root fuel' n mid hi
      else cube_root fuel' n lo mid
  end.

(** The round constants: the first 32 bits of the fractional parts of the
    cube roots of the first 64 primes. *)
Definition K : list Z :=
  Eval vm_compute in
    (λ p, mask32 (cube_root 40 (p * 2 ^ 96) 0 (2 ^ 35))) <$> primes.

(** The eight working words. *)
Record state := State {
  ha : Z; hb : Z; hc : Z; hd : Z; he : Z; hf : Z; hg : Z; hh : Z
}.

(** The initial hash value: the first 32 bits of the fractional parts of
    the square roots of the first 8 primes. *)
Definition H0 : state :=
  Eval vm_compute in
    match (λ p, mask32 (Z.sqrt (p * 2 ^ 64))) <$> take 8 primes with
    | [a; b; c; d; e; f; g; h] => State a b c d e f g h
    | _ => State 0 0 0 0 0 0 0 0
    end.

(** Big-endian words of a block. *)
Fixpoint words (bs : list Z) : list Z :=
  match bs with
  | b0 :: b1 :: b2 :: b3 :: rest =>
      (Z.lor (Z.shiftl b0 24)
         (Z.lor (Z.shiftl b1 16) (Z.lor (Z.shiftl b2 8) b3))) :: words rest
  | _ => []
  end.

(** The message schedule, most recent word first. *)
Fixpoint schedule (n : nat) (rw : list Z) : list Z :=
  match n with
  | O => rw
  | S n' =>
      let w := add32 (add32 (sigma1 (nth 1 rw 0)) (nth 6 rw 0))
                     (add32 (sigma0 (nth 14 rw 0)) (nth 15 rw 0)) in
      schedule n' (w :: rw)
  end.

Definition round (s : state) (kw : Z * Z) : state :=
  let t1 := add32 (add32 (add32 (hh s) (Sigma1 (he s)))
                         (add32 (Ch (he s) (hf s) (hg s)) kw.1)) kw.2 in
  let t2 := add32 (Sigma0 (ha s)) (Maj (ha s) (hb s) (hc s)) in
  State (add32 t1 t2) (ha s) (hb s) (hc s) (add32 (hd s) t1)
        (he s) (hf s) (hg s).

Definition compress (h : state) (block : list Z) : state :=
  let w := rev (schedule 48 (rev (words block))) in
  let s := fold_left round (zip K w) h in
  State (add32 (ha h) (ha s)) (add32 (hb h) (hb s))
        (add32 (hc h) (hc s)) (add32 (hd h) (hd s))
        (add32 (he h) (he s)) (add32 (hf h) (hf s))
        (add32 (hg h) (hg s)) (add32 (hh h) (hh s)).

(** [n] bytes of [x], most significant first. *)
Fixpoint be_bytes (n : nat) (x : Z) : list Z :=
  match n with
  | O => []
  | S n' => Z.land (Z.shiftr x (8 * Z.of_nat n')) 0xff :: be_bytes n' x
  end.

Definition pad (msg : list Z) : list Z :=
  let len := Z.of_nat (length msg) in
  let k := (55 - len) mod 64 in
  msg ++ 0x80 :: replicate (Z.to_nat k) 0 ++ be_bytes 8 (8 * len).

Fixpoint blocks (n : nat) (h : state) (bs : list Z) : state :=
  match n with
  | O => h
  | S n' => blocks n' (compress h (take 64 bs)) (drop 64 bs)
  end.

Definition digest (msg : list Z) : state :=
  let p := pad msg in
  blocks (Z.to_nat (Z.of_nat (length p) / 64)) H0 p.

Definition hexdigit (n : Z) : ascii :=
  match n with
  | 0 => "0" | 1 => "1" | 2 => "2" | 3 => "3" | 4 => "4" | 5 => "5"
  | 6 => "6" | 7 => "7" | 8 => "8" | 9 => "9" | 10 => "a" | 11 => "b"
  | 12 => "c" | 13 => "d" | 14 => "e" | _ => "f"
  end%char.

Definition nibble (w : Z) (i : Z) : ascii :=
  hexdigit (Z.land (Z.shiftr w (4 * i)) 0xf).

Definition hex8 (w : Z) (rest : string) : string :=
  String (nibble w 7) (String (nibble w 6) (String (nibble w 5)
  (String (nibble w 4) (String (nibble w 3) (String (nibble w 2)
  (String (nibble w 1) (String (nibble w 0) rest))))))).

Definition hexdigest (msg : list Z) : string :=
  let s := digest msg in
  hex8 (ha s) (hex8 (hb s) (hex8 (hc s) (hex8 (hd s)
  (hex8 (he s) (hex8 (hf s) (hex8 (hg s) (hex8 (hh s) ""))))))).

End SHA256.

(** ** Exceptions *)

Inductive Exn :=
  | ClientError      (* botocore: a DynamoDB call failed *)
  | RedisError       (* redis: a command failed *)
  | ValueError
  | TypeError
  | IndexError
  | KeyError
  | ValidationError  (* pydantic *)
  | SendError.       (* the socket is gone *)

Inductive Result (A : Type) :=
  | Return (a : A)
  | Raise (e : Exn).
Arguments Return {A} a.
Arguments Raise {A} e.

(** An exception raised by a step ends the steps that follow it. *)
Global Instance Result_bind : MBind Result := λ A B f m,
  match m with
  | Return a => f a
  | Raise e => Raise e
  end.

(** ** [app/models.py] *)

Definition WIDTH : Z := 900.
Definition HEIGHT : Z := 900.

Inductive Tool := BRUSH | ERASER.

Module PixelUpdate.
Record t := Build {
  x : Z;
  y : Z;
  color : string;
  tool : Tool;
  client_timestamp : Q;
  user_id : option string
}.
End PixelUpdate.

Module PixelAck.
Record t := Build {
  x : Z; y : Z; color : string; success : bool; reason : option string
}.
End PixelAck.

Module PixelReject.
Record t := Build { x : Z; y : Z; reason : string }.
End PixelReject.

Module CanvasState.
Record t := Build {
  width : Z;
  height : Z;
  bitmap : list Z;
  hash : string;
  last_updated : Q
}.
End CanvasState.

Module AuditLogEntry.
Record Details := BuildDetails {
  x : Z; y : Z; color : string; tool : Tool
}.
Record t := Build {
  timestamp : Q;
  user_id : option string;
  action : string;
  details : Details;
  ip_address : option string
}.
End AuditLogEntry.

Module RegionLock.
Record t := Build {
  x1 : Z; y1 : Z; x2 : Z; y2 : Z;
  locked_by : string;
  reason : option string;
  created_at : Q
}.
End RegionLock.

(** [Field(ge=0, lt=900)] *)
Definition coordinate_ok (v : Z) : bool := (0 <=? v) && (v <? 900).

Definition is_hex_digit (c : ascii) : bool :=
  let n := Z.of_N (N_of_ascii c) in
  ((48 <=? n) && (n <=? 57)) || ((65 <=? n) && (n <=? 70))
  || ((97 <=? n) && (n <=? 102)).

(** [Field(pattern=r"^#[0-9A-Fa-f]{6}$")] *)
Definition color_ok (s : string) : bool :=
  match s with
  | String "#" (String a (String b (String c (String d (String e
      (String f EmptyString)))))) =>
      is_hex_digit a && is_hex_digit b && is_hex_digit c
      && is_hex_digit d && is_hex_digit e && is_hex_digit f
  | _ => false
  end.

(** The constraints a [PixelUpdate] instance satisfies once constructed. *)
Definition pixel_update_ok (u : PixelUpdate.t) : bool :=
  coordinate_ok (PixelUpdate.x u) && coordinate_ok (PixelUpdate.y u)
  && color_ok (PixelUpdate.color u).

(** ** The part of [numpy] the applier uses

    A [(900, 900, 3)] array of [uint8] in C order is its flat buffer; the
    pixel [[y, x]] occupies the three bytes from [(y * 900 + x) * 3]. *)
Module np.

Record ndarray := Build { data : list Z; writeable : bool }.

Definition size : Z := HEIGHT * WIDTH * 3.

(** [np.zeros((900, 900, 3), dtype=np.uint8)] *)
Definition zeros : ndarray :=
  {| data := replicate (Z.to_nat size) 0; writeable := true |}.
Global Arguments size : simpl never.
Global Arguments zeros : simpl never.

(** [np.frombuffer(b, dtype=np.uint8).reshape((900, 900, 3))]: a view of
    the immutable [bytes] object, hence not writeable; [reshape] raises
    when the byte count is not 900 * 900 * 3. *)
Definition frombuffer (b : list Z) : Result ndarray :=
  if Z.of_nat (length b) =? size
  then Return {| data := b; writeable := false |}
  else Raise ValueError.

(** An index into an axis of length [n]: negative indices count from the
    end. *)
Definition axis_index (n i : Z) : option Z :=
  if (0 <=? i) && (i <? n) then Some i
  else if (- n <=? i) && (i <? 0) then Some (i + n)
  else None.

Definition offset (y x : Z) : nat := Z.to_nat ((y * WIDTH + x) * 3).

(** [a[y, x] = (r, g, b)] *)
Definition setitem (a : ndarray) (y x : Z) (rgb : Z * Z * Z)
  : Result ndarray :=
  if negb (writeable a) then Raise ValueError
  else match axis_index HEIGHT y, axis_index WIDTH x with
       | Some y', Some x' =>
           let o := offset y' x' in
           let '(r, g, b) := rgb in
           Return {| data := <[S (S o) := b]>
                               (<[S o := g]> (<[o := r]> (data a)));
                     writeable := true |}
       | _, _ => Raise IndexError
       end.

(** [a.tobytes()] *)
Definition tobytes (a : ndarray) : list Z := data a.

End np.

(** The three bytes of pixel [(x, y)] in a canvas byte string. *)
Definition pixel_at (b : list Z) (x y : Z) : list (option Z) :=
  let o := np.offset y x in [b !! o; b !! S o; b !! S (S o)].

(** ** The Redis server, as seen through [redis.Redis]

    Keys hold pickled objects or integer counters.  A key set with a time
    to live is gone once the clock of the server, [time], is past
    [expires_at]: no command sees it any more.  [failing] names the
    commands that currently raise. *)
Module redis.

Inductive Cmd := GET | SETEX | INCR | EXPIRE.

Inductive Value :=
  | Canvas (c : CanvasState.t)
  | Locks (l : list RegionLock.t)
  | Int (n : Z).

Record Entry := BuildEntry { value : Value; expires_at : option Q }.

Record Redis := Build {
  keys : gmap string Entry;
  time : Q;
  failing : Cmd → bool
}.

(** The key has run out of time when the clock reads [now]. *)
Definition expired (now : Q) (e : Entry) : bool :=
  match expires_at e with
  | Some t => negb (Qle_bool now t)
  | None => false
  end.

(** The entry of a key, as the commands see it. *)
Definition lookup (r : Redis) (k : string) : option Entry :=
  match keys r !! k with
  | Some e => if expired (time r) e then None else Some e
  | None => None
  end.

(** The server when its clock reads [t]. *)
Definition at_time (r : Redis) (t : Q) : Redis :=
  {| keys := keys r; time := t; failing := failing r |}.

Definition get (r : Redis) (k : string) : Result (option Value) :=
  if failing r GET then Raise RedisError
  else Return (value <$> lookup r k).

Definition setex (r : Redis) (k : string) (seconds : Z) (v : Value)
  : Result Redis :=
  if failing r SETEX then Raise RedisError
  else Return {| keys := <[k := BuildEntry v
                                  (Some (time r + inject_Z seconds)%Q)]>
                           (keys r);
                 time := time r;
                 failing := failing r |}.

(** [INCR] counts a key that is not there from 0 and leaves the time to
    live of one that is as it is. *)
Definition incr (r : Redis) (k : string) : Result (Redis * Z) :=
  if failing r INCR then Raise RedisError
  else match lookup r k with
       | None =>
           Return ({| keys := <[k := BuildEntry (Int 1) None]> (keys r);
                      time := time r;
                      failing := failing r |}, 1)
       | Some (BuildEntry (Int n) t) =>
           Return ({| keys := <[k := BuildEntry (Int (n + 1)) t]> (keys r);
                      time := time r;
                      failing := failing r |}, n + 1)
       | Some _ => Raise RedisError
       end.

(** [EXPIRE] does nothing to a key that is not there. *)
Definition expire (r : Redis) (k : string) (seconds : Z) : Result Redis :=
  if failing r EXPIRE then Raise RedisError
  else Return {| keys :=
                   match lookup r k with
                   | Some e =>
                       <[k := BuildEntry (value e)
                                (Some (time r + inject_Z seconds)%Q)]> (keys r)
                   | None => keys r
                   end;
                 time := time r;
                 failing := failing r |}.

End redis.

(** ** [app/redis_cache.py]: class [RedisCache]

    [self] is the [redis_client]; every method swallows the exceptions of
    the commands it issues. *)
Module RedisCache.

Definition get_canvas_state (self : redis.Redis) : option CanvasState.t :=
  match redis.get self "canvas:state" with
  | Return (Some (redis.Canvas c)) => Some c
  | _ => None
  end.

Definition set_canvas_state (self : redis.Redis) (canvas_state : CanvasState.t)
  : redis.Redis :=
  match redis.setex self "canvas:state" 3600 (redis.Canvas canvas_state) with
  | Return r => r
  | Raise _ => self
  end.

Definition get_region_locks (self : redis.Redis) : list RegionLock.t :=
  match redis.get self "canvas:locks" with
  | Return (Some (redis.Locks l)) => l
  | _ => []
  end.

Definition set_region_locks (self : redis.Redis) (locks : list RegionLock.t)
  : redis.Redis :=
  match redis.setex self "canvas:locks" 300 (redis.Locks locks) with
  | Return r => r
  | Raise _ => self
  end.

(** [f"{user_id}"]: a string as it is, [None] as ["None"]. *)
Definition format (user_id : option string) : string :=
  match user_id with
  | Some s => s
  | None => "None"
  end.

(** [f"rate_limit:pixels:{user_id}"] *)
Definition pixel_key (user_id : option string) : string :=
  "rate_limit:pixels:" +:+ format user_id.

Definition increment_pixel_count (self : redis.Redis) (user_id : option string)
    (window : Z) : Z * redis.Redis :=
  let key := pixel_key user_id in
  match redis.incr self key with
  | Return (r, count) =>
      if count =? 1 then
        match redis.expire r key window with
        | Return r' => (count, r')
        | Raise _ => (0, r)
        end
      else (count, r)
  | Raise _ => (0, self)
  end.

Definition get_pixel_count (self : redis.Redis) (user_id : option string)
  : Z :=
  match redis.get self (pixel_key user_id) with
  | Return (Some (redis.Int n)) => n
  | _ => 0
  end.

End RedisCache.

(** ** The DynamoDB tables, as seen through [boto3]

    [pixels-canvas] holds at most the item ["main"]; [pixels-locks] is keyed
    by [lock_id]; [pixels-audit] is the sequence of entries put.  [failing]
    names the calls that currently raise [ClientError]. *)
Module dynamodb.

Inductive Call :=
  | CanvasGetItem | CanvasPutItem | AuditPutItem
  | LocksPutItem | LocksDeleteItem | LocksScan.

Record Tables := Build {
  canvas_table : option CanvasState.t;
  audit_table : list AuditLogEntry.t;
  locks_table : gmap string RegionLock.t;
  failing : Call → bool
}.

End dynamodb.

(** The two stores behind the module-level singletons [dynamodb_canvas] and
    [redis_cache]. *)
Record World := BuildWorld {
  tables : dynamodb.Tables;
  redis_client : redis.Redis
}.

(** ** [app/database.py]: class [DynamoDBCanvas] *)
Module DynamoDBCanvas.

Definition with_tables (w : World) (t : dynamodb.Tables) : World :=
  {| tables := t; redis_client := redis_client w |}.

Definition with_redis (w : World) (r : redis.Redis) : World :=
  {| tables := tables w; redis_client := r |}.

Definition get_canvas_state (w : World) : option CanvasState.t * World :=
  match RedisCache.get_canvas_state (redis_client w) with
  | Some cached_state => (Some cached_state, w)
  | None =>
      if dynamodb.failing (tables w) dynamodb.CanvasGetItem then (None, w)
      else match dynamodb.canvas_table (tables w) with
           | Some canvas_state =>
               (Some canvas_state,
                with_redis w
                  (RedisCache.set_canvas_state (redis_client w) canvas_state))
           | None => (None, w)
           end
  end.

Definition save_canvas_state (w : World) (bitmap : list Z) (hash : string)
    (now : Q) : Result World :=
  let t := tables w in
  if dynamodb.failing t dynamodb.CanvasPutItem then Raise ClientError
  else
    let canvas_state := CanvasState.Build WIDTH HEIGHT bitmap hash now in
    Return {| tables :=
                {| dynamodb.canvas_table := Some canvas_state;
                   dynamodb.audit_table := dynamodb.audit_table t;
                   dynamodb.locks_table := dynamodb.locks_table t;
                   dynamodb.failing := dynamodb.failing t |};
              redis_client :=
                RedisCache.set_canvas_state (redis_client w) canvas_state |}.

Definition add_audit_entry (w : World) (entry : AuditLogEntry.t)
  : Result World :=
  let t := tables w in
  if dynamodb.failing t dynamodb.AuditPutItem then Raise ClientError
  else Return (with_tables w
    {| dynamodb.canvas_table := dynamodb.canvas_table t;
       dynamodb.audit_table := dynamodb.audit_table t ++ [entry];
       dynamodb.locks_table := dynamodb.locks_table t;
       dynamodb.failing := dynamodb.failing t |}).

Definition lock_id (x1 y1 x2 y2 : Z) : string :=
  pretty x1 +:+ "," +:+ pretty y1 +:+ "," +:+ pretty x2 +:+ "," +:+ pretty y2.

Definition add_region_lock (w : World) (lock : RegionLock.t) : Result World :=
  let t := tables w in
  if dynamodb.failing t dynamodb.LocksPutItem then Raise ClientError
  else Return (with_tables w
    {| dynamodb.canvas_table := dynamodb.canvas_table t;
       dynamodb.audit_table := dynamodb.audit_table t;
       dynamodb.locks_table :=
         <[lock_id (RegionLock.x1 lock) (RegionLock.y1 lock)
                   (RegionLock.x2 lock) (RegionLock.y2 lock) := lock]>
           (dynamodb.locks_table t);
       dynamodb.failing := dynamodb.failing t |}).

Definition remove_region_lock (w : World) (x1 y1 x2 y2 : Z) : Result World :=
  let t := tables w in
  if dynamodb.failing t dynamodb.LocksDeleteItem then Raise ClientError
  else Return (with_tables w
    {| dynamodb.canvas_table := dynamodb.canvas_table t;
       dynamodb.audit_table := dynamodb.audit_table t;
       dynamodb.locks_table := delete (lock_id x1 y1 x2 y2)
                                 (dynamodb.locks_table t);
       dynamodb.failing := dynamodb.failing t |}).

Definition get_region_locks (w : World) : list RegionLock.t * World :=
  match RedisCache.get_region_locks (redis_client w) with
  | (_ :: _) as cached_locks => (cached_locks, w)
  | [] =>
      if dynamodb.failing (tables w) dynamodb.LocksScan then ([], w)
      else
        let locks := (map_to_list (dynamodb.locks_table (tables w))).*2 in
        (locks,
         with_redis w (RedisCache.set_region_locks (redis_client w) locks))
  end.

(** [lock.x1 <= x <= lock.x2 and lock.y1 <= y <= lock.y2] *)
Definition covers (lock : RegionLock.t) (x y : Z) : bool :=
  (RegionLock.x1 lock <=? x) && (x <=? RegionLock.x2 lock)
  && (RegionLock.y1 lock <=? y) && (y <=? RegionLock.y2 lock).

Definition is_position_locked (w : World) (x y : Z) : bool * World :=
  let '(locks, w') := get_region_locks w in
  (existsb (λ lock, covers lock x y) locks, w').

End DynamoDBCanvas.

(** ** [app/rate_limiter.py] *)

Module TokenBucket.
Record t := Build {
  capacity : Z;
  refill_rate : Q;
  tokens : Q;
  last_refill : Q
}.
End TokenBucket.

(** [int(q)]: truncation towards zero. *)
Definition int_of_Q (q : Q) : Z := Z.quot (Qnum q) (Z.pos (Qden q)).

(** [self] is the dictionary [self.buckets]; [current_time] is the reading
    of [time.time()] each method starts with.  A [user_id] is what the
    endpoint hands on: a string, or [None] when the payload holds
    ["userId": null]. *)
Module WebSocketRateLimiter.

Definition capacity : Z := 10.
Definition refill_rate : Q := 10.
Definition burst_capacity : Z := 20.

(** The refill block, the same in both methods. *)
Definition refill (bucket : TokenBucket.t) (current_time : Q) : TokenBucket.t :=
  let time_elapsed := (current_time - TokenBucket.last_refill bucket)%Q in
  {| TokenBucket.capacity := TokenBucket.capacity bucket;
     TokenBucket.refill_rate := TokenBucket.refill_rate bucket;
     TokenBucket.tokens :=
       Qmin (inject_Z (TokenBucket.capacity bucket))
            (TokenBucket.tokens bucket
             + time_elapsed * TokenBucket.refill_rate bucket)%Q;
     TokenBucket.last_refill := current_time |}.

(** The bucket created on a user's first check. *)
Definition new_bucket (current_time : Q) : TokenBucket.t :=
  {| TokenBucket.capacity := burst_capacity;
     TokenBucket.refill_rate := refill_rate;
     TokenBucket.tokens := inject_Z burst_capacity;
     TokenBucket.last_refill := current_time |}.

Definition debit (bucket : TokenBucket.t) (pixel_count : Z) : TokenBucket.t :=
  {| TokenBucket.capacity := TokenBucket.capacity bucket;
     TokenBucket.refill_rate := TokenBucket.refill_rate bucket;
     TokenBucket.tokens :=
       (TokenBucket.tokens bucket - inject_Z pixel_count)%Q;
     TokenBucket.last_refill := TokenBucket.last_refill bucket |}.

Definition check_rate_limit (self : gmap (option string) TokenBucket.t)
    (user_id : option string) (pixel_count : Z) (current_time : Q)
  : bool * gmap (option string) TokenBucket.t :=
  let bucket :=
    match self !! user_id with
    | Some bucket => bucket
    | None => new_bucket current_time
    end in
  let bucket := refill bucket current_time in
  if Qle_bool (inject_Z pixel_count) (TokenBucket.tokens bucket)
  then (true, <[user_id := debit bucket pixel_count]> self)
  else (false, <[user_id := bucket]> self).

Definition get_remaining_tokens (self : gmap (option string) TokenBucket.t)
    (user_id : option string) (current_time : Q)
  : Z * gmap (option string) TokenBucket.t :=
  match self !! user_id with
  | None => (burst_capacity, self)
  | Some bucket =>
      let bucket := refill bucket current_time in
      (int_of_Q (TokenBucket.tokens bucket), <[user_id := bucket]> self)
  end.

(** The sweep drops the buckets not refilled for more than 300 seconds. *)
Definition cleanup_old_buckets (self : gmap (option string) TokenBucket.t)
    (current_time : Q) : gmap (option string) TokenBucket.t :=
  filter (λ kv, Qle_bool (current_time - TokenBucket.last_refill kv.2) 300
                = true) self.

End WebSocketRateLimiter.

(** [increment_pixel_count] and [get_pixel_count] swallow the exceptions of
    Redis themselves, so the [except] branches here are never entered. *)
Module RedisRateLimiter.

Definition window : Z := 60.
Definition max_pixels : Z := 100.

Definition check_rate_limit (r : redis.Redis) (user_id : option string)
    (pixel_count : Z) : bool * redis.Redis :=
  let '(current_count, r') :=
    RedisCache.increment_pixel_count r user_id window in
  (current_count <=? max_pixels, r').

Definition get_remaining_pixels (r : redis.Redis) (user_id : option string)
  : Z :=
  Z.max 0 (max_pixels - RedisCache.get_pixel_count r user_id).

End RedisRateLimiter.

(** The state of the two module-level limiters. *)
Record Limiters := BuildLimiters {
  ws_rate_limiter : gmap (option string) TokenBucket.t;
  redis_rate_limiter : redis.Redis
}.

(** [now] is the clock reading of [check_rate_limit], [later] the one of
    [get_remaining_tokens] on the deny path. *)
Definition check_pixel_rate_limit (l : Limiters) (user_id : option string)
    (pixel_count : Z) (now later : Q) : (bool * string) * Limiters :=
  let '(ok, buckets) :=
    WebSocketRateLimiter.check_rate_limit (ws_rate_limiter l) user_id
      pixel_count now in
  if negb ok then
    let '(remaining, buckets') :=
      WebSocketRateLimiter.get_remaining_tokens buckets user_id later in
    ((false, "Rate limit exceeded. " +:+ pretty remaining
             +:+ " tokens remaining."),
     BuildLimiters buckets' (redis_rate_limiter l))
  else
    let '(ok', r) :=
      RedisRateLimiter.check_rate_limit (redis_rate_limiter l) user_id
        pixel_count in
    if negb ok' then
      let remaining := RedisRateLimiter.get_remaining_pixels r user_id in
      ((false, "Minute rate limit exceeded. " +:+ pretty remaining
               +:+ " pixels remaining."),
       BuildLimiters buckets r)
    else ((true, "Rate limit OK."), BuildLimiters buckets r).

(** ** [app/main.py] *)

(** The frames the server writes to a socket. *)
Inductive WireMessage :=
  | heartbeat_ack (timestamp : Q)
  | pixel_reject (reason : string) (timestamp : Q)
  | pixel_bulk_update (pixels : list (Z * Z * string)) (hash : string)
      (timestamp : Q).

(** A frame written to the socket of a connection. *)
Definition Sent : Type := nat * WireMessage.

(** The module-level state of the server, with the stores it talks to.
    Sockets are numbered; [gone] holds the sockets on which [send_text]
    raises. *)
Record Server := BuildServer {
  world : World;
  buckets : gmap (option string) TokenBucket.t;
  active_connections : gset nat;
  pixel_update_queue : list PixelUpdate.t;
  gone : gset nat
}.

Definition with_world (s : Server) (w : World) : Server :=
  {| world := w; buckets := buckets s;
     active_connections := active_connections s;
     pixel_update_queue := pixel_update_queue s; gone := gone s |}.

Definition with_connections (s : Server) (c : gset nat) : Server :=
  {| world := world s; buckets := buckets s; active_connections := c;
     pixel_update_queue := pixel_update_queue s; gone := gone s |}.

Definition with_queue (s : Server) (q : list PixelUpdate.t) : Server :=
  {| world := world s; buckets := buckets s;
     active_connections := active_connections s;
     pixel_update_queue := q; gone := gone s |}.

Definition hex_value (c : ascii) : option Z :=
  let n := Z.of_N (N_of_ascii c) in
  if (48 <=? n) && (n <=? 57) then Some (n - 48)
  else if (65 <=? n) && (n <=? 70) then Some (n - 55)
  else if (97 <=? n) && (n <=? 102) then Some (n - 87)
  else None.

Fixpoint int16_digits (acc : Z) (s : string) : Result Z :=
  match s with
  | EmptyString => Return acc
  | String c s' =>
      match hex_value c with
      | Some d => int16_digits (16 * acc + d) s'
      | None => Raise ValueError
      end
  end.

(** [int(s, 16)] on strings of hexadecimal digits; the empty string and
    any other character raise (signs, blanks and underscores, which no
    validated colour contains, are not interpreted). *)
Definition int16 (s : string) : Result Z :=
  match s with
  | EmptyString => Raise ValueError
  | _ => int16_digits 0 s
  end.

(** [tuple(int(update.color[i:i+2], 16) for i in (1, 3, 5))] *)
Definition color_rgb (color : string) : Result (Z * Z * Z) :=
  match int16 (String.substring 1 2 color) with
  | Raise e => Raise e
  | Return r =>
      match int16 (String.substring 3 2 color) with
      | Raise e => Raise e
      | Return g =>
          match int16 (String.substring 5 2 color) with
          | Raise e => Raise e
          | Return b => Return (r, g, b)
          end
      end
  end.

Definition ack_of (update : PixelUpdate.t) : PixelAck.t :=
  PixelAck.Build (PixelUpdate.x update) (PixelUpdate.y update)
    (PixelUpdate.color update) true None.

Definition reject_of (update : PixelUpdate.t) : PixelReject.t :=
  PixelReject.Build (PixelUpdate.x update) (PixelUpdate.y update)
    "Position locked".

Definition audit_entry_of (update : PixelUpdate.t) (now : Q)
  : AuditLogEntry.t :=
  AuditLogEntry.Build now (PixelUpdate.user_id update) "pixel_update"
    (AuditLogEntry.BuildDetails (PixelUpdate.x update) (PixelUpdate.y update)
       (PixelUpdate.color update) (PixelUpdate.tool update))
    None.

(** The [for update in batch] loop of [process_pixel_batch]; [now] stands
    for the readings of [datetime.now] during the flush. *)
Fixpoint apply_updates (now : Q) (batch : list PixelUpdate.t) (w : World)
    (bitmap : np.ndarray) (acks : list PixelAck.t)
    (rejects : list PixelReject.t)
  : World * Result (np.ndarray * list PixelAck.t * list PixelReject.t) :=
  match batch with
  | [] => (w, Return (bitmap, acks, rejects))
  | update :: rest =>
      let '(locked, w) :=
        DynamoDBCanvas.is_position_locked w (PixelUpdate.x update)
          (PixelUpdate.y update) in
      if locked then
        apply_updates now rest w bitmap acks (rejects ++ [reject_of update])
      else
        match color_rgb (PixelUpdate.color update) with
        | Raise e => (w, Raise e)
        | Return rgb =>
            let value :=
              match PixelUpdate.tool update with
              | ERASER => (255, 255, 255)
              | BRUSH => rgb
              end in
            match np.setitem bitmap (PixelUpdate.y update)
                    (PixelUpdate.x update) value with
            | Raise e => (w, Raise e)
            | Return bitmap =>
                let acks := acks ++ [ack_of update] in
                match DynamoDBCanvas.add_audit_entry w
                        (audit_entry_of update now) with
                | Raise e => (w, Raise e)
                | Return w => apply_updates now rest w bitmap acks rejects
                end
            end
        end
  end.

Definition broadcast_message (s : Server) (message : WireMessage)
  : Server * list Sent :=
  let connections := elements (active_connections s) in
  let disconnected := filter (λ c, c ∈ gone s) connections in
  (with_connections s (active_connections s ∖ list_to_set disconnected),
   (λ c, (c, message)) <$> filter (λ c, c ∉ gone s) connections).

Definition wire_pixel (p : PixelUpdate.t) : Z * Z * string :=
  (PixelUpdate.x p, PixelUpdate.y p, PixelUpdate.color p).

Definition process_pixel_batch (s : Server) (batch : list PixelUpdate.t)
    (now : Q) : Server * list Sent * Result unit :=
  let '(canvas_state, w) := DynamoDBCanvas.get_canvas_state (world s) in
  let loaded :=
    match canvas_state with
    | None => Return np.zeros
    | Some c => np.frombuffer (CanvasState.bitmap c)
    end in
  match loaded with
  | Raise e => (with_world s w, [], Raise e)
  | Return bitmap =>
      match apply_updates now batch w bitmap [] [] with
      | (w, Raise e) => (with_world s w, [], Raise e)
      | (w, Return (bitmap, acks, rejects)) =>
          let bitmap_bytes := np.tobytes bitmap in
          let hash_value := SHA256.hexdigest bitmap_bytes in
          match DynamoDBCanvas.save_canvas_state w bitmap_bytes hash_value
                  now with
          | Raise e => (with_world s w, [], Raise e)
          | Return w =>
              let message :=
                pixel_bulk_update (wire_pixel <$> batch) hash_value now in
              let '(s, sent) := broadcast_message (with_world s w) message in
              (s, sent, Return tt)
          end
      end
  end.

(** One turn of the [while True] loop of [batch_pixel_updates], after the
    50 ms sleep. *)
Definition batch_pixel_updates (s : Server) (now : Q) : Server * list Sent :=
  match pixel_update_queue s with
  | [] => (s, [])
  | batch =>
      let '(s, sent, _) := process_pixel_batch (with_queue s []) batch now in
      (s, sent)
  end.

(** A key of a JSON object: absent, holding [null], or holding a value of
    the JSON type its use expects (a whole number for [x] and [y], a string
    for the others); values of other JSON types are not covered. *)
Inductive Field (A : Type) :=
  | Absent
  | Null
  | Value (a : A).
Arguments Absent {A}.
Arguments Null {A}.
Arguments Value {A} a.

(** [d[key]] *)
Definition subscript {A} (field : Field A) : Result (option A) :=
  match field with
  | Absent => Raise KeyError
  | Null => Return None
  | Value a => Return (Some a)
  end.

(** [d.get(key, default)] *)
Definition dict_get {A} (field : Field A) (default : A) : option A :=
  match field with
  | Absent => Some default
  | Null => None
  | Value a => Some a
  end.

(** The [data] object of a [pixel:update] frame.  The value of
    [clientTimestamp] is the instant its string denotes, or [None] for a
    string that is not in ISO format. *)
Module Payload.
Record t := Build {
  x : Field Z;
  y : Field Z;
  color : Field string;
  tool : Field string;
  clientTimestamp : Field (option Q);
  userId : Field string
}.
End Payload.

(** What [receive_text] and [json.loads] make of an inbound frame.  [type]
    is the string under ["type"], [None] when there is none (such a value
    equals neither literal of the endpoint); [data] is the object under
    ["data"], [None] when there is none (the subscript, or the first [get]
    on its value, then raises). *)
Inductive Frame :=
  | Disconnect                  (* [receive_text] raises *)
  | Malformed                   (* not a JSON object *)
  | Message (type : option string) (data : option Payload.t).

(** The validation of [tool: Tool]. *)
Definition tool_of_string (s : string) : Result Tool :=
  if String.eqb s "brush" then Return BRUSH
  else if String.eqb s "eraser" then Return ERASER
  else Raise ValidationError.

(** [datetime.fromisoformat(v)] *)
Definition fromisoformat (v : option (option Q)) : Result Q :=
  match v with
  | None => Raise TypeError
  | Some None => Raise ValueError
  | Some (Some t) => Return t
  end.

(** The validation of the model: [None] is accepted for [user_id] only. *)
Definition validate_PixelUpdate (x y : option Z) (color tool : option string)
    (client_timestamp : Q) (user_id : option string) : Result PixelUpdate.t :=
  match x, y, color, tool with
  | Some x, Some y, Some color, Some tool =>
      tool ← tool_of_string tool;
      if coordinate_ok x && coordinate_ok y && color_ok color
      then Return (PixelUpdate.Build x y color tool client_timestamp user_id)
      else Raise ValidationError
  | _, _, _, _ => Raise ValidationError
  end.

(** [PixelUpdate(x=pixel_data["x"], ...)]: the arguments are evaluated in
    order, then the model is validated. *)
Definition new_PixelUpdate (pixel_data : Payload.t) (user_id : option string)
  : Result PixelUpdate.t :=
  x ← subscript (Payload.x pixel_data);
  y ← subscript (Payload.y pixel_data);
  color ← subscript (Payload.color pixel_data);
  let tool := dict_get (Payload.tool pixel_data) "brush" in
  client_timestamp ← subscript (Payload.clientTimestamp pixel_data);
  client_timestamp ← fromisoformat client_timestamp;
  validate_PixelUpdate x y color tool client_timestamp user_id.

Definition send_text (s : Server) (websocket : nat) (m : WireMessage)
  : Result (list Sent) :=
  if decide (websocket ∈ gone s) then Raise SendError
  else Return [(websocket, m)].

(** [await websocket.accept(); active_connections.add(websocket)] *)
Definition websocket_accept (s : Server) (websocket : nat) : Server :=
  with_connections s ({[websocket]} ∪ active_connections s).

(** Both [except] clauses of [websocket_endpoint]. *)
Definition websocket_except (s : Server) (websocket : nat) : Server :=
  with_connections s (active_connections s ∖ {[websocket]}).

(** One turn of the [while True] loop of [websocket_endpoint] on the frame
    read; [false] when the turn leaves the loop through an [except]
    clause, after which the endpoint returns and the connection closes. *)
Definition websocket_endpoint (s : Server) (websocket : nat) (frame : Frame)
    (now later : Q) : Server * list Sent * bool :=
  match frame with
  | Disconnect | Malformed => (websocket_except s websocket, [], false)
  | Message type data =>
      if decide (type = Some "pixel:update") then
        match data with
        | None => (websocket_except s websocket, [], false)
        | Some pixel_data =>
            let user_id := dict_get (Payload.userId pixel_data) "anonymous" in
            let '((allowed, message), l) :=
              check_pixel_rate_limit
                (BuildLimiters (buckets s) (redis_client (world s)))
                user_id 1 now later in
            let s :=
              {| world := DynamoDBCanvas.with_redis (world s)
                            (redis_rate_limiter l);
                 buckets := ws_rate_limiter l;
                 active_connections := active_connections s;
                 pixel_update_queue := pixel_update_queue s;
                 gone := gone s |} in
            if negb allowed then
              match send_text s websocket (pixel_reject message later) with
              | Raise _ => (websocket_except s websocket, [], false)
              | Return sent => (s, sent, true)
              end
            else
              match new_PixelUpdate pixel_data user_id with
              | Raise _ => (websocket_except s websocket, [], false)
              | Return update =>
                  (with_queue s (pixel_update_queue s ++ [update]), [], true)
              end
        end
      else if decide (type = Some "heartbeat") then
        match send_text s websocket (heartbeat_ack now) with
        | Raise _ => (websocket_except s websocket, [], false)
        | Return sent => (s, sent, true)
        end
      else (s, [], true)
  end.

(** * Properties *)

(** ** Specification vocabulary *)

(** The locks the lock index answers with. *)
Definition seen_locks (w : World) : list RegionLock.t :=
  (DynamoDBCanvas.get_region_locks w).1.

(** Whether the applier finds [(x, y)] locked. *)
Definition locked (w : World) (x y : Z) : bool :=
  (DynamoDBCanvas.is_position_locked w x y).1.

Definition locked_update (w : World) (u : PixelUpdate.t) : bool :=
  locked w (PixelUpdate.x u) (PixelUpdate.y u).

(** The edits of a batch the applier writes, in order. *)
Definition applied (w : World) (batch : list PixelUpdate.t)
  : list PixelUpdate.t :=
  filter (λ u, locked_update w u = false) batch.

(** The edits of a batch the applier skips, in order. *)
Definition rejected (w : World) (batch : list PixelUpdate.t)
  : list PixelUpdate.t :=
  filter (λ u, locked_update w u = true) batch.

(** The canvas bytes a flush starts from. *)
Definition loaded_bitmap (w : World) : list Z :=
  match (DynamoDBCanvas.get_canvas_state w).1 with
  | Some c => CanvasState.bitmap c
  | None => np.data np.zeros
  end.

(** The canvas bytes in the [pixels-canvas] table. *)
Definition persisted_bitmap (w : World) : option (list Z) :=
  CanvasState.bitmap <$> dynamodb.canvas_table (tables w).

Definition in_canvas (x y : Z) : Prop := 0 <= x < WIDTH ∧ 0 <= y < HEIGHT.

Definition valid_batch (batch : list PixelUpdate.t) : Prop :=
  Forall (λ u, pixel_update_ok u = true) batch.

(** The bytes an applied edit puts at its pixel. *)
Definition written_rgb (u : PixelUpdate.t) : Z * Z * Z :=
  match PixelUpdate.tool u with
  | ERASER => (255, 255, 255)
  | BRUSH =>
      match color_rgb (PixelUpdate.color u) with
      | Return rgb => rgb
      | Raise _ => (0, 0, 0)
      end
  end.

Definition write_rgb (b : list Z) (o : nat) (rgb : Z * Z * Z) : list Z :=
  <[S (S o) := rgb.2]> (<[S o := rgb.1.2]> (<[o := rgb.1.1]> b)).

(** The canvas bytes once the edit [u] is written. *)
Definition paint (b : list Z) (u : PixelUpdate.t) : list Z :=
  write_rgb b (np.offset (PixelUpdate.y u) (PixelUpdate.x u)) (written_rgb u).

(** What a flush leaves as it is in the stores, up to the point where it
    saves the canvas. *)
Record stable (w w' : World) : Prop := Stable {
  stable_canvas :
    dynamodb.canvas_table (tables w') = dynamodb.canvas_table (tables w);
  stable_locks :
    dynamodb.locks_table (tables w') = dynamodb.locks_table (tables w);
  stable_tables_failing :
    dynamodb.failing (tables w') = dynamodb.failing (tables w);
  stable_redis_failing :
    redis.failing (redis_client w') = redis.failing (redis_client w);
  stable_seen : seen_locks w' = seen_locks w
}.

(** The canvas bytes once the edits a flush applies are written. *)
Definition flushed_bitmap (w : World) (batch : list PixelUpdate.t) : list Z :=
  fold_left paint (applied w batch) (loaded_bitmap w).

(** The sockets a broadcast reaches. *)
Definition recipients (s : Server) : list nat :=
  filter (λ c, c ∉ gone s) (elements (active_connections s)).

(** The bytes of an ASCII string. *)
Definition bytes_of_string (s : string) : list Z :=
  (λ c, Z.of_N (N_of_ascii c)) <$> String.list_ascii_of_string s.

(** A lowercase hexadecimal digit. *)
Definition is_lower_hex (c : ascii) : bool :=
  let n := Z.of_N (N_of_ascii c) in
  ((48 <=? n) && (n <=? 57)) || ((97 <=? n) && (n <=? 102)).

Definition lower_hex_string (s : string) : Prop :=
  Forall (λ c, is_lower_hex c = true) (String.list_ascii_of_string s).

(** One of the commands [increment_pixel_count] issues raises: [INCR]
    itself, or [EXPIRE] after the first increment of a key. *)
Definition cache_raises (r : redis.Redis) (user_id : option string) : Prop :=
  let key := RedisCache.pixel_key user_id in
  match redis.incr r key with
  | Raise _ => True
  | Return (r', count) =>
      count = 1 ∧ ∃ e, redis.expire r' key RedisRateLimiter.window = Raise e
  end.

(** The verdicts of successive checks of one user, one pixel each, at the
    given clock readings. *)
Fixpoint check_all (self : gmap (option string) TokenBucket.t)
    (user_id : option string) (times : list Q)
  : list bool * gmap (option string) TokenBucket.t :=
  match times with
  | [] => ([], self)
  | t :: times' =>
      let '(ok, self') :=
        WebSocketRateLimiter.check_rate_limit self user_id 1 t in
      let '(oks, self'') := check_all self' user_id times' in
      (ok :: oks, self'')
  end.

(** The readings [times] follow [t] in order. *)
Fixpoint after (t : Q) (times : list Q) : Prop :=
  match times with
  | [] => True
  | t' :: times' => (t <= t')%Q ∧ after t' times'
  end.

(** All readings are at most 50 ms past [t0]. *)
Definition within_50ms (t0 : Q) (times : list Q) : Prop :=
  Forall (λ t, (t <= t0 + (1 # 20))%Q) times.

(** A bucket as the limiter makes them: capacity 20, refilled at 10 tokens
    a second. *)
Definition standard (b : TokenBucket.t) : Prop :=
  TokenBucket.capacity b = 20 ∧ TokenBucket.refill_rate b = 10%Q.

(** A [pixel:update] frame arriving on a socket, with the clock readings
    taken while it is handled. *)
Module Arrival.
Record t := Build {
  socket : nat;
  pixel_data : Payload.t;
  now : Q;
  later : Q
}.
End Arrival.

(** The two limiters of a server. *)
Definition limiters (s : Server) : Limiters :=
  BuildLimiters (buckets s) (redis_client (world s)).

Definition limiters_at (l : Limiters) (t : Q) : Limiters :=
  BuildLimiters (ws_rate_limiter l) (redis.at_time (redis_rate_limiter l) t).

(** The server when the clock of Redis reads [t]. *)
Definition at_time (s : Server) (t : Q) : Server :=
  with_world s
    (DynamoDBCanvas.with_redis (world s)
       (redis.at_time (redis_client (world s)) t)).

(** The server after the endpoints have handled the arrivals, in order;
    the clock of Redis agrees with the one of the process when a frame is
    read. *)
Fixpoint receive_all (s : Server) (arrivals : list Arrival.t) : Server :=
  match arrivals with
  | [] => s
  | a :: arrivals' =>
      receive_all
        (websocket_endpoint (at_time s (Arrival.now a)) (Arrival.socket a)
           (Message (Some "pixel:update") (Some (Arrival.pixel_data a)))
           (Arrival.now a) (Arrival.later a)).1.1
        arrivals'
  end.

(** The clock readings of the arrivals, in the order they are taken. *)
Definition readings (arrivals : list Arrival.t) : list Q :=
  arrivals ≫= λ a, [Arrival.now a; Arrival.later a].

(** The payload has no [userId]. *)
Definition anonymous (a : Arrival.t) : Prop :=
  Payload.userId (Arrival.pixel_data a) = Absent.

(** The verdicts of the composite check of one user, made once for each
    arrival at its clock readings, and the limiters after them. *)
Fixpoint check_each (l : Limiters) (user_id : option string)
    (arrivals : list Arrival.t) : list bool * Limiters :=
  match arrivals with
  | [] => ([], l)
  | a :: arrivals' =>
      let '((ok, _), l') :=
        check_pixel_rate_limit (limiters_at l (Arrival.now a)) user_id 1
          (Arrival.now a) (Arrival.later a) in
      let '(oks, l'') := check_each l' user_id arrivals' in
      (ok :: oks, l'')
  end.

(** The number of checks admitted. *)
Definition admitted (oks : list bool) : nat :=
  length (filter (λ ok, ok = true) oks).

(** The edits of a user that arrivals with the given verdicts put in the
    queue: one for each arrival that is admitted and whose payload makes a
    [PixelUpdate]. *)
Fixpoint queued (user_id : option string) (arrivals : list Arrival.t)
    (oks : list bool) : list PixelUpdate.t :=
  match arrivals, oks with
  | a :: arrivals', ok :: oks' =>
      match ok, new_PixelUpdate (Arrival.pixel_data a) user_id with
      | true, Return update => update :: queued user_id arrivals' oks'
      | _, _ => queued user_id arrivals' oks'
      end
  | _, _ => []
  end.

(** The minute counter of a user as Redis answers it, and what is left of
    the 100 edits. *)
Definition pixel_count (r : redis.Redis) (user_id : option string) : Z :=
  match redis.lookup r (RedisCache.pixel_key user_id) with
  | Some (redis.BuildEntry (redis.Int n) _) => n
  | _ => 0
  end.

Definition quota (r : redis.Redis) (user_id : option string) : Z :=
  Z.max 0 (RedisRateLimiter.max_pixels - pixel_count r user_id).

(** Redis answers the commands of the window limiter, and the counter of
    the user is absent, or run out, or a natural number. *)
Definition counting (r : redis.Redis) (user_id : option string) : Prop :=
  redis.failing r redis.INCR = false
  ∧ redis.failing r redis.EXPIRE = false
  ∧ match redis.lookup r (RedisCache.pixel_key user_id) with
    | None => True
    | Some (redis.BuildEntry (redis.Int n) _) => (0 <= n)%Z
    | Some _ => False
    end.

(** Between [t0] and [t1] the minute counter of the user does not run out:
    there is none when the clock reads [t0] (none stored, or one whose time
    was up before) and [t1] is at most 60 seconds later, so that the one
    made meanwhile lasts; or there is one, at 1 or more, that lasts until
    [t1]. *)
Definition one_window (r : redis.Redis) (user_id : option string)
    (t0 t1 : Q) : Prop :=
  redis.failing r redis.INCR = false
  ∧ redis.failing r redis.EXPIRE = false
  ∧ match redis.keys r !! RedisCache.pixel_key user_id with
    | None => (t1 <= t0 + 60)%Q
    | Some (redis.BuildEntry v (Some t)) =>
        ((t < t0)%Q ∧ (t1 <= t0 + 60)%Q)
        ∨ ((t1 <= t)%Q ∧ ∃ n, v = redis.Int n ∧ (0 < n)%Z)
    | Some (redis.BuildEntry v None) => ∃ n, v = redis.Int n ∧ (0 < n)%Z
    end.

(** All arrivals are read between [t0] and [t1]. *)
Definition between (t0 t1 : Q) (arrivals : list Arrival.t) : Prop :=
  Forall (λ a, (t0 <= Arrival.now a)%Q ∧ (Arrival.now a <= t1)%Q) arrivals.

(** The bucket [b], last refilled between [t0] and [t], holds at most [r]
    tokens more than what 10 tokens a second have refilled since [t0]. *)
Definition bucket_inv (t0 t : Q) (r : nat) (b : TokenBucket.t) : Prop :=
  standard b
  ∧ (t0 <= TokenBucket.last_refill b)%Q
  ∧ (TokenBucket.last_refill b <= t)%Q
  ∧ (TokenBucket.tokens b
     <= inject_Z (Z.of_nat r) + 10 * (TokenBucket.last_refill b - t0))%Q
  ∧ (TokenBucket.tokens b <= 20)%Q.

(** ** Scenarios *)

(** Empty stores on which every command succeeds, and a server that has
    just started. *)
Definition fresh_redis : redis.Redis := redis.Build ∅ 0 (λ _, false).

Definition fresh_tables : dynamodb.Tables :=
  dynamodb.Build None [] ∅ (λ _, false).

Definition fresh_world : World := BuildWorld fresh_tables fresh_redis.

Definition fresh_server : Server := BuildServer fresh_world ∅ ∅ [] ∅.

(** One client, on socket 1. *)
Definition open_server : Server := websocket_accept fresh_server 1%nat.

(** The moderation lock of the locked-region scenario, and the world once
    it is stored. *)
Definition moderator_lock : RegionLock.t :=
  RegionLock.Build 50 50 100 100 "m" None 0.

Definition locked_world : World :=
  match DynamoDBCanvas.add_region_lock fresh_world moderator_lock with
  | Return w => w
  | Raise _ => fresh_world
  end.

Definition locked_server : Server :=
  websocket_accept (with_world fresh_server locked_world) 1%nat.

Definition green_payload : Payload.t :=
  Payload.Build (Value 75) (Value 75) (Value "#00FF00") (Value "brush")
    (Value (Some 0%Q)) Absent.

Definition green_edit : PixelUpdate.t :=
  PixelUpdate.Build 75 75 "#00FF00" BRUSH 0 (Some "anonymous").

Definition red_edit : PixelUpdate.t :=
  PixelUpdate.Build 100 200 "#FF0000" BRUSH 0 (Some "u1").

(** The locked-region scenario: the client sends an edit at [(75, 75)],
    inside the lock, and the next tick flushes it. *)
Definition locked_ingress : Server * list Sent * bool :=
  websocket_endpoint locked_server 1%nat
    (Message (Some "pixel:update") (Some green_payload)) 0 0.

Definition locked_flush : Server * list Sent :=
  batch_pixel_updates locked_ingress.1.1 (1 # 20).

(** A server whose writes to [pixels-canvas] fail, with one edit queued. *)
Definition failing_server : Server :=
  {| world :=
       BuildWorld
         (dynamodb.Build None [] ∅
            (λ c, match c with dynamodb.CanvasPutItem => true | _ => false end))
         fresh_redis;
     buckets := ∅;
     active_connections := {[1%nat]};
     pixel_update_queue := [red_edit];
     gone := ∅ |}.

(** A payload with [x] outside the canvas. *)
Definition invalid_payload : Payload.t :=
  Payload.Build (Value 900) (Value 75) (Value "#00FF00") (Value "brush")
    (Value (Some 0%Q)) (Value "u1").

(** A Redis on which [INCR] raises, and one on which only [EXPIRE] does. *)
Definition redis_without_incr : redis.Redis :=
  redis.Build ∅ 0 (λ c, match c with redis.INCR => true | _ => false end).

Definition redis_without_expire : redis.Redis :=
  redis.Build ∅ 0 (λ c, match c with redis.EXPIRE => true | _ => false end).

(** 24 further readings, one per millisecond, after the reading [0]. *)
Definition burst_times : list Q := (λ i, Z.of_nat i # 1000) <$> seq 1 24.

(** 25 nameless edits in 24 ms, from the sockets 1 and 2 in turn. *)
Definition anonymous_burst : list Arrival.t :=
  (λ i, Arrival.Build (S (i mod 2)) green_payload
          (Z.of_nat i # 1000) (Z.of_nat i # 1000)) <$> seq 0 25.

(** A lock created after the lock list was read: the moderation lock is
    stored, [GET /locks] is served, which leaves the list in the cache, and
    then a second lock is stored. *)
Definition second_lock : RegionLock.t :=
  RegionLock.Build 200 200 300 300 "m" None 1.

Definition listed_world : World :=
  (DynamoDBCanvas.get_region_locks locked_world).2.

Definition stale_world : World :=
  match DynamoDBCanvas.add_region_lock listed_world second_lock with
  | Return w => w
  | Raise _ => listed_world
  end.

(** One client, on socket 1, then sends an edit at [(250, 250)], inside the
    second lock, and the next tick flushes it. *)
Definition stale_server : Server :=
  websocket_accept (with_world fresh_server stale_world) 1%nat.

Definition blue_payload : Payload.t :=
  Payload.Build (Value 250) (Value 250) (Value "#0000FF") (Value "brush")
    (Value (Some 2%Q)) (Value "u1").

Definition blue_edit : PixelUpdate.t :=
  PixelUpdate.Build 250 250 "#0000FF" BRUSH 2 (Some "u1").

Definition stale_ingress : Server * list Sent * bool :=
  websocket_endpoint (at_time stale_server 2) 1%nat
    (Message (Some "pixel:update") (Some blue_payload)) 2 2.

Definition stale_flush : Server * list Sent :=
  batch_pixel_updates stale_ingress.1.1 (2 + (1 # 20)).

(** The same stores once the cached list has run out, 300 seconds after it
    was read. *)
Definition renewed_world : World :=
  DynamoDBCanvas.with_redis stale_world
    (redis.at_time (redis_client stale_world) 301).

(** ** The server at large *)

Definition with_gone (s : Server) (g : gset nat) : Server :=
  {| world := world s; buckets := buckets s;
     active_connections := active_connections s;
     pixel_update_queue := pixel_update_queue s; gone := g |}.

(** What happens to a running server: a socket is accepted, a frame is
    read on a socket, the flush loop wakes up, [POST /locks] and [DELETE
    /locks/...] are served, the peer of a socket goes away, and anything
    at all happens to the stores outside this process (the clock of Redis
    moves on, an outage starts or ends, another process writes). *)
Inductive Event :=
  | Accepted (websocket : nat)
  | Received (websocket : nat) (frame : Frame) (now later : Q)
  | Ticked (now : Q)
  | LockCreated (lock : RegionLock.t)
  | LockRemoved (x1 y1 x2 y2 : Z)
  | PeerGone (websocket : nat)
  | Elsewhere (change : World → World).

Definition step (s : Server) (e : Event) : Server :=
  match e with
  | Accepted websocket => websocket_accept s websocket
  | Received websocket frame now later =>
      (websocket_endpoint s websocket frame now later).1.1
  | Ticked now => (batch_pixel_updates s now).1
  | LockCreated lock =>
      match DynamoDBCanvas.add_region_lock (world s) lock with
      | Return w => with_world s w
      | Raise _ => s
      end
  | LockRemoved x1 y1 x2 y2 =>
      match DynamoDBCanvas.remove_region_lock (world s) x1 y1 x2 y2 with
      | Return w => with_world s w
      | Raise _ => s
      end
  | PeerGone websocket => with_gone s ({[websocket]} ∪ gone s)
  | Elsewhere change => with_world s (change (world s))
  end.

(** The server after the events, in order. *)
Definition run (s : Server) (events : list Event) : Server :=
  fold_left step events s.

(** What holds of the limiter and the queue in every state. *)
Definition well_formed (s : Server) : Prop :=
  valid_batch (pixel_update_queue s)
  ∧ ∀ user_id b, buckets s !! user_id = Some b → standard b.

(** The bucket holds between 0 and 20 tokens. *)
Definition in_range (b : TokenBucket.t) : Prop :=
  (0 <= TokenBucket.tokens b)%Q ∧ (TokenBucket.tokens b <= 20)%Q.

(** The entry of the minute counter of a user. *)
Definition counter_entry (r : redis.Redis) (user_id : option string)
  : option redis.Entry :=
  redis.keys r !! RedisCache.pixel_key user_id.

(** The counts [increment_pixel_count] answers for a user when it is
    called as the clock of Redis reads each of [times], and the cache after
    these calls. *)
Fixpoint increments_at (r : redis.Redis) (user_id : option string)
    (times : list Q) : list Z * redis.Redis :=
  match times with
  | [] => ([], r)
  | t :: times' =>
      let '(count, r') :=
        RedisCache.increment_pixel_count (redis.at_time r t) user_id
          RedisRateLimiter.window in
      let '(counts, r'') := increments_at r' user_id times' in
      (count :: counts, r'')
  end.

(** The same keys at the same time, with other commands failing. *)
Definition with_failing (r : redis.Redis) (f : redis.Cmd → bool)
  : redis.Redis :=
  {| redis.keys := redis.keys r; redis.time := redis.time r;
     redis.failing := f |}.

(** The last applied edit of a batch that targets [(x, y)]. *)
Definition last_write (w : World) (batch : list PixelUpdate.t) (x y : Z)
  : option PixelUpdate.t :=
  last (filter (λ u, (PixelUpdate.x u, PixelUpdate.y u) = (x, y))
          (applied w batch)).

(** The string holds no comma. *)
Fixpoint comma_free (s : string) : bool :=
  match s with
  | EmptyString => true
  | String c s' => negb (Ascii.eqb c ",") && comma_free s'
  end.

(** The corners of a lock, which [lock_id] prints. *)
Definition corners (lock : RegionLock.t) : Z * Z * Z * Z :=
  (RegionLock.x1 lock, RegionLock.y1 lock,
   RegionLock.x2 lock, RegionLock.y2 lock).

(** A canvas state in the cache, older than what is being saved. *)
Definition old_canvas : CanvasState.t :=
  CanvasState.Build WIDTH HEIGHT [] "old" 0.

Definition redis_without_setex : redis.Redis :=
  redis.Build {["canvas:state"%string :=
                  redis.BuildEntry (redis.Canvas old_canvas) (Some 3600%Q)]}
    0 (λ c, match c with redis.SETEX => true | _ => false end).

Definition stale_canvas_world : World :=
  BuildWorld fresh_tables redis_without_setex.

(** ** The array *)

Lemma np_size_value : np.size = 2430000.
Proof. reflexivity. Qed.

Lemma coordinate_ok_range v : coordinate_ok v = true ↔ 0 <= v < 900.
Proof. unfold coordinate_ok. rewrite andb_true_iff. lia. Qed.

Lemma axis_index_in_range n i : 0 <= i < n → np.axis_index n i = Some i.
Proof.
  intros Hi. unfold np.axis_index.
  replace ((0 <=? i) && (i <? n)) with true; [done|].
  symmetry. apply andb_true_iff. lia.
Qed.

Lemma offset_apart x y x' y' (i j : nat) :
  in_canvas x y → in_canvas x' y' → (x', y') ≠ (x, y) →
  (i < 3)%nat → (j < 3)%nat →
  (np.offset y' x' + i)%nat ≠ (np.offset y x + j)%nat.
Proof.
  unfold in_canvas, np.offset, WIDTH, HEIGHT.
  intros [Hx Hy] [Hx' Hy'] Hne Hi Hj Heq.
  apply Hne. f_equal; lia.
Qed.

Lemma lookup_after_write (data : list Z) (o k : nat) (r g b : Z) :
  k ≠ o → k ≠ S o → k ≠ S (S o) →
  <[S (S o) := b]> (<[S o := g]> (<[o := r]> data)) !! k = data !! k.
Proof. intros. by rewrite !list_lookup_insert_ne. Qed.

Lemma setitem_writes a y x rgb :
  np.writeable a = true → in_canvas x y →
  ∃ a', np.setitem a y x rgb = Return a'
        ∧ np.writeable a' = true
        ∧ length (np.data a') = length (np.data a)
        ∧ ∀ x' y', in_canvas x' y' → (x', y') ≠ (x, y) →
            pixel_at (np.data a') x' y' = pixel_at (np.data a) x' y'.
Proof.
  intros Hw [Hx Hy]. unfold np.setitem. rewrite Hw. simpl negb. cbv iota.
  rewrite !axis_index_in_range by done.
  destruct rgb as [[r g] b]. eexists. split; [reflexivity|].
  split; [reflexivity|]. cbn [np.data]. split.
  - by rewrite !length_insert.
  - intros x' y' Hin Hne. unfold pixel_at.
    assert (Hd : ∀ i j : nat, (i < 3)%nat → (j < 3)%nat →
              (np.offset y' x' + i)%nat ≠ (np.offset y x + j)%nat).
    { intros i j. by apply offset_apart. }
    pose proof (Hd 0 0)%nat. pose proof (Hd 0 1)%nat. pose proof (Hd 0 2)%nat.
    pose proof (Hd 1 0)%nat. pose proof (Hd 1 1)%nat. pose proof (Hd 1 2)%nat.
    pose proof (Hd 2 0)%nat. pose proof (Hd 2 1)%nat. pose proof (Hd 2 2)%nat.
    rewrite !lookup_after_write by lia. reflexivity.
Qed.

(** ** Colours *)

Lemma hex_value_of_digit c :
  is_hex_digit c = true → ∃ d, hex_value c = Some d ∧ 0 <= d < 16.
Proof.
  unfold is_hex_digit, hex_value. intros H.
  set (n := Z.of_N (N_of_ascii c)) in *.
  destruct ((48 <=? n) && (n <=? 57)) eqn:E1.
  { exists (n - 48). split; [done|]. apply andb_true_iff in E1. lia. }
  destruct ((65 <=? n) && (n <=? 70)) eqn:E2.
  { exists (n - 55). split; [done|]. apply andb_true_iff in E2. lia. }
  destruct ((97 <=? n) && (n <=? 102)) eqn:E3; [|done].
  exists (n - 87). split; [done|]. apply andb_true_iff in E3. lia.
Qed.

Lemma int16_pair a b :
  is_hex_digit a = true → is_hex_digit b = true →
  ∃ v, int16 (String a (String b EmptyString)) = Return v ∧ 0 <= v < 256.
Proof.
  intros [da [Ha ?]]%hex_value_of_digit [db [Hb ?]]%hex_value_of_digit.
  exists (16 * da + db). split; [|lia].
  unfold int16. cbn [int16_digits]. rewrite Ha. cbn [int16_digits].
  rewrite Hb. f_equal; lia.
Qed.

(** Every colour the model accepts parses into three bytes. *)
Lemma color_rgb_ok color :
  color_ok color = true →
  ∃ r g b, color_rgb color = Return (r, g, b)
           ∧ 0 <= r < 256 ∧ 0 <= g < 256 ∧ 0 <= b < 256.
Proof.
  intros H.
  destruct color as [|c0 [|a [|b [|c [|d [|e [|f [|]]]]]]]];
    try done; try (by destruct c0 as [[] [] [] [] [] [] [] []]).
  assert (Hd : is_hex_digit a && is_hex_digit b && is_hex_digit c
               && is_hex_digit d && is_hex_digit e && is_hex_digit f = true).
  { by destruct c0 as [[] [] [] [] [] [] [] []]. }
  clear H. rewrite !andb_true_iff in Hd.
  destruct Hd as [[[[[Ha Hb] Hc] Hd] He] Hf].
  destruct (int16_pair a b Ha Hb) as (r & Hr & ?).
  destruct (int16_pair c d Hc Hd) as (g & Hg & ?).
  destruct (int16_pair e f He Hf) as (bl & Hbl & ?).
  exists r, g, bl. unfold color_rgb. cbn [String.substring].
  by rewrite Hr, Hg, Hbl.
Qed.

(** ** The stores *)

(** A key just set with a time to live that is not negative is there. *)
Lemma not_expired_yet t seconds v :
  (0 <= seconds)%Z →
  redis.expired t (redis.BuildEntry v (Some (t + inject_Z seconds)%Q)) = false.
Proof.
  intros H. unfold redis.expired. cbn [redis.expires_at].
  apply negb_false_iff, Qle_bool_iff.
  assert (0 <= inject_Z seconds)%Q by (change 0%Q with (inject_Z 0);
                                       by rewrite <- Zle_Qle).
  lra.
Qed.

Lemma lookup_after_setex r k seconds v k' :
  redis.failing r redis.SETEX = false → (0 <= seconds)%Z →
  ∃ r', redis.setex r k seconds v = Return r'
        ∧ redis.failing r' = redis.failing r
        ∧ redis.time r' = redis.time r
        ∧ redis.lookup r' k'
          = if decide (k' = k)
            then Some (redis.BuildEntry v
                         (Some (redis.time r + inject_Z seconds)%Q))
            else redis.lookup r k'.
Proof.
  intros Hset Hs. unfold redis.setex. rewrite Hset. eexists.
  split; [done|]. split; [done|]. split; [done|].
  unfold redis.lookup. cbn [redis.keys redis.time].
  case_decide as Hk.
  - subst k'. by rewrite lookup_insert_eq, not_expired_yet.
  - by rewrite lookup_insert_ne.
Qed.

Lemma cached_locks_after_set r l :
  RedisCache.get_region_locks (RedisCache.set_region_locks r l)
  = if redis.failing r redis.SETEX then RedisCache.get_region_locks r
    else if redis.failing r redis.GET then [] else l.
Proof.
  unfold RedisCache.set_region_locks.
  destruct (redis.failing r redis.SETEX) eqn:Hset.
  { unfold redis.setex. by rewrite Hset. }
  destruct (lookup_after_setex r "canvas:locks" 300 (redis.Locks l)
              "canvas:locks" Hset) as (r' & -> & Hf & _ & Hl); [done|].
  unfold RedisCache.get_region_locks, redis.get. rewrite Hf, Hl.
  by destruct (redis.failing r redis.GET).
Qed.

Lemma cached_locks_after_canvas r c :
  RedisCache.get_region_locks (RedisCache.set_canvas_state r c)
  = RedisCache.get_region_locks r.
Proof.
  unfold RedisCache.set_canvas_state.
  destruct (redis.failing r redis.SETEX) eqn:Hset.
  { unfold redis.setex. by rewrite Hset. }
  destruct (lookup_after_setex r "canvas:state" 3600 (redis.Canvas c)
              "canvas:locks" Hset) as (r' & -> & Hf & _ & Hl); [done|].
  unfold RedisCache.get_region_locks, redis.get. by rewrite Hf, Hl.
Qed.

Lemma failing_after_set_locks r l :
  redis.failing (RedisCache.set_region_locks r l) = redis.failing r.
Proof.
  unfold RedisCache.set_region_locks, redis.setex.
  by destruct (redis.failing r redis.SETEX).
Qed.

Lemma failing_after_set_canvas r c :
  redis.failing (RedisCache.set_canvas_state r c) = redis.failing r.
Proof.
  unfold RedisCache.set_canvas_state, redis.setex.
  by destruct (redis.failing r redis.SETEX).
Qed.

Lemma stable_refl w : stable w w.
Proof. by split. Qed.

Lemma stable_trans w1 w2 w3 : stable w1 w2 → stable w2 w3 → stable w1 w3.
Proof. intros [] []. split; congruence. Qed.

Lemma seen_locks_eq w :
  seen_locks w
  = match RedisCache.get_region_locks (redis_client w) with
    | [] => if dynamodb.failing (tables w) dynamodb.LocksScan then []
            else (map_to_list (dynamodb.locks_table (tables w))).*2
    | cached_locks => cached_locks
    end.
Proof.
  unfold seen_locks, DynamoDBCanvas.get_region_locks.
  destruct (RedisCache.get_region_locks _); [|done].
  by destruct (dynamodb.failing _ _).
Qed.

Lemma stable_get_region_locks w :
  stable w (DynamoDBCanvas.get_region_locks w).2.
Proof.
  unfold DynamoDBCanvas.get_region_locks.
  destruct (RedisCache.get_region_locks (redis_client w)) eqn:Hc;
    [|apply stable_refl].
  destruct (dynamodb.failing (tables w) dynamodb.LocksScan) eqn:Hs;
    [apply stable_refl|].
  split; cbn; try done; [apply failing_after_set_locks|].
  rewrite !seen_locks_eq. cbn. rewrite cached_locks_after_set, Hc, Hs.
  destruct (redis.failing _ redis.SETEX); [done|].
  destruct (redis.failing _ redis.GET); [done|].
  by destruct (map_to_list _).*2.
Qed.

Lemma tables_get_region_locks w :
  tables (DynamoDBCanvas.get_region_locks w).2 = tables w.
Proof.
  unfold DynamoDBCanvas.get_region_locks.
  destruct (RedisCache.get_region_locks _); [|done].
  by destruct (dynamodb.failing _ _).
Qed.

Lemma tables_get_canvas_state w :
  tables (DynamoDBCanvas.get_canvas_state w).2 = tables w.
Proof.
  unfold DynamoDBCanvas.get_canvas_state.
  destruct (RedisCache.get_canvas_state _); [done|].
  destruct (dynamodb.failing _ _); [done|].
  by destruct (dynamodb.canvas_table _).
Qed.

Lemma stable_get_canvas_state w :
  stable w (DynamoDBCanvas.get_canvas_state w).2.
Proof.
  unfold DynamoDBCanvas.get_canvas_state.
  destruct (RedisCache.get_canvas_state _); [apply stable_refl|].
  destruct (dynamodb.failing _ _); [apply stable_refl|].
  destruct (dynamodb.canvas_table _); [|apply stable_refl].
  split; cbn; try done; [apply failing_after_set_canvas|].
  rewrite !seen_locks_eq. cbn. by rewrite cached_locks_after_canvas.
Qed.

Lemma add_audit_entry_inv w entry w' :
  DynamoDBCanvas.add_audit_entry w entry = Return w' →
  stable w w'
  ∧ dynamodb.audit_table (tables w')
    = dynamodb.audit_table (tables w) ++ [entry].
Proof.
  unfold DynamoDBCanvas.add_audit_entry.
  destruct (dynamodb.failing _ _); [done|].
  intros [= <-]. split; [|done]. split; try done.
  by rewrite !seen_locks_eq.
Qed.

Lemma add_audit_entry_returns w entry :
  dynamodb.failing (tables w) dynamodb.AuditPutItem = false →
  ∃ w', DynamoDBCanvas.add_audit_entry w entry = Return w'.
Proof.
  intros H. unfold DynamoDBCanvas.add_audit_entry. rewrite H. by eexists.
Qed.

Lemma locked_eq w x y :
  locked w x y = existsb (λ lock, DynamoDBCanvas.covers lock x y) (seen_locks w).
Proof.
  unfold locked, DynamoDBCanvas.is_position_locked, seen_locks.
  by destruct (DynamoDBCanvas.get_region_locks w).
Qed.

Lemma is_position_locked_eq w x y :
  DynamoDBCanvas.is_position_locked w x y
  = (locked w x y, (DynamoDBCanvas.get_region_locks w).2).
Proof.
  unfold locked, DynamoDBCanvas.is_position_locked.
  by destruct (DynamoDBCanvas.get_region_locks w).
Qed.

Lemma stable_locked w w' x y : stable w w' → locked w' x y = locked w x y.
Proof. intros []. rewrite !locked_eq. congruence. Qed.

Lemma stable_applied w w' batch : stable w w' → applied w' batch = applied w batch.
Proof.
  intros Hs. unfold applied, locked_update.
  induction batch as [|u batch IH]; [done|].
  rewrite !filter_cons, IH, (stable_locked w w') by done. done.
Qed.

Lemma stable_rejected w w' batch :
  stable w w' → rejected w' batch = rejected w batch.
Proof.
  intros Hs. unfold rejected, locked_update.
  induction batch as [|u batch IH]; [done|].
  rewrite !filter_cons, IH, (stable_locked w w') by done. done.
Qed.

(** The lock index answers from the cached list while there is one: a lock
    put in the table since is not seen until the cached list has run out,
    300 seconds after it was read. *)
Example cached_locks_hide_later_lock :
  dynamodb.locks_table (tables stale_world)
    !! DynamoDBCanvas.lock_id 200 200 300 300 = Some second_lock
  ∧ DynamoDBCanvas.covers second_lock 250 250 = true
  ∧ seen_locks stale_world = [moderator_lock]
  ∧ locked stale_world 250 250 = false
  ∧ locked renewed_world 250 250 = true.
Proof. by repeat split. Qed.

(** ** The flush loop *)

Lemma setitem_inv a y x rgb a' :
  np.setitem a y x rgb = Return a' → in_canvas x y →
  np.writeable a = true ∧ np.writeable a' = true
  ∧ np.data a' = write_rgb (np.data a) (np.offset y x) rgb.
Proof.
  unfold np.setitem. intros H [Hx Hy].
  destruct (np.writeable a); [|done]. cbn in H.
  rewrite !axis_index_in_range in H by done.
  destruct rgb as [[r g] b]. by injection H as <-.
Qed.

Lemma setitem_readonly a y x rgb :
  np.writeable a = false → np.setitem a y x rgb = Raise ValueError.
Proof. unfold np.setitem. by intros ->. Qed.

Lemma pixel_update_ok_inv u :
  pixel_update_ok u = true →
  in_canvas (PixelUpdate.x u) (PixelUpdate.y u)
  ∧ color_ok (PixelUpdate.color u) = true.
Proof.
  unfold pixel_update_ok, in_canvas, WIDTH, HEIGHT.
  rewrite !andb_true_iff, !coordinate_ok_range. tauto.
Qed.

Lemma applied_cons_locked w u batch :
  locked_update w u = true → applied w (u :: batch) = applied w batch.
Proof. intros H. unfold applied. rewrite filter_cons_False; [done|]. congruence. Qed.

Lemma applied_cons_free w u batch :
  locked_update w u = false → applied w (u :: batch) = u :: applied w batch.
Proof. intros H. unfold applied. by rewrite filter_cons_True. Qed.

Lemma apply_updates_inv now batch :
  valid_batch batch →
  ∀ w bitmap acks rejects w' res,
    apply_updates now batch w bitmap acks rejects = (w', res) →
    stable w w'
    ∧ ∃ logged,
        logged `prefix_of` applied w batch
        ∧ dynamodb.audit_table (tables w')
          = dynamodb.audit_table (tables w)
            ++ ((λ u, audit_entry_of u now) <$> logged)
        ∧ match res with
          | Return (bitmap', acks', rejects') =>
              logged = applied w batch
              ∧ np.data bitmap' = fold_left paint (applied w batch) (np.data bitmap)
              ∧ np.writeable bitmap' = np.writeable bitmap
              ∧ acks' = acks ++ (ack_of <$> applied w batch)
              ∧ rejects' = rejects ++ (reject_of <$> rejected w batch)
          | Raise _ => True
          end.
Proof.
  induction 1 as [|u batch Hu Hbatch IH]; intros w bitmap acks rejects w' res.
  - cbn. intros [= <- <-]. split; [apply stable_refl|].
    exists []. rewrite !app_nil_r. by repeat split.
  - cbn [apply_updates]. rewrite is_position_locked_eq.
    pose proof (stable_get_region_locks w) as Hw1.
    pose proof (tables_get_region_locks w) as Ht1.
    set (w1 := (DynamoDBCanvas.get_region_locks w).2) in *.
    fold (locked_update w u).
    apply pixel_update_ok_inv in Hu as [Hin Hcolor].
    destruct (locked_update w u) eqn:Hlocked.
    + intros H. apply IH in H as (Hst & logged & Hpre & Haudit & Hres).
      rewrite (stable_applied w w1), (stable_rejected w w1) in * by done.
      split; [by eapply stable_trans|].
      exists logged. rewrite applied_cons_locked by done.
      split; [done|]. split; [by rewrite Haudit, Ht1|].
      destruct res as [[[bitmap' acks'] rejects']|]; [|done].
      destruct Hres as (-> & Hdata & Hwr & -> & ->).
      repeat split; try done.
      unfold rejected. rewrite filter_cons_True by done.
      by rewrite fmap_cons, <- app_assoc.
    + destruct (color_rgb_ok _ Hcolor) as (r & g & b & Hrgb & _).
      rewrite Hrgb.
      destruct (np.setitem _ _ _ _) as [bitmap1|e] eqn:Hset.
      2:{ intros [= <- <-]. split; [done|]. exists []. rewrite app_nil_r, Ht1.
          repeat split. apply prefix_nil. }
      apply setitem_inv in Hset as (Hwr & Hwr1 & Hdata1); [|done].
      destruct (DynamoDBCanvas.add_audit_entry _ _) as [w2|e] eqn:Haud.
      2:{ intros [= <- <-]. split; [done|]. exists []. rewrite app_nil_r, Ht1.
          repeat split. apply prefix_nil. }
      apply add_audit_entry_inv in Haud as [Hw2 Hlog].
      assert (Hw12 : stable w w2) by by eapply stable_trans.
      intros H. apply IH in H as (Hst & logged & Hpre & Haudit & Hres).
      rewrite (stable_applied w w2), (stable_rejected w w2) in * by done.
      split; [by eapply stable_trans|].
      exists (u :: logged). rewrite applied_cons_free by done.
      split; [by apply prefix_cons|].
      split.
      { by rewrite Haudit, Hlog, Ht1, <- app_assoc. }
      destruct res as [[[bitmap' acks'] rejects']|]; [|done].
      destruct Hres as (-> & Hdata & Hwr' & -> & ->).
      repeat split; try done.
      * rewrite Hdata, Hdata1. cbn [fold_left]. f_equal.
        unfold paint, written_rgb. rewrite Hrgb.
        by destruct (PixelUpdate.tool u).
      * congruence.
      * by rewrite fmap_cons, <- app_assoc.
      * unfold rejected. by rewrite filter_cons_False by congruence.
Qed.

Lemma apply_updates_returns now batch :
  valid_batch batch →
  ∀ w bitmap acks rejects,
    np.writeable bitmap = true →
    dynamodb.failing (tables w) dynamodb.AuditPutItem = false →
    ∃ w' r, apply_updates now batch w bitmap acks rejects = (w', Return r).
Proof.
  induction 1 as [|u batch Hu Hbatch IH]; intros w bitmap acks rejects Hwr Hok.
  - cbn. by eexists _, _.
  - cbn [apply_updates]. rewrite is_position_locked_eq.
    pose proof (tables_get_region_locks w) as Ht1.
    set (w1 := (DynamoDBCanvas.get_region_locks w).2) in *.
    apply pixel_update_ok_inv in Hu as [Hin Hcolor].
    destruct (locked w _ _).
    + apply IH; [done|]. by rewrite Ht1.
    + destruct (color_rgb_ok _ Hcolor) as (r & g & b & -> & _).
      destruct (setitem_writes bitmap (PixelUpdate.y u) (PixelUpdate.x u)
                  (match PixelUpdate.tool u with
                   | BRUSH => (r, g, b) | ERASER => (255, 255, 255) end)
                  Hwr Hin) as (bitmap1 & -> & Hwr1 & _).
      destruct (add_audit_entry_returns w1 (audit_entry_of u now)) as [w2 Hw2];
        [by rewrite Ht1|].
      rewrite Hw2. apply IH; [done|].
      apply add_audit_entry_inv in Hw2 as [Hst _].
      by rewrite (stable_tables_failing _ _ Hst), Ht1.
Qed.

Lemma length_paint b us : length (fold_left paint us b) = length b.
Proof.
  revert b. induction us as [|u us IH]; intros b; [done|].
  cbn [fold_left]. rewrite IH. unfold paint, write_rgb.
  by rewrite !length_insert.
Qed.

Lemma length_zeros : Z.of_nat (length (np.data np.zeros)) = np.size.
Proof.
  unfold np.zeros, np.data. rewrite length_replicate, np_size_value. lia.
Qed.

Lemma frombuffer_inv b a :
  np.frombuffer b = Return a →
  np.data a = b ∧ np.writeable a = false ∧ Z.of_nat (length b) = np.size.
Proof.
  unfold np.frombuffer. destruct (_ =? _) eqn:E; [|done].
  intros [= <-]. repeat split. by apply Z.eqb_eq.
Qed.

Lemma process_pixel_batch_inv s batch now s' sent res :
  valid_batch batch →
  process_pixel_batch s batch now = (s', sent, res) →
  buckets s' = buckets s
  ∧ pixel_update_queue s' = pixel_update_queue s
  ∧ gone s' = gone s
  ∧ (∃ logged,
       logged `prefix_of` applied (world s) batch
       ∧ dynamodb.audit_table (tables (world s'))
         = dynamodb.audit_table (tables (world s))
           ++ ((λ u, audit_entry_of u now) <$> logged)
       ∧ (res = Return tt → logged = applied (world s) batch))
  ∧ match res with
    | Return _ =>
        let bitmap_bytes := flushed_bitmap (world s) batch in
        let hash_value := SHA256.hexdigest bitmap_bytes in
        dynamodb.canvas_table (tables (world s'))
        = Some (CanvasState.Build WIDTH HEIGHT bitmap_bytes hash_value now)
        ∧ Z.of_nat (length bitmap_bytes) = np.size
        ∧ sent = ((λ c, (c, pixel_bulk_update (wire_pixel <$> batch)
                              hash_value now)) <$> recipients s)
        ∧ dynamodb.failing (tables (world s)) dynamodb.CanvasPutItem = false
    | Raise _ =>
        dynamodb.canvas_table (tables (world s'))
        = dynamodb.canvas_table (tables (world s))
        ∧ sent = []
        ∧ active_connections s' = active_connections s
    end.
Proof.
  intros Hvalid. unfold process_pixel_batch, flushed_bitmap, loaded_bitmap.
  pose proof (stable_get_canvas_state (world s)) as Hst0.
  pose proof (tables_get_canvas_state (world s)) as Ht0.
  destruct (DynamoDBCanvas.get_canvas_state (world s)) as [canvas_state w0].
  cbn [fst snd] in *.
  set (loaded := match canvas_state with
                 | Some c => np.frombuffer (CanvasState.bitmap c)
                 | None => Return np.zeros
                 end).
  assert (Hloaded : ∀ bitmap, loaded = Return bitmap →
            np.data bitmap
            = match canvas_state with
              | Some c => CanvasState.bitmap c
              | None => np.data np.zeros
              end
            ∧ Z.of_nat (length (np.data bitmap)) = np.size).
  { subst loaded. intros bitmap. destruct canvas_state as [c|].
    - intros (-> & _ & Hlen)%frombuffer_inv. done.
    - intros [= <-]. split; [done|apply length_zeros]. }
  destruct loaded as [bitmap|e].
  2:{ intros [= <- <- <-]. cbn. repeat split; try done; [|by rewrite Ht0].
      exists []. rewrite app_nil_r, Ht0. repeat split; [apply prefix_nil|done]. }
  destruct (Hloaded bitmap eq_refl) as [Hdata0 Hlen0]. clear Hloaded.
  destruct (apply_updates now batch w0 bitmap [] []) as [w1 r] eqn:Hloop.
  apply apply_updates_inv in Hloop as (Hst1 & logged & Hpre & Haudit & Hres);
    [|done].
  rewrite (stable_applied (world s) w0) in * by done.
  rewrite Ht0 in Haudit.
  destruct r as [[[bitmap' acks] rejects]|e].
  2:{ intros [= <- <- <-]. cbn. repeat split; try done.
      - by exists logged.
      - by rewrite (stable_canvas _ _ Hst1), Ht0. }
  destruct Hres as (-> & Hdata & _).
  unfold DynamoDBCanvas.save_canvas_state.
  destruct (dynamodb.failing (tables w1) dynamodb.CanvasPutItem) eqn:Hput.
  { intros [= <- <- <-]. cbn. repeat split; try done.
    - by eexists.
    - by rewrite (stable_canvas _ _ Hst1), Ht0. }
  intros [= <- <- <-]. cbn. unfold np.tobytes. rewrite Hdata, Hdata0.
  repeat split; try done.
  - by eexists.
  - rewrite length_paint. by rewrite <- Hdata0.
  - by rewrite <- Ht0, <- (stable_tables_failing _ _ Hst1).
Qed.

(** A flush that starts from a writeable array and whose writes to the
    tables succeed returns. *)
Lemma process_pixel_batch_returns s batch now :
  valid_batch batch →
  (DynamoDBCanvas.get_canvas_state (world s)).1 = None →
  dynamodb.failing (tables (world s)) dynamodb.AuditPutItem = false →
  dynamodb.failing (tables (world s)) dynamodb.CanvasPutItem = false →
  ∃ s' sent, process_pixel_batch s batch now = (s', sent, Return tt).
Proof.
  intros Hvalid Hnone Haudit Hput. unfold process_pixel_batch.
  pose proof (tables_get_canvas_state (world s)) as Ht0.
  destruct (DynamoDBCanvas.get_canvas_state (world s)) as [canvas_state w0].
  cbn [fst snd] in *. subst canvas_state.
  destruct (apply_updates_returns now batch Hvalid w0 np.zeros [] [])
    as (w1 & [[bitmap acks] rejects] & Hloop); [done|by rewrite Ht0|].
  rewrite Hloop.
  apply apply_updates_inv in Hloop as (Hst1 & _); [|done].
  unfold DynamoDBCanvas.save_canvas_state.
  rewrite (stable_tables_failing _ _ Hst1), Ht0, Hput.
  by eexists _, _.
Qed.

(** ** Frame of the writes *)

Lemma pixel_at_paint b u x y :
  in_canvas (PixelUpdate.x u) (PixelUpdate.y u) → in_canvas x y →
  (PixelUpdate.x u, PixelUpdate.y u) ≠ (x, y) →
  pixel_at (paint b u) x y = pixel_at b x y.
Proof.
  intros Hu Hin Hne. unfold pixel_at, paint, write_rgb.
  assert (Hd : ∀ i j : nat, (i < 3)%nat → (j < 3)%nat →
            (np.offset y x + i)%nat
            ≠ (np.offset (PixelUpdate.y u) (PixelUpdate.x u) + j)%nat).
  { intros i j. apply offset_apart; [done..|]. congruence. }
  pose proof (Hd 0 0)%nat. pose proof (Hd 0 1)%nat. pose proof (Hd 0 2)%nat.
  pose proof (Hd 1 0)%nat. pose proof (Hd 1 1)%nat. pose proof (Hd 1 2)%nat.
  pose proof (Hd 2 0)%nat. pose proof (Hd 2 1)%nat. pose proof (Hd 2 2)%nat.
  rewrite !lookup_after_write by lia. reflexivity.
Qed.

Lemma pixel_at_fold_paint us : ∀ b x y,
  valid_batch us → in_canvas x y →
  (∀ u, u ∈ us → (PixelUpdate.x u, PixelUpdate.y u) ≠ (x, y)) →
  pixel_at (fold_left paint us b) x y = pixel_at b x y.
Proof.
  induction us as [|u us IH]; intros b x y Hvalid Hin Hne; [done|].
  apply Forall_cons in Hvalid as [Hu Hus].
  apply pixel_update_ok_inv in Hu as [Hu _].
  cbn [fold_left]. rewrite IH; [|done..|].
  - apply pixel_at_paint; [done..|]. apply Hne. by left.
  - intros v Hv. apply Hne. by right.
Qed.

Lemma valid_applied w batch : valid_batch batch → valid_batch (applied w batch).
Proof.
  unfold valid_batch, applied. rewrite !Forall_forall.
  intros H u [_ Hu]%list_elem_of_filter. by apply H.
Qed.

(** A pixel no applied edit targets keeps its bytes through the flush. *)
Lemma flushed_frame w batch x y :
  valid_batch batch → in_canvas x y →
  (∀ u, u ∈ applied w batch → (PixelUpdate.x u, PixelUpdate.y u) ≠ (x, y)) →
  pixel_at (flushed_bitmap w batch) x y = pixel_at (loaded_bitmap w) x y.
Proof.
  intros Hvalid Hin Hne. unfold flushed_bitmap.
  apply pixel_at_fold_paint; [by apply valid_applied|done..].
Qed.

Lemma applied_not_locked w batch u :
  u ∈ applied w batch → u ∈ batch ∧ locked_update w u = false.
Proof. unfold applied. rewrite list_elem_of_filter. tauto. Qed.

(** ** The digest is 64 lowercase hexadecimal digits *)

Lemma hexdigit_lower n : is_lower_hex (SHA256.hexdigit n) = true.
Proof.
  destruct n as [|p|p]; [reflexivity| |reflexivity].
  do 5 (destruct p as [p|p|]; try reflexivity).
Qed.

Lemma hex8_lower w rest :
  lower_hex_string rest → lower_hex_string (SHA256.hex8 w rest).
Proof.
  intros H. unfold lower_hex_string, SHA256.hex8, SHA256.nibble.
  cbn [String.list_ascii_of_string].
  repeat (apply Forall_cons; split; [apply hexdigit_lower|]). exact H.
Qed.

Lemma hexdigest_lower msg : lower_hex_string (SHA256.hexdigest msg).
Proof.
  unfold SHA256.hexdigest. do 8 apply hex8_lower. constructor.
Qed.

Lemma hexdigest_length msg : String.length (SHA256.hexdigest msg) = 64%nat.
Proof. reflexivity. Qed.

(** ** The digest on the test vectors of the standard *)

Example sha256_constants :
  length SHA256.K = 64%nat
  ∧ SHA256.K !! 0%nat = Some 0x428a2f98
  ∧ SHA256.K !! 63%nat = Some 0xc67178f2
  ∧ SHA256.ha SHA256.H0 = 0x6a09e667
  ∧ SHA256.hh SHA256.H0 = 0x5be0cd19.
Proof. by repeat split. Qed.

Example sha256_abc :
  SHA256.hexdigest (bytes_of_string "abc")
  = "ba7816bf8f01cfea414140de5dae2223b00361a396177a9cb410ff61f20015ad"%string.
Proof. vm_compute. reflexivity. Qed.

Example sha256_empty :
  SHA256.hexdigest []
  = "e3b0c44298fc1c149afbf4c8996fb92427ae41e4649b934ca495991b7852b855"%string.
Proof. vm_compute. reflexivity. Qed.

Example sha256_two_blocks :
  SHA256.hexdigest (replicate 56 97)
  = "b35439a4ac6f0948b6d6f9e3c6af0f5f590ce20f1bde7090ef7970686ec6738a"%string.
Proof. vm_compute. reflexivity. Qed.

Example sha256_200_bytes :
  SHA256.hexdigest (Z.of_nat <$> seq 0 200)
  = "1901da1c9f699b48f6b2636e65cbf73abf99d0441ef67f5c540a42f7051dec6f"%string.
Proof. vm_compute. reflexivity. Qed.

(** ** The flush *)

(** A tick takes the whole queue, and nothing comes back to it. *)
Lemma batch_pixel_updates_inv s now :
  valid_batch (pixel_update_queue s) →
  let '(s', sent) := batch_pixel_updates s now in
  pixel_update_queue s' = []
  ∧ (dynamodb.failing (tables (world s)) dynamodb.CanvasPutItem = true →
       sent = []
       ∧ persisted_bitmap (world s') = persisted_bitmap (world s)
       ∧ active_connections s' = active_connections s).
Proof.
  intros Hvalid. unfold batch_pixel_updates.
  destruct (pixel_update_queue s) as [|u batch] eqn:Hq; [by rewrite Hq|].
  destruct (process_pixel_batch _ _ _) as [[s' sent] res] eqn:Hp.
  apply process_pixel_batch_inv in Hp as (_ & Hqueue & _ & _ & Hres); [|done].
  split; [done|]. intros Hfail. unfold persisted_bitmap.
  destruct res as [[]|e].
  - destruct Hres as (_ & _ & _ & Hok). cbn in Hok. congruence.
  - destruct Hres as (-> & -> & ->). done.
Qed.

Lemma valid_red : valid_batch [red_edit].
Proof. by repeat constructor. Qed.

Lemma valid_green : valid_batch [green_edit].
Proof. by repeat constructor. Qed.

(** ** Hash consistency *)

(** C4. After a flush that returns, the canvas stored in the table holds
    the bytes of the loaded canvas with the applied edits written, 900 * 900
    * 3 of them, and the hash stored with it, which is also the hash of
    every frame broadcast, is the SHA-256 digest of exactly those bytes, as
    64 lowercase hexadecimal digits. *)
Theorem flush_hash_is_sha256_of_canvas s batch now s' sent :
  valid_batch batch →
  process_pixel_batch s batch now = (s', sent, Return tt) →
  ∃ c, dynamodb.canvas_table (tables (world s')) = Some c
       ∧ CanvasState.bitmap c = flushed_bitmap (world s) batch
       ∧ Z.of_nat (length (CanvasState.bitmap c)) = WIDTH * HEIGHT * 3
       ∧ CanvasState.hash c = SHA256.hexdigest (CanvasState.bitmap c)
       ∧ lower_hex_string (CanvasState.hash c)
       ∧ String.length (CanvasState.hash c) = 64%nat
       ∧ Forall (λ m : Sent, ∃ pixels t,
                   m.2 = pixel_bulk_update pixels (CanvasState.hash c) t) sent.
Proof.
  intros Hvalid Hp.
  apply process_pixel_batch_inv in Hp as (_ & _ & _ & _ & Hres); [|done].
  destruct Hres as (Hc & Hlen & -> & _).
  eexists. split; [exact Hc|]. cbn [CanvasState.bitmap CanvasState.hash].
  repeat split; try done.
  - apply hexdigest_lower.
  - apply Forall_fmap, Forall_forall. intros c _. by eexists _, _.
Qed.

Lemma flush_hash_is_sha256_of_canvas_witness :
  ∃ s' sent,
    process_pixel_batch open_server [red_edit] 0 = (s', sent, Return tt)
    ∧ ∃ c, dynamodb.canvas_table (tables (world s')) = Some c
         ∧ CanvasState.bitmap c = flushed_bitmap (world open_server) [red_edit]
         ∧ Z.of_nat (length (CanvasState.bitmap c)) = WIDTH * HEIGHT * 3
         ∧ CanvasState.hash c = SHA256.hexdigest (CanvasState.bitmap c)
         ∧ lower_hex_string (CanvasState.hash c)
         ∧ String.length (CanvasState.hash c) = 64%nat
         ∧ Forall (λ m : Sent, ∃ pixels t,
                     m.2 = pixel_bulk_update pixels (CanvasState.hash c) t) sent.
Proof.
  destruct (process_pixel_batch_returns open_server [red_edit] 0)
    as (s' & sent & H); [exact valid_red|reflexivity..|].
  exists s', sent. split; [exact H|].
  exact (flush_hash_is_sha256_of_canvas open_server [red_edit] 0 s' sent
           valid_red H).
Defined.

(** ** Frame of a flush *)

(** C9. A flush changes the stored canvas only at the pixels of the edits
    it applies: a pixel that no applied (that is, not rejected) edit of the
    batch targets has, in the canvas stored by a flush that returns, the
    bytes it had in the canvas the flush loaded; a flush that raises
    leaves the stored canvas as it was. *)
Theorem flush_changes_only_applied_pixels s batch now x y :
  valid_batch batch → in_canvas x y →
  (∀ u, u ∈ applied (world s) batch →
        (PixelUpdate.x u, PixelUpdate.y u) ≠ (x, y)) →
  let '(s', _, res) := process_pixel_batch s batch now in
  match res with
  | Return _ =>
      ∃ bytes, persisted_bitmap (world s') = Some bytes
               ∧ pixel_at bytes x y = pixel_at (loaded_bitmap (world s)) x y
  | Raise _ => persisted_bitmap (world s') = persisted_bitmap (world s)
  end.
Proof.
  intros Hvalid Hin Hne.
  destruct (process_pixel_batch s batch now) as [[s' sent] res] eqn:Hp.
  apply process_pixel_batch_inv in Hp as (_ & _ & _ & _ & Hres); [|done].
  unfold persisted_bitmap. destruct res as [[]|e].
  - destruct Hres as (-> & _). eexists. split; [reflexivity|].
    by apply flushed_frame.
  - by destruct Hres as (-> & _).
Qed.

Lemma flush_changes_only_applied_pixels_witness :
  let '(s', _, res) := process_pixel_batch open_server [red_edit] 0 in
  match res with
  | Return _ =>
      ∃ bytes, persisted_bitmap (world s') = Some bytes
               ∧ pixel_at bytes 75 75
                 = pixel_at (loaded_bitmap (world open_server)) 75 75
  | Raise _ => persisted_bitmap (world s') = persisted_bitmap (world open_server)
  end.
Proof.
  apply (flush_changes_only_applied_pixels open_server [red_edit] 0 75 75).
  - exact valid_red.
  - unfold in_canvas, WIDTH, HEIGHT. lia.
  - intros u Hu%applied_not_locked. destruct Hu as [Hu _].
    apply list_elem_of_singleton in Hu as ->. discriminate.
Defined.

(** ** Lock safety *)



(** ** A failed write *)

(** C6, as the code has it.  When the write of the canvas to the table
    fails during a flush, nothing is broadcast and the stored canvas stays
    as it was; the edits of the batch are dropped: the queue is empty after
    the tick, so the next tick has nothing to retry, and no frame, hence no
    [pixel:reject], is sent for them. *)
Theorem failed_write_drops_the_batch s now :
  valid_batch (pixel_update_queue s) →
  dynamodb.failing (tables (world s)) dynamodb.CanvasPutItem = true →
  let '(s', sent) := batch_pixel_updates s now in
  sent = []
  ∧ pixel_update_queue s' = []
  ∧ persisted_bitmap (world s') = persisted_bitmap (world s)
  ∧ ∀ later, batch_pixel_updates s' later = (s', []).
Proof.
  intros Hvalid Hfail. pose proof (batch_pixel_updates_inv s now Hvalid) as H.
  destruct (batch_pixel_updates s now) as [s' sent].
  destruct H as (Hq & H). destruct (H Hfail) as (-> & Hb & _).
  repeat split; try done.
  intros later. unfold batch_pixel_updates. by rewrite Hq.
Qed.

Lemma failed_write_drops_the_batch_witness :
  let '(s', sent) := batch_pixel_updates failing_server 0 in
  sent = []
  ∧ pixel_update_queue s' = []
  ∧ persisted_bitmap (world s') = persisted_bitmap (world failing_server)
  ∧ ∀ later, batch_pixel_updates s' later = (s', []).
Proof.
  apply (failed_write_drops_the_batch failing_server 0).
  - exact valid_red.
  - reflexivity.
Defined.

(** C6, as stated, fails: the write fails, the batch holds one edit, and
    after the tick the edit is not in the queue and no frame was sent. *)
Lemma failed_batch_is_not_requeued :
  dynamodb.failing (tables (world failing_server)) dynamodb.CanvasPutItem = true
  ∧ pixel_update_queue failing_server = [red_edit]
  ∧ (let '(s', sent) := batch_pixel_updates failing_server 0 in
     (red_edit ∉ pixel_update_queue s') ∧ sent = []).
Proof.
  split; [reflexivity|]. split; [reflexivity|].
  pose proof (batch_pixel_updates_inv failing_server 0 valid_red) as H.
  destruct (batch_pixel_updates failing_server 0) as [s' sent].
  destruct H as (-> & H). split; [apply not_elem_of_nil|].
  by destruct (H eq_refl) as (-> & _).
Qed.

(** ** The frames of the locked-region scenario *)

Lemma locked_world_stored :
  DynamoDBCanvas.add_region_lock fresh_world moderator_lock
  = Return locked_world.
Proof. reflexivity. Qed.

Lemma flushed_nothing_applied w batch :
  applied w batch = [] → flushed_bitmap w batch = loaded_bitmap w.
Proof. unfold flushed_bitmap. by intros ->. Qed.

(** C1 fails on the code: with the lock of the scenario stored, a batch
    made of one edit inside the lock is flushed; the edit is rejected (it is
    not applied, and the hash is that of the untouched canvas), and the
    [pixel:bulk_update] frame lists it all the same. *)
Theorem bulk_update_lists_rejected_edit :
  rejected (world locked_server) [green_edit] = [green_edit]
  ∧ applied (world locked_server) [green_edit] = []
  ∧ ∃ s', process_pixel_batch locked_server [green_edit] 0
          = (s',
             [(1%nat, pixel_bulk_update [(75, 75, "#00FF00"%string)]
                        (SHA256.hexdigest (np.data np.zeros)) 0)],
             Return tt).
Proof.
  split; [reflexivity|]. split; [reflexivity|].
  destruct (process_pixel_batch_returns locked_server [green_edit] 0)
    as (s' & sent & H); [exact valid_green|reflexivity..|].
  exists s'. rewrite H. do 2 f_equal.
  apply process_pixel_batch_inv in H as (_ & _ & _ & _ & Hres);
    [|exact valid_green].
  destruct Hres as (_ & _ & -> & _).
  rewrite flushed_nothing_applied by reflexivity.
  assert (Hr : recipients locked_server = [1%nat]) by (vm_compute; reflexivity).
  rewrite Hr. reflexivity.
Qed.

Lemma batch_pixel_updates_cons s now u batch :
  pixel_update_queue s = u :: batch →
  batch_pixel_updates s now
  = (let '(s', sent, _) := process_pixel_batch (with_queue s []) (u :: batch) now
     in (s', sent)).
Proof. unfold batch_pixel_updates. by intros ->. Qed.

(** C2 fails on the code: in the locked-region scenario the edit at
    [(75, 75)] is inside the lock; the endpoint queues it and writes no
    frame, and the flush writes the client one frame, the
    [pixel:bulk_update] listing the edit: no [pixel:reject] reaches the
    client.  The canvas part of the claim holds: the stored canvas is the
    untouched one. *)
Theorem locked_edit_gets_no_reject :
  locked (world locked_server) 75 75 = true
  ∧ locked_ingress.1.2 = []
  ∧ locked_ingress.2 = true
  ∧ pixel_update_queue locked_ingress.1.1 = [green_edit]
  ∧ locked_flush.2
    = [(1%nat, pixel_bulk_update [(75, 75, "#00FF00"%string)]
                 (SHA256.hexdigest (np.data np.zeros)) (1 # 20))]
  ∧ persisted_bitmap (world locked_flush.1) = Some (np.data np.zeros).
Proof.
  split; [reflexivity|]. split; [reflexivity|]. split; [reflexivity|].
  assert (Hq : pixel_update_queue locked_ingress.1.1 = [green_edit])
    by (vm_compute; reflexivity).
  split; [exact Hq|].
  unfold locked_flush. rewrite (batch_pixel_updates_cons _ _ _ _ Hq).
  set (s1 := with_queue locked_ingress.1.1 []).
  destruct (process_pixel_batch_returns s1 [green_edit] (1 # 20))
    as (s' & sent & H);
    [exact valid_green|vm_compute; reflexivity..|].
  rewrite H. cbn [fst snd].
  apply process_pixel_batch_inv in H as (_ & _ & _ & _ & Hres);
    [|exact valid_green].
  destruct Hres as (Hc & _ & -> & _).
  assert (Ha : applied (world s1) [green_edit] = [])
    by (vm_compute; reflexivity).
  assert (Hl : loaded_bitmap (world s1) = np.data np.zeros).
  { unfold loaded_bitmap.
    assert (Hn : (DynamoDBCanvas.get_canvas_state (world s1)).1 = None)
      by (vm_compute; reflexivity).
    by rewrite Hn. }
  rewrite (flushed_nothing_applied _ _ Ha), Hl in *.
  assert (Hr : recipients s1 = [1%nat]) by (vm_compute; reflexivity).
  rewrite Hr. split; [reflexivity|].
  unfold persisted_bitmap. by rewrite Hc.
Qed.

(** ** A lock stored after the lock list was read *)

(** A pixel just painted holds the bytes of the edit. *)
Lemma pixel_at_painted b u :
  in_canvas (PixelUpdate.x u) (PixelUpdate.y u) →
  Z.of_nat (length b) = np.size →
  pixel_at (paint b u) (PixelUpdate.x u) (PixelUpdate.y u)
  = [Some (written_rgb u).1.1; Some (written_rgb u).1.2;
     Some (written_rgb u).2].
Proof.
  intros [Hx Hy] Hlen. unfold pixel_at, paint, write_rgb.
  rewrite np_size_value in Hlen. unfold WIDTH, HEIGHT in *.
  set (o := np.offset (PixelUpdate.y u) (PixelUpdate.x u)).
  assert (Ho : Z.of_nat o
               = (PixelUpdate.y u * 900 + PixelUpdate.x u) * 3).
  { unfold o, np.offset, WIDTH. rewrite Z2Nat.id; lia. }
  assert (S (S o) < length b)%nat by lia.
  rewrite list_lookup_insert_ne by lia.
  rewrite list_lookup_insert_ne by lia.
  rewrite list_lookup_insert_eq by lia.
  rewrite list_lookup_insert_ne by lia.
  rewrite list_lookup_insert_eq by (rewrite length_insert; lia).
  rewrite list_lookup_insert_eq by (rewrite !length_insert; lia).
  done.
Qed.

Lemma pixel_at_zeros x y :
  in_canvas x y → pixel_at (np.data np.zeros) x y = [Some 0; Some 0; Some 0].
Proof.
  intros [Hx Hy]. unfold pixel_at, np.zeros, np.data.
  rewrite np_size_value. unfold WIDTH, HEIGHT in *.
  set (o := np.offset y x).
  assert (Ho : Z.of_nat o = (y * 900 + x) * 3).
  { unfold o, np.offset, WIDTH. rewrite Z2Nat.id; lia. }
  rewrite !lookup_replicate_2 by lia. done.
Qed.

Lemma valid_blue : valid_batch [blue_edit].
Proof. by repeat constructor. Qed.

(** C5 fails on the code.  The moderation lock is stored, the lock list is
    read once (which leaves it in the cache), and a second lock, covering
    [(250, 250)], is stored: it is in the table, and the lock index still
    answers the cached list, without it.  An edit at [(250, 250)] sent two
    seconds later is queued, and the flush of the next tick applies it: the
    audit log gains the entry of the edit, and the stored canvas holds the
    blue of the edit at a pixel that was black in the canvas the flush
    loaded. *)
Theorem later_lock_is_not_enforced :
  DynamoDBCanvas.add_region_lock listed_world second_lock = Return stale_world
  ∧ dynamodb.locks_table (tables (world stale_server))
      !! DynamoDBCanvas.lock_id 200 200 300 300 = Some second_lock
  ∧ DynamoDBCanvas.covers second_lock 250 250 = true
  ∧ seen_locks (world stale_server) = [moderator_lock]
  ∧ pixel_update_queue stale_ingress.1.1 = [blue_edit]
  ∧ dynamodb.audit_table (tables (world stale_ingress.1.1)) = []
  ∧ pixel_at (loaded_bitmap (world stale_ingress.1.1)) 250 250
    = [Some 0; Some 0; Some 0]
  ∧ dynamodb.audit_table (tables (world stale_flush.1))
    = [audit_entry_of blue_edit (2 + (1 # 20))]
  ∧ ∃ bytes, persisted_bitmap (world stale_flush.1) = Some bytes
             ∧ pixel_at bytes 250 250 = [Some 0; Some 0; Some 255].
Proof.
  split; [reflexivity|]. split; [reflexivity|]. split; [reflexivity|].
  split; [reflexivity|].
  assert (Hq : pixel_update_queue stale_ingress.1.1 = [blue_edit])
    by (vm_compute; reflexivity).
  split; [exact Hq|]. split; [vm_compute; reflexivity|].
  unfold stale_flush. rewrite (batch_pixel_updates_cons _ _ _ _ Hq).
  set (s1 := with_queue stale_ingress.1.1 []).
  assert (Hn : (DynamoDBCanvas.get_canvas_state (world s1)).1 = None)
    by (vm_compute; reflexivity).
  assert (Hl : loaded_bitmap (world s1) = np.data np.zeros)
    by (unfold loaded_bitmap; by rewrite Hn).
  assert (Hin : in_canvas 250 250) by (unfold in_canvas, WIDTH, HEIGHT; lia).
  change (world stale_ingress.1.1) with (world s1). rewrite Hl.
  split; [by apply pixel_at_zeros|].
  destruct (process_pixel_batch_returns s1 [blue_edit] (2 + (1 # 20)))
    as (s' & sent & H);
    [exact valid_blue|exact Hn|vm_compute; reflexivity..|].
  rewrite H. cbn [fst snd].
  apply process_pixel_batch_inv in H
    as (_ & _ & _ & (logged & _ & Haudit & Hlogged) & Hres);
    [|exact valid_blue].
  destruct Hres as (Hc & _ & _ & _).
  assert (Ha : applied (world s1) [blue_edit] = [blue_edit])
    by (vm_compute; reflexivity).
  rewrite (Hlogged eq_refl), Ha in Haudit.
  split; [exact Haudit|].
  unfold persisted_bitmap. rewrite Hc. eexists. split; [reflexivity|].
  unfold flushed_bitmap. rewrite Ha, Hl. cbn [fold_left].
  exact (pixel_at_painted (np.data np.zeros) blue_edit Hin length_zeros).
Qed.

(** ** Invalid payloads *)

(** C3 fails on the code: a [pixel:update] whose [x] is 900 passes the rate
    limits and then fails validation; the endpoint writes no frame, leaves
    its loop and drops the socket from the active connections. *)
Theorem invalid_update_closes_connection :
  new_PixelUpdate invalid_payload (Some "u1") = Raise ValidationError
  ∧ (1%nat ∈ active_connections open_server)
  ∧ (let '(s', sent, reading) :=
       websocket_endpoint open_server 1%nat
         (Message (Some "pixel:update") (Some invalid_payload)) 0 0 in
     sent = [] ∧ reading = false
     ∧ elements (active_connections s') = []
     ∧ pixel_update_queue s' = []).
Proof.
  split; [reflexivity|]. split; [by apply elem_of_union_l, elem_of_singleton|].
  vm_compute. by repeat split.
Qed.

(** ** The window limiter fails open *)

Lemma increment_pixel_count_raises r user_id :
  cache_raises r user_id →
  (RedisCache.increment_pixel_count r user_id RedisRateLimiter.window).1 = 0.
Proof.
  unfold cache_raises, RedisCache.increment_pixel_count.
  destruct (redis.incr r _) as [[r' count]|e]; [|done].
  intros [-> [e ->]]. done.
Qed.

(** C8. When a command the window limiter issues to the cache raises, the
    window limiter admits, whatever the user and the count asked for; the
    verdict of the composite check is then that of the token bucket
    alone. *)
Theorem window_limiter_fails_open r user_id pixel_count :
  cache_raises r user_id →
  (RedisRateLimiter.check_rate_limit r user_id pixel_count).1 = true
  ∧ ∀ self now later,
      (check_pixel_rate_limit (BuildLimiters self r) user_id pixel_count
         now later).1.1
      = (WebSocketRateLimiter.check_rate_limit self user_id pixel_count now).1.
Proof.
  intros Hr.
  assert (Hopen :
    (RedisRateLimiter.check_rate_limit r user_id pixel_count).1 = true).
  { unfold RedisRateLimiter.check_rate_limit.
    pose proof (increment_pixel_count_raises r user_id Hr) as H0.
    destruct (RedisCache.increment_pixel_count _ _ _) as [count r'].
    cbn in *. by subst count. }
  split; [exact Hopen|]. intros self now later.
  unfold check_pixel_rate_limit. cbn [ws_rate_limiter redis_rate_limiter].
  destruct (WebSocketRateLimiter.check_rate_limit self _ _ _) as [[] self'].
  - cbn [negb fst].
    destruct (RedisRateLimiter.check_rate_limit r _ _) as [ok r'].
    cbn in Hopen. by subst ok.
  - cbn [negb fst].
    by destruct (WebSocketRateLimiter.get_remaining_tokens self' _ _).
Qed.

Lemma window_limiter_fails_open_witness :
  cache_raises redis_without_incr (Some "u2")
  ∧ (RedisRateLimiter.check_rate_limit redis_without_incr (Some "u2") 1).1
    = true
  ∧ ∀ self now later,
      (check_pixel_rate_limit (BuildLimiters self redis_without_incr)
         (Some "u2") 1 now later).1.1
      = (WebSocketRateLimiter.check_rate_limit self (Some "u2") 1 now).1.
Proof.
  split; [exact I|].
  apply (window_limiter_fails_open redis_without_incr (Some "u2") 1). exact I.
Defined.

(** The other way for the cache to fail: [INCR] answers and [EXPIRE]
    raises. *)
Example cache_raises_on_expire :
  cache_raises redis_without_expire (Some "u2").
Proof. split; [reflexivity|]. by eexists. Qed.

(** ** The token bucket *)

Local Open Scope Q_scope.

Lemma standard_new_bucket t : standard (WebSocketRateLimiter.new_bucket t).
Proof. by split. Qed.

Lemma refill_bounds b t :
  standard b → TokenBucket.last_refill b <= t → TokenBucket.tokens b <= 20 →
  let b' := WebSocketRateLimiter.refill b t in
  standard b'
  ∧ TokenBucket.last_refill b' = t
  ∧ TokenBucket.tokens b <= TokenBucket.tokens b'
  ∧ TokenBucket.tokens b'
    <= TokenBucket.tokens b + 10 * (t - TokenBucket.last_refill b)
  ∧ TokenBucket.tokens b' <= 20.
Proof.
  intros [Hcap Hrate] Ht Hfull. unfold WebSocketRateLimiter.refill.
  cbn [TokenBucket.capacity TokenBucket.refill_rate TokenBucket.tokens
       TokenBucket.last_refill].
  rewrite Hcap, Hrate. change (inject_Z 20) with 20.
  split; [done|]. split; [done|].
  destruct (Q.min_spec 20
              (TokenBucket.tokens b + (t - TokenBucket.last_refill b) * 10))
    as [[? Hm]|[? Hm]]; rewrite Hm; repeat split; lra.
Qed.

Lemma check_rate_limit_some self user_id n t b :
  self !! user_id = Some b →
  WebSocketRateLimiter.check_rate_limit self user_id n t
  = (let r := WebSocketRateLimiter.refill b t in
     if Qle_bool (inject_Z n) (TokenBucket.tokens r)
     then (true, <[user_id := WebSocketRateLimiter.debit r n]> self)
     else (false, <[user_id := r]> self)).
Proof. unfold WebSocketRateLimiter.check_rate_limit. by intros ->. Qed.

Lemma check_rate_limit_none self user_id n t :
  self !! user_id = None →
  WebSocketRateLimiter.check_rate_limit self user_id n t
  = WebSocketRateLimiter.check_rate_limit
      (<[user_id := WebSocketRateLimiter.new_bucket t]> self) user_id n t.
Proof.
  intros H. rewrite (check_rate_limit_some (<[user_id := _]> self) _ _ _ _
                       (lookup_insert_eq _ _ _)).
  unfold WebSocketRateLimiter.check_rate_limit. rewrite H.
  cbv zeta. by rewrite !insert_insert_eq.
Qed.

Lemma inject_nat_S (r : nat) :
  inject_Z (Z.of_nat (S r)) == inject_Z (Z.of_nat r) + 1.
Proof. rewrite Nat2Z.inj_succ, <- Z.add_1_r, inject_Z_plus. reflexivity. Qed.

(** With [r] whole tokens left and less than one token refilled before the
    window closes, the next [r] checks are admitted and all later ones
    denied. *)
Lemma check_all_burst times : ∀ self user_id b (r : nat) t0,
  self !! user_id = Some b → standard b →
  t0 <= TokenBucket.last_refill b →
  after (TokenBucket.last_refill b) times → within_50ms t0 times →
  inject_Z (Z.of_nat r) <= TokenBucket.tokens b →
  TokenBucket.tokens b
  <= inject_Z (Z.of_nat r) + 10 * (TokenBucket.last_refill b - t0) →
  TokenBucket.tokens b <= 20 →
  (check_all self user_id times).1
  = replicate (r `min` length times) true
    ++ replicate (length times - r) false.
Proof.
  induction times as [|t times IH];
    intros self user_id b r t0 Hb Hstd Ht0 Hafter Hwin Hlo Hhi Hfull.
  { cbn. by rewrite Nat.min_0_r. }
  destruct Hafter as [Ht Hafter]. apply Forall_cons in Hwin as [Htw Hwin].
  cbn [check_all]. rewrite (check_rate_limit_some _ _ _ _ _ Hb). cbv zeta.
  destruct (refill_bounds b t Hstd Ht Hfull) as (Hstd' & Hlast & Hge & Hle & Hcap).
  set (b' := WebSocketRateLimiter.refill b t) in *.
  change (inject_Z 1) with 1.
  destruct (Qle_bool 1 (TokenBucket.tokens b')) eqn:Hadmit.
  - apply Qle_bool_iff in Hadmit.
    destruct r as [|r].
    { change (inject_Z (Z.of_nat 0)) with 0 in *. lra. }
    pose proof (inject_nat_S r) as HS.
    specialize (IH (<[user_id := WebSocketRateLimiter.debit b' 1]> self)
                  user_id (WebSocketRateLimiter.debit b' 1) r t0
                  (lookup_insert_eq _ _ _)).
    destruct (check_all _ user_id times) as [oks self''].
    cbn [fst] in *. rewrite IH; [done|done|..];
      cbn [WebSocketRateLimiter.debit TokenBucket.tokens
           TokenBucket.last_refill]; rewrite ?Hlast;
      change (inject_Z 1) with 1; try done; lra.
  - assert (Hdeny : ¬ 1 <= TokenBucket.tokens b')
      by (rewrite <- Qle_bool_iff; congruence).
    destruct r as [|r].
    2:{ pose proof (inject_nat_S r) as HS.
        assert (0 <= inject_Z (Z.of_nat r)).
        { change 0 with (inject_Z 0). rewrite <- Zle_Qle. lia. }
        lra. }
    change (inject_Z (Z.of_nat 0)) with 0 in *.
    specialize (IH (<[user_id := b']> self) user_id b' 0%nat t0
                  (lookup_insert_eq _ _ _)).
    destruct (check_all _ user_id times) as [oks self''].
    cbn [fst] in *.
    rewrite IH; [cbn; by rewrite Nat.sub_0_r|done|rewrite ?Hlast..];
      change (inject_Z (Z.of_nat 0)) with 0; try done; lra.
Qed.

(** C7. For every user: the bucket is made on the first check, with
    capacity 20, refill 10 per second and 20 tokens; every check of an
    existing bucket puts its tokens to [min(capacity, tokens + elapsed *
    10)], admits exactly when these are at least the [n] asked for, and
    takes [n] away when it admits; so of 25 one-pixel checks of a user
    whose readings are in order and within 50 ms of the first, the first 20
    are admitted and the last 5 denied. *)
Theorem token_bucket_admits_twenty_of_burst self user_id t0 rest :
  self !! user_id = None →
  length rest = 24%nat → after t0 rest → within_50ms t0 rest →
  (∀ n, WebSocketRateLimiter.check_rate_limit self user_id n t0
        = WebSocketRateLimiter.check_rate_limit
            (<[user_id := WebSocketRateLimiter.new_bucket t0]> self)
            user_id n t0)
  ∧ WebSocketRateLimiter.new_bucket t0 = TokenBucket.Build 20 10 20 t0
  ∧ (∀ (self' : gmap (option string) TokenBucket.t) b n t,
       self' !! user_id = Some b → standard b →
       let refilled :=
         Qmin 20 (TokenBucket.tokens b
                  + (t - TokenBucket.last_refill b) * 10) in
       let admitted := Qle_bool (inject_Z n) refilled in
       WebSocketRateLimiter.check_rate_limit self' user_id n t
       = (admitted,
          <[user_id :=
              TokenBucket.Build 20 10
                (if admitted then refilled - inject_Z n else refilled) t]>
            self'))
  ∧ (check_all self user_id (t0 :: rest)).1
    = replicate 20 true ++ replicate 5 false.
Proof.
  intros Hnone Hlen Hafter Hwin.
  split; [intros n; by apply check_rate_limit_none|].
  split; [reflexivity|]. split.
  { intros self' [cap rate tokens last] n t Hb [Hcap Hrate]. cbn in Hcap, Hrate.
    subst cap rate. rewrite (check_rate_limit_some _ _ _ _ _ Hb). cbv zeta.
    unfold WebSocketRateLimiter.refill, WebSocketRateLimiter.debit.
    cbn [TokenBucket.capacity TokenBucket.refill_rate TokenBucket.tokens
         TokenBucket.last_refill].
    change (inject_Z 20) with 20. by destruct (Qle_bool _ _). }
  cbn [check_all].
  rewrite check_rate_limit_none,
    (check_rate_limit_some _ _ _ _ _ (lookup_insert_eq _ _ _)) by done.
  cbv zeta.
  destruct (refill_bounds (WebSocketRateLimiter.new_bucket t0) t0)
    as (Hstd & Hlast & Hge & Hle & Hcap);
    [apply standard_new_bucket|apply Qle_refl|apply Qle_refl|].
  set (b := WebSocketRateLimiter.refill _ t0) in *.
  cbn [WebSocketRateLimiter.new_bucket TokenBucket.tokens
       TokenBucket.last_refill] in Hge, Hle.
  change (inject_Z WebSocketRateLimiter.burst_capacity) with 20 in Hge, Hle.
  change (inject_Z 1) with 1.
  assert (Hadmit : Qle_bool 1 (TokenBucket.tokens b) = true)
    by (apply Qle_bool_iff; lra).
  rewrite Hadmit.
  pose proof (check_all_burst rest
                (<[user_id := WebSocketRateLimiter.debit b 1]>
                   (<[user_id := WebSocketRateLimiter.new_bucket t0]> self))
                user_id (WebSocketRateLimiter.debit b 1) 19 t0
                (lookup_insert_eq _ _ _)) as Hburst.
  destruct (check_all _ user_id rest) as [oks self''].
  cbn [fst] in *. rewrite Hburst, Hlen; [reflexivity|done|..];
    cbn [WebSocketRateLimiter.debit TokenBucket.tokens TokenBucket.last_refill];
    rewrite ?Hlast; change (inject_Z 1) with 1;
    change (inject_Z (Z.of_nat 19)) with 19; try done; lra.
Qed.

Lemma token_bucket_admits_twenty_of_burst_witness :
  (check_all ∅ (Some "u2") (0 :: burst_times)).1
  = replicate 20 true ++ replicate 5 false.
Proof.
  apply (token_bucket_admits_twenty_of_burst ∅ (Some "u2") 0 burst_times).
  - reflexivity.
  - reflexivity.
  - repeat split; unfold Qle; cbn; lia.
  - repeat constructor; unfold Qle; cbn; lia.
Defined.

(** The same burst, evaluated. *)
Example burst_of_25_evaluated :
  (check_all ∅ (Some "u2") (0 :: burst_times)).1
  = [true; true; true; true; true; true; true; true; true; true;
     true; true; true; true; true; true; true; true; true; true;
     false; false; false; false; false].
Proof. vm_compute. reflexivity. Qed.

(** ** Ingress *)

Local Open Scope Z_scope.

Lemma new_PixelUpdate_inv pixel_data user_id u :
  new_PixelUpdate pixel_data user_id = Return u →
  pixel_update_ok u = true ∧ PixelUpdate.user_id u = user_id.
Proof.
  unfold new_PixelUpdate, validate_PixelUpdate, mbind, Result_bind.
  destruct (subscript (Payload.x _)) as [[x|]|]; try done;
    destruct (subscript (Payload.y _)) as [[y|]|]; try done;
    destruct (subscript (Payload.color _)) as [[color|]|]; try done;
    destruct (subscript (Payload.clientTimestamp _)) as [ts|]; try done;
    destruct (fromisoformat ts) as [t|]; try done;
    destruct (dict_get (Payload.tool _) _) as [tool|]; try done;
    destruct (tool_of_string tool); try done;
    destruct (_ && _) eqn:Hok; try done; by intros [= <-].
Qed.

(** What handling a [pixel:update] frame does to the limiters and the
    queue: the composite check is made for the user of the payload, and
    the edit is queued when the check admits and the payload validates. *)
Lemma websocket_endpoint_update s ws pixel_data now later :
  let user_id := dict_get (Payload.userId pixel_data) "anonymous" in
  let s' := (websocket_endpoint s ws
               (Message (Some "pixel:update") (Some pixel_data))
               now later).1.1 in
  let '((ok, _), l) :=
    check_pixel_rate_limit (limiters s) user_id 1 now later in
  limiters s' = l
  ∧ pixel_update_queue s'
    = pixel_update_queue s
      ++ match ok, new_PixelUpdate pixel_data user_id with
         | true, Return update => [update]
         | _, _ => []
         end.
Proof.
  cbv zeta. unfold websocket_endpoint, limiters. rewrite decide_True by done.
  destruct (check_pixel_rate_limit _ _ _ _ _) as [[[] message] [b r]];
    cbn [negb ws_rate_limiter redis_rate_limiter].
  - destruct (new_PixelUpdate _ _); cbn; by rewrite ?app_nil_r.
  - unfold send_text. cbn [gone].
    destruct (decide _); cbn; by rewrite app_nil_r.
Qed.



(** A flush writes no rejection either: its frames are the one
    [pixel:bulk_update], to every socket it reaches. *)
Lemma process_pixel_batch_frames s batch now c m :
  valid_batch batch →
  (c, m) ∈ (process_pixel_batch s batch now).1.2 →
  ∃ hash, m = pixel_bulk_update (wire_pixel <$> batch) hash now.
Proof.
  intros Hvalid.
  destruct (process_pixel_batch s batch now) as [[s' sent] res] eqn:Hp.
  apply process_pixel_batch_inv in Hp as (_ & _ & _ & _ & Hres); [|done].
  cbn [fst snd]. destruct res as [[]|e].
  - destruct Hres as (_ & _ & -> & _).
    intros (c' & [= -> ->] & _)%list_elem_of_fmap. by eexists.
  - destruct Hres as (_ & -> & _). by intros ?%elem_of_nil.
Qed.

(** ** The limiters of one user *)

Lemma check_rate_limit_frame self user_id n t k :
  k ≠ user_id →
  (WebSocketRateLimiter.check_rate_limit self user_id n t).2 !! k = self !! k.
Proof.
  intros Hk. unfold WebSocketRateLimiter.check_rate_limit. cbv zeta.
  destruct (Qle_bool _ _); cbn [snd]; by rewrite lookup_insert_ne.
Qed.

Lemma get_remaining_tokens_frame self user_id t k :
  k ≠ user_id →
  (WebSocketRateLimiter.get_remaining_tokens self user_id t).2 !! k = self !! k.
Proof.
  intros Hk. unfold WebSocketRateLimiter.get_remaining_tokens.
  destruct (self !! user_id); cbn [snd]; [by rewrite lookup_insert_ne|done].
Qed.

Lemma redis_check_rate_limit_frame r user_id n k :
  k ≠ RedisCache.pixel_key user_id →
  redis.keys (RedisRateLimiter.check_rate_limit r user_id n).2 !! k
  = redis.keys r !! k.
Proof.
  intros Hk. unfold RedisRateLimiter.check_rate_limit,
    RedisCache.increment_pixel_count, redis.incr, redis.expire.
  destruct (redis.failing r redis.INCR); [done|].
  destruct (redis.lookup r _) as [[[c|l|m] t]|]; try done; cbn.
  - destruct (m + 1 =? 1); cbn; [|by rewrite lookup_insert_ne].
    destruct (redis.failing r redis.EXPIRE); cbn;
      [by rewrite lookup_insert_ne|].
    destruct (redis.lookup _ _); by rewrite ?lookup_insert_ne.
  - destruct (redis.failing r redis.EXPIRE); cbn;
      [by rewrite lookup_insert_ne|].
    destruct (redis.lookup _ _); by rewrite ?lookup_insert_ne.
Qed.

(** The composite check of a user touches no bucket and no counter of
    another. *)
Lemma check_pixel_rate_limit_frame l user_id n now later :
  let l' := (check_pixel_rate_limit l user_id n now later).2 in
  (∀ k, k ≠ user_id → ws_rate_limiter l' !! k = ws_rate_limiter l !! k)
  ∧ (∀ k, k ≠ RedisCache.pixel_key user_id →
          redis.keys (redis_rate_limiter l') !! k
          = redis.keys (redis_rate_limiter l) !! k).
Proof.
  cbv zeta. unfold check_pixel_rate_limit.
  pose proof (check_rate_limit_frame (ws_rate_limiter l) user_id n now) as H1.
  destruct (WebSocketRateLimiter.check_rate_limit _ _ _ _) as [[] b1];
    cbn [negb snd] in *.
  - pose proof (redis_check_rate_limit_frame (redis_rate_limiter l) user_id n)
      as H2.
    by destruct (RedisRateLimiter.check_rate_limit _ _ _) as [[] r1].
  - pose proof (get_remaining_tokens_frame b1 user_id later) as H2.
    destruct (WebSocketRateLimiter.get_remaining_tokens _ _ _) as [k b2].
    cbn [snd ws_rate_limiter redis_rate_limiter] in *.
    split; [|done]. intros k' Hk. by rewrite H2, H1.
Qed.

Lemma check_each_frame user_id arrivals : ∀ l,
  let l' := (check_each l user_id arrivals).2 in
  (∀ k, k ≠ user_id → ws_rate_limiter l' !! k = ws_rate_limiter l !! k)
  ∧ (∀ k, k ≠ RedisCache.pixel_key user_id →
          redis.keys (redis_rate_limiter l') !! k
          = redis.keys (redis_rate_limiter l) !! k).
Proof.
  induction arrivals as [|a arrivals IH]; intros l; [done|].
  cbv zeta. cbn [check_each].
  pose proof (check_pixel_rate_limit_frame (limiters_at l (Arrival.now a))
                user_id 1 (Arrival.now a) (Arrival.later a)) as [Hb Hr].
  destruct (check_pixel_rate_limit _ _ _ _ _) as [[ok message] l1].
  specialize (IH l1). cbv zeta in IH.
  destruct (check_each l1 user_id arrivals) as [oks l2].
  cbn [snd] in *. destruct IH as [IHb IHr].
  split; intros k Hk.
  - by rewrite IHb, Hb.
  - by rewrite IHr, Hr.
Qed.

(** The arrivals of one user, on whatever sockets, are checked one after
    the other against the limiters of that user, and what they queue is
    what these checks admit. *)
Lemma receive_all_check_each user_id arrivals : ∀ s,
  Forall (λ a, dict_get (Payload.userId (Arrival.pixel_data a)) "anonymous"
               = user_id) arrivals →
  let '(oks, l) := check_each (limiters s) user_id arrivals in
  limiters (receive_all s arrivals) = l
  ∧ pixel_update_queue (receive_all s arrivals)
    = pixel_update_queue s ++ queued user_id arrivals oks.
Proof.
  induction arrivals as [|a arrivals IH]; intros s Hall.
  { cbn. by rewrite app_nil_r. }
  apply Forall_cons in Hall as [Ha Hall]. cbn [receive_all check_each].
  pose proof (websocket_endpoint_update (at_time s (Arrival.now a))
                (Arrival.socket a) (Arrival.pixel_data a) (Arrival.now a)
                (Arrival.later a)) as Hstep.
  cbv zeta in Hstep. rewrite Ha in Hstep.
  change (limiters (at_time s (Arrival.now a)))
    with (limiters_at (limiters s) (Arrival.now a)) in Hstep.
  change (pixel_update_queue (at_time s (Arrival.now a)))
    with (pixel_update_queue s) in Hstep.
  destruct (check_pixel_rate_limit _ _ _ _ _) as [[ok message] l1].
  destruct Hstep as [Hl Hq].
  set (s1 := (websocket_endpoint _ _ _ _ _).1.1) in *.
  specialize (IH s1 Hall). rewrite Hl in IH.
  destruct (check_each l1 user_id arrivals) as [oks l2].
  destruct IH as [IHl IHq]. split; [done|].
  rewrite IHq, Hq, <- app_assoc. f_equal. cbn [queued].
  destruct ok; [|done]. by destruct (new_PixelUpdate _ _).
Qed.

Lemma admitted_cons ok oks :
  admitted (ok :: oks) = ((if ok then 1 else 0) + admitted oks)%nat.
Proof.
  unfold admitted. destruct ok.
  - by rewrite filter_cons_True.
  - by rewrite filter_cons_False.
Qed.

(** Only admitted arrivals are queued, under the user checked. *)
Lemma queued_admitted user_id arrivals : ∀ oks,
  (length (queued user_id arrivals oks) ≤ admitted oks)%nat
  ∧ Forall (λ u, PixelUpdate.user_id u = user_id ∧ pixel_update_ok u = true)
      (queued user_id arrivals oks).
Proof.
  induction arrivals as [|a arrivals IH]; intros oks.
  { split; [cbn; lia|constructor]. }
  destruct oks as [|ok oks]; [split; [cbn; lia|constructor]|].
  cbn [queued]. rewrite admitted_cons. destruct (IH oks) as [IHl IHq].
  destruct ok; [|split; [cbn; lia|done]].
  destruct (new_PixelUpdate _ _) as [u|e] eqn:Hnew; [|split; [cbn; lia|done]].
  apply new_PixelUpdate_inv in Hnew as [Hok Hid].
  split; [cbn; lia|by constructor].
Qed.

Local Open Scope Q_scope.

Lemma bucket_inv_new t0 t now :
  t0 <= t → t <= now →
  bucket_inv t0 now 20 (WebSocketRateLimiter.new_bucket now).
Proof.
  intros H0 H1. unfold bucket_inv.
  cbn [WebSocketRateLimiter.new_bucket TokenBucket.tokens
       TokenBucket.last_refill].
  change (inject_Z WebSocketRateLimiter.burst_capacity) with 20.
  change (inject_Z (Z.of_nat 20)) with 20.
  split; [done|]. repeat split; lra.
Qed.

(** A check admits only if a whole token is left, and uses it up. *)
Lemma check_rate_limit_inv self user_id b (r : nat) t0 t now :
  self !! user_id = Some b → bucket_inv t0 t r b →
  t <= now → now <= t0 + (1 # 20) →
  let '(ok, self1) :=
    WebSocketRateLimiter.check_rate_limit self user_id 1 now in
  ∃ b1, self1 !! user_id = Some b1
        ∧ if ok then ∃ r', r = S r' ∧ bucket_inv t0 now r' b1
          else bucket_inv t0 now r b1.
Proof.
  intros Hb (Hstd & Hlo & Hhi & Htok & Hfull) Ht Hw.
  rewrite (check_rate_limit_some _ _ _ _ _ Hb). cbv zeta.
  destruct (refill_bounds b now Hstd) as (Hstd' & Hlast & Hge & Hle & Hcap);
    [lra|done|].
  set (b' := WebSocketRateLimiter.refill b now) in *.
  change (inject_Z 1) with 1.
  destruct (Qle_bool 1 (TokenBucket.tokens b')) eqn:Hadmit.
  - apply Qle_bool_iff in Hadmit. eexists. split; [apply lookup_insert_eq|].
    destruct r as [|r].
    { change (inject_Z (Z.of_nat 0)) with 0 in *. lra. }
    exists r. split; [done|]. pose proof (inject_nat_S r) as HS.
    unfold bucket_inv.
    cbn [WebSocketRateLimiter.debit TokenBucket.tokens TokenBucket.last_refill].
    rewrite Hlast. change (inject_Z 1) with 1.
    split; [exact Hstd'|]. repeat split; lra.
  - eexists. split; [apply lookup_insert_eq|].
    unfold bucket_inv. rewrite Hlast.
    split; [exact Hstd'|]. repeat split; lra.
Qed.

Lemma get_remaining_tokens_inv self user_id b (r : nat) t0 now later :
  self !! user_id = Some b → bucket_inv t0 now r b → now <= later →
  ∃ b2, (WebSocketRateLimiter.get_remaining_tokens self user_id later).2
        !! user_id = Some b2
        ∧ bucket_inv t0 later r b2.
Proof.
  intros Hb (Hstd & Hlo & Hhi & Htok & Hfull) Ht.
  unfold WebSocketRateLimiter.get_remaining_tokens. rewrite Hb. cbn [snd].
  destruct (refill_bounds b later Hstd) as (Hstd' & Hlast & Hge & Hle & Hcap);
    [lra|done|].
  eexists. split; [apply lookup_insert_eq|].
  unfold bucket_inv. rewrite Hlast.
  split; [exact Hstd'|]. repeat split; lra.
Qed.

Lemma bucket_inv_later t0 t t' r b :
  bucket_inv t0 t r b → t <= t' → bucket_inv t0 t' r b.
Proof. intros (? & ? & ? & ? & ?) ?. split; [done|]. repeat split; lra. Qed.

(** Within the window, the checks of one user admit at most as many
    arrivals as whole tokens are left in the user's bucket. *)
Lemma check_each_burst user_id arrivals : ∀ l (r : nat) t0 t,
  match ws_rate_limiter l !! user_id with
  | Some b => bucket_inv t0 t r b
  | None => r = 20%nat ∧ t0 <= t
  end →
  after t (readings arrivals) → within_50ms t0 (readings arrivals) →
  (admitted (check_each l user_id arrivals).1 ≤ r)%nat.
Proof.
  induction arrivals as [|a arrivals IH]; intros l r t0 t Hb Hafter Hwin.
  { cbn. lia. }
  cbn in Hafter. destruct Hafter as (Hnow & Hlater & Hafter).
  cbn in Hwin. apply Forall_cons in Hwin as [Hwnow Hwin].
  apply Forall_cons in Hwin as [Hwlater Hwin].
  cbn [check_each]. unfold check_pixel_rate_limit.
  cbn [limiters_at ws_rate_limiter redis_rate_limiter].
  assert (Hcheck :
    let '(ok, self1) :=
      WebSocketRateLimiter.check_rate_limit (ws_rate_limiter l) user_id 1
        (Arrival.now a) in
    ∃ b1, self1 !! user_id = Some b1
          ∧ if ok then ∃ r', r = S r' ∧ bucket_inv t0 (Arrival.now a) r' b1
            else bucket_inv t0 (Arrival.now a) r b1).
  { destruct (ws_rate_limiter l !! user_id) as [b|] eqn:Hsome.
    - by apply (check_rate_limit_inv _ _ b r t0 t).
    - destruct Hb as [-> Ht0]. rewrite check_rate_limit_none by done.
      apply (check_rate_limit_inv _ _ (WebSocketRateLimiter.new_bucket
                                         (Arrival.now a))
               20 t0 (Arrival.now a));
        [apply lookup_insert_eq|by apply (bucket_inv_new t0 t)|lra|done]. }
  destruct (WebSocketRateLimiter.check_rate_limit _ _ _ _) as [[] b1];
    cbn [negb].
  - destruct Hcheck as (b1' & Hb1 & r' & -> & Hinv).
    assert (Hrest : ∀ r1,
      (admitted (check_each (BuildLimiters b1 r1) user_id arrivals).1 ≤ r')%nat).
    { intros r1. apply (IH _ r' t0 (Arrival.later a)); [|done..].
      cbn [ws_rate_limiter]. rewrite Hb1. by eapply bucket_inv_later. }
    destruct (RedisRateLimiter.check_rate_limit _ _ _) as [[] r1]; cbn [negb];
      specialize (Hrest r1);
      destruct (check_each _ user_id arrivals) as [oks l2];
      cbn [fst] in *; rewrite admitted_cons; lia.
  - destruct Hcheck as (b1' & Hb1 & Hinv).
    destruct (get_remaining_tokens_inv b1 user_id b1' r t0 (Arrival.now a)
                (Arrival.later a) Hb1 Hinv Hlater) as (b2 & Hb2 & Hinv2).
    destruct (WebSocketRateLimiter.get_remaining_tokens b1 _ _) as [k b2'].
    cbn [snd] in Hb2.
    specialize (IH (BuildLimiters b2' (redis.at_time (redis_rate_limiter l)
                                         (Arrival.now a)))
                  r t0 (Arrival.later a)).
    cbn [ws_rate_limiter] in IH. rewrite Hb2 in IH.
    specialize (IH Hinv2 Hafter Hwin).
    destruct (check_each _ user_id arrivals) as [oks l2].
    cbn [fst] in *. rewrite admitted_cons. lia.
Qed.

Lemma expired_iff now e t :
  redis.expires_at e = Some t →
  redis.expired now e = true ↔ t < now.
Proof.
  unfold redis.expired. intros ->. rewrite negb_true_iff.
  rewrite <- not_true_iff_false, Qle_bool_iff. split; [apply Qnot_le_lt|].
  intros ? ?. lra.
Qed.

Lemma expired_true now v t :
  t < now → redis.expired now (redis.BuildEntry v (Some t)) = true.
Proof. intros H. by apply (expired_iff now _ t). Qed.

Lemma expired_false now v t :
  now <= t → redis.expired now (redis.BuildEntry v (Some t)) = false.
Proof.
  intros H. apply not_true_iff_false. rewrite (expired_iff now _ t) by done. lra.
Qed.

Local Open Scope Z_scope.

(** The first increment of a counter answers 1 and gives the counter its
    time to live. *)
Lemma increment_pixel_count_first r user_id window :
  redis.lookup r (RedisCache.pixel_key user_id) = None →
  redis.failing r redis.INCR = false →
  redis.failing r redis.EXPIRE = false →
  RedisCache.increment_pixel_count r user_id window
  = (1, {| redis.keys :=
             <[RedisCache.pixel_key user_id :=
                 redis.BuildEntry (redis.Int 1)
                   (Some (redis.time r + inject_Z window)%Q)]> (redis.keys r);
           redis.time := redis.time r;
           redis.failing := redis.failing r |}).
Proof.
  intros Hnone Hincr Hexpire.
  unfold RedisCache.increment_pixel_count, redis.incr. rewrite Hincr, Hnone.
  cbn. unfold redis.expire, redis.lookup.
  cbn [redis.keys redis.time redis.failing]. rewrite Hexpire.
  rewrite lookup_insert_eq. cbn. by rewrite insert_insert_eq.
Qed.

(** A later increment answers the count and leaves the time to live. *)
Lemma increment_pixel_count_next r user_id window n t :
  redis.lookup r (RedisCache.pixel_key user_id)
  = Some (redis.BuildEntry (redis.Int n) t) →
  0 < n →
  redis.failing r redis.INCR = false →
  RedisCache.increment_pixel_count r user_id window
  = (n + 1, {| redis.keys :=
                 <[RedisCache.pixel_key user_id :=
                     redis.BuildEntry (redis.Int (n + 1)) t]> (redis.keys r);
               redis.time := redis.time r;
               redis.failing := redis.failing r |}).
Proof.
  intros Hsome Hn Hincr.
  unfold RedisCache.increment_pixel_count, redis.incr. rewrite Hincr, Hsome.
  replace (n + 1 =? 1) with false by (symmetry; apply Z.eqb_neq; lia).
  done.
Qed.

(** Within one window, while Redis answers, every check of the window
    limiter counts one more, and admits while the count is at most 100. *)
Lemma redis_check_rate_limit_window r user_id t0 t1 now :
  one_window r user_id t0 t1 → (t0 <= now)%Q → (now <= t1)%Q →
  let '(ok, r') :=
    RedisRateLimiter.check_rate_limit (redis.at_time r now) user_id 1 in
  one_window r' user_id t0 t1
  ∧ pixel_count (redis.at_time r' t0) user_id
    = pixel_count (redis.at_time r t0) user_id + 1
  ∧ ok = (pixel_count (redis.at_time r t0) user_id + 1
          <=? RedisRateLimiter.max_pixels).
Proof.
  intros (Hincr & Hexpire & Hkey) H0 H1.
  unfold RedisRateLimiter.check_rate_limit.
  assert (Hfirst :
    redis.lookup (redis.at_time r now) (RedisCache.pixel_key user_id) = None →
    redis.lookup (redis.at_time r t0) (RedisCache.pixel_key user_id) = None →
    (t1 <= t0 + 60)%Q →
    let '(ok, r') :=
      let '(current_count, r') :=
        RedisCache.increment_pixel_count (redis.at_time r now) user_id
          RedisRateLimiter.window in
      (current_count <=? RedisRateLimiter.max_pixels, r') in
    one_window r' user_id t0 t1
    ∧ pixel_count (redis.at_time r' t0) user_id
      = pixel_count (redis.at_time r t0) user_id + 1
    ∧ ok = (pixel_count (redis.at_time r t0) user_id + 1
            <=? RedisRateLimiter.max_pixels)).
  { intros Hnow Hthen Ht1.
    rewrite increment_pixel_count_first by done.
    unfold one_window, pixel_count. rewrite Hthen.
    unfold redis.lookup. cbn [redis.at_time redis.keys redis.time redis.failing].
    rewrite lookup_insert_eq.
    change (inject_Z RedisRateLimiter.window) with 60%Q.
    rewrite expired_false by lra.
    repeat split; try done. right. split; [lra|]. by exists 1. }
  assert (Hnext : ∀ n t,
    redis.keys r !! RedisCache.pixel_key user_id
    = Some (redis.BuildEntry (redis.Int n) t) →
    0 < n →
    match t with Some t => (t1 <= t)%Q | None => True end →
    let '(ok, r') :=
      let '(current_count, r') :=
        RedisCache.increment_pixel_count (redis.at_time r now) user_id
          RedisRateLimiter.window in
      (current_count <=? RedisRateLimiter.max_pixels, r') in
    one_window r' user_id t0 t1
    ∧ pixel_count (redis.at_time r' t0) user_id
      = pixel_count (redis.at_time r t0) user_id + 1
    ∧ ok = (pixel_count (redis.at_time r t0) user_id + 1
            <=? RedisRateLimiter.max_pixels)).
  { intros n t Hlook Hn Ht.
    assert (Hlive : ∀ now', (t0 <= now')%Q → (now' <= t1)%Q →
              redis.expired now' (redis.BuildEntry (redis.Int n) t) = false).
    { intros now' ? ?. destruct t as [t|]; [|done]. apply expired_false. lra. }
    rewrite (increment_pixel_count_next _ _ _ n t); [|
      unfold redis.lookup; cbn [redis.at_time redis.keys redis.time];
      by rewrite Hlook, Hlive|done..].
    unfold one_window, pixel_count, redis.lookup.
    cbn [redis.at_time redis.keys redis.time redis.failing].
    rewrite lookup_insert_eq, Hlook.
    assert (Hl0 : ∀ m, redis.expired t0 (redis.BuildEntry (redis.Int m) t)
                       = false).
    { intros m. destruct t as [t|]; [|done]. apply expired_false. lra. }
    rewrite !Hl0. repeat split; try done.
    destruct t as [t|]; [right; split; [done|]|]; exists (n + 1);
      (split; [done|lia]). }
  destruct (redis.keys r !! RedisCache.pixel_key user_id)
    as [[v [t|]]|] eqn:Hlook.
  - destruct Hkey as [[Hdead Ht1]|[Hlive (n & -> & Hn)]].
    + apply Hfirst; [..|done]; unfold redis.lookup;
        cbn [redis.at_time redis.keys redis.time];
        rewrite Hlook, expired_true; [done|lra|done|lra].
    + by apply (Hnext n (Some t)).
  - destruct Hkey as (n & -> & Hn). by apply (Hnext n None).
  - apply Hfirst; [..|done]; unfold redis.lookup;
      cbn [redis.at_time redis.keys redis.time]; by rewrite Hlook.
Qed.

Lemma one_window_at_time r user_id t0 t1 t :
  one_window (redis.at_time r t) user_id t0 t1 ↔ one_window r user_id t0 t1.
Proof. done. Qed.

(** What the checks admit, the quota of the counter loses. *)
Lemma check_each_window user_id arrivals : ∀ l t0 t1,
  one_window (redis_rate_limiter l) user_id t0 t1 →
  between t0 t1 arrivals →
  let '(oks, l') := check_each l user_id arrivals in
  Z.of_nat (admitted oks)
  + quota (redis.at_time (redis_rate_limiter l') t0) user_id
  <= quota (redis.at_time (redis_rate_limiter l) t0) user_id.
Proof.
  induction arrivals as [|a arrivals IH]; intros l t0 t1 Hwin Hbetween.
  { cbn. lia. }
  apply Forall_cons in Hbetween as [[H0 H1] Hbetween].
  cbn [check_each]. unfold check_pixel_rate_limit.
  cbn [limiters_at ws_rate_limiter redis_rate_limiter].
  destruct (WebSocketRateLimiter.check_rate_limit _ _ _ _) as [[] b1];
    cbn [negb].
  - pose proof (redis_check_rate_limit_window _ _ _ _ _ Hwin H0 H1) as Hredis.
    destruct (RedisRateLimiter.check_rate_limit _ _ _) as [ok r1].
    destruct Hredis as (Hwin1 & Hinc & Hok).
    assert (Hrest :
      let '(oks, l') := check_each (BuildLimiters b1 r1) user_id arrivals in
      Z.of_nat (admitted oks)
      + quota (redis.at_time (redis_rate_limiter l') t0) user_id
      <= quota (redis.at_time r1 t0) user_id)
      by exact (IH (BuildLimiters b1 r1) t0 t1 Hwin1 Hbetween).
    unfold quota in *. rewrite Hinc in Hrest.
    destruct ok; cbn [negb];
      destruct (check_each _ user_id arrivals) as [oks l2];
      rewrite admitted_cons.
    + symmetry in Hok. apply Z.leb_le in Hok.
      unfold RedisRateLimiter.max_pixels in *. lia.
    + lia.
  - destruct (WebSocketRateLimiter.get_remaining_tokens b1 _ _) as [k b2].
    specialize (IH (BuildLimiters b2 (redis.at_time (redis_rate_limiter l)
                                        (Arrival.now a))) t0 t1 Hwin Hbetween).
    destruct (check_each _ user_id arrivals) as [oks l2].
    rewrite admitted_cons. cbn [redis_rate_limiter] in *.
    change (redis.at_time (redis.at_time (redis_rate_limiter l) (Arrival.now a))
              t0) with (redis.at_time (redis_rate_limiter l) t0) in IH.
    lia.
Qed.

Lemma quota_bounds r user_id t0 t1 :
  one_window r user_id t0 t1 →
  0 <= quota (redis.at_time r t0) user_id <= 100.
Proof.
  unfold one_window, quota, pixel_count, RedisRateLimiter.max_pixels,
    redis.lookup.
  cbn [redis.at_time redis.keys redis.time].
  intros (_ & _ & Hkey).
  destruct (redis.keys r !! _) as [[v [t|]]|]; [| |lia].
  - destruct Hkey as [[Hdead _]|[_ (n & -> & Hn)]].
    + rewrite expired_true by done. lia.
    + destruct (redis.expired _ _); lia.
  - destruct Hkey as (n & -> & Hn). cbn. lia.
Qed.

(** ** Anonymous clients *)

(** C10. Every [pixel:update] whose payload has no [userId] is handled
    under the user id ["anonymous"], whatever socket it arrives on.  The
    arrivals of all such clients are checked, one after the other, against
    the one token bucket and the one minute counter of ["anonymous"]: the
    limiters after them are those that these checks leave (each admitted
    check has taken its token and counted one more), and the queue has
    gained, in order, the edits of the arrivals that these checks admit and
    whose payload validates, each attributed to ["anonymous"].  No other
    bucket and no other counter is touched.  So the clients together are
    bounded by the limits of that one user: the checks admit at most 20
    arrivals when the clock readings are in order and within 50 ms and the
    bucket is new, and at most what is left of the 100 of the minute
    counter within one window of it, while Redis answers. *)
Theorem anonymous_clients_share_one_allowance s arrivals :
  Forall anonymous arrivals →
  let '(oks, l) := check_each (limiters s) (Some "anonymous"%string) arrivals in
  let new := queued (Some "anonymous"%string) arrivals oks in
  let s' := receive_all s arrivals in
  limiters s' = l
  ∧ pixel_update_queue s' = pixel_update_queue s ++ new
  ∧ Forall (λ u, PixelUpdate.user_id u = Some "anonymous"%string) new
  ∧ (length new ≤ admitted oks)%nat
  ∧ (∀ k, k ≠ Some "anonymous"%string → buckets s' !! k = buckets s !! k)
  ∧ (∀ k, k ≠ RedisCache.pixel_key (Some "anonymous"%string) →
          redis.keys (redis_client (world s')) !! k
          = redis.keys (redis_client (world s)) !! k)
  ∧ (∀ t0, buckets s !! Some "anonymous"%string = None →
           after t0 (readings arrivals) →
           within_50ms t0 (readings arrivals) →
           (admitted oks ≤ 20)%nat)
  ∧ (∀ t0 t1,
       one_window (redis_client (world s)) (Some "anonymous"%string) t0 t1 →
       between t0 t1 arrivals →
       let left := quota (redis.at_time (redis_client (world s)) t0)
                     (Some "anonymous"%string) in
       Z.of_nat (admitted oks) <= left ∧ left <= 100).
Proof.
  intros Hanon.
  pose proof (receive_all_check_each (Some "anonymous"%string) arrivals s)
    as Hrun.
  pose proof (check_each_frame (Some "anonymous"%string) arrivals (limiters s))
    as Hframe.
  pose proof (check_each_burst (Some "anonymous"%string) arrivals (limiters s))
    as Hburst.
  pose proof (check_each_window (Some "anonymous"%string) arrivals (limiters s))
    as Hwindow.
  destruct (check_each _ _ arrivals) as [oks l]. cbv zeta. cbn [fst snd] in *.
  destruct Hrun as [Hl Hq].
  { eapply Forall_impl; [exact Hanon|]. intros a Ha. unfold anonymous in Ha.
    by rewrite Ha. }
  destruct (queued_admitted (Some "anonymous"%string) arrivals oks)
    as [Hlen Hnew].
  destruct Hframe as [Hb Hr].
  split; [done|]. split; [done|].
  split; [eapply Forall_impl; [exact Hnew|]; by intros u [? _]|].
  split; [done|].
  split; [intros k Hk; specialize (Hb k Hk); by rewrite <- Hl in Hb|].
  split; [intros k Hk; specialize (Hr k Hk); by rewrite <- Hl in Hr|].
  split.
  - intros t0 Hnone Hafter Hwin. apply (Hburst 20%nat t0 t0); [|done..].
    cbn [limiters ws_rate_limiter]. rewrite Hnone. split; [done|apply Qle_refl].
  - intros t0 t1 Hone Hbetween.
    specialize (Hwindow t0 t1 Hone Hbetween).
    pose proof (quota_bounds _ _ _ _ Hone) as Hbounds.
    cbn [limiters redis_rate_limiter] in Hwindow.
    assert (0 <= quota (redis.at_time (redis_rate_limiter l) t0)
                   (Some "anonymous"%string)) by (unfold quota; lia).
    lia.
Qed.

Lemma anonymous_burst_is_anonymous : Forall anonymous anonymous_burst.
Proof. by repeat constructor. Qed.

Lemma anonymous_clients_share_one_allowance_witness :
  let '(oks, l) :=
    check_each (limiters fresh_server) (Some "anonymous"%string)
      anonymous_burst in
  let new := queued (Some "anonymous"%string) anonymous_burst oks in
  let s' := receive_all fresh_server anonymous_burst in
  limiters s' = l
  ∧ pixel_update_queue s' = pixel_update_queue fresh_server ++ new
  ∧ Forall (λ u, PixelUpdate.user_id u = Some "anonymous"%string) new
  ∧ (length new ≤ admitted oks)%nat
  ∧ (∀ k, k ≠ Some "anonymous"%string →
          buckets s' !! k = buckets fresh_server !! k)
  ∧ (∀ k, k ≠ RedisCache.pixel_key (Some "anonymous"%string) →
          redis.keys (redis_client (world s')) !! k
          = redis.keys (redis_client (world fresh_server)) !! k)
  ∧ (∀ t0, buckets fresh_server !! Some "anonymous"%string = None →
           after t0 (readings anonymous_burst) →
           within_50ms t0 (readings anonymous_burst) →
           (admitted oks ≤ 20)%nat)
  ∧ (∀ t0 t1,
       one_window (redis_client (world fresh_server))
         (Some "anonymous"%string) t0 t1 →
       between t0 t1 anonymous_burst →
       let left := quota (redis.at_time (redis_client (world fresh_server)) t0)
                     (Some "anonymous"%string) in
       Z.of_nat (admitted oks) <= left ∧ left <= 100).
Proof.
  apply (anonymous_clients_share_one_allowance fresh_server anonymous_burst).
  exact anonymous_burst_is_anonymous.
Defined.

(** The burst of the two sockets, evaluated: the first 20 arrivals are
    admitted and queued, all of them under ["anonymous"], and the bucket
    and the counter of ["anonymous"] are the only ones there are. *)
Example anonymous_burst_evaluated :
  (check_each (limiters fresh_server) (Some "anonymous"%string)
     anonymous_burst).1
  = replicate 20 true ++ replicate 5 false
  ∧ (PixelUpdate.user_id <$> pixel_update_queue
                               (receive_all fresh_server anonymous_burst))
    = replicate 20 (Some "anonymous"%string)
  ∧ dom (buckets (receive_all fresh_server anonymous_burst))
    = {[Some "anonymous"%string]}
  ∧ pixel_count (redis_client (world (receive_all fresh_server anonymous_burst)))
      (Some "anonymous"%string) = 20
  ∧ after 0 (readings anonymous_burst)
  ∧ within_50ms 0 (readings anonymous_burst)
  ∧ one_window (redis_client (world fresh_server)) (Some "anonymous"%string)
      0 60
  ∧ between 0 60 anonymous_burst.
Proof.
  split; [vm_compute; reflexivity|].
  split; [vm_compute; reflexivity|].
  split; [vm_compute; reflexivity|].
  split; [vm_compute; reflexivity|].
  split; [repeat split; unfold Qle; cbn; lia|].
  split; [repeat constructor; unfold Qle; cbn; lia|].
  split; [split; [reflexivity|]; split; [reflexivity|];
          vm_compute; discriminate|].
  repeat constructor; unfold Qle; cbn; lia.
Qed.

(** * Further properties *)

Local Open Scope Z_scope.

(** ** The counter at one reading of the clock *)

Lemma lookup_live r k v t :
  redis.lookup r k = Some (redis.BuildEntry v t) →
  redis.keys r !! k = Some (redis.BuildEntry v t)
  ∧ ∀ v', redis.expired (redis.time r) (redis.BuildEntry v' t) = false.
Proof.
  unfold redis.lookup. destruct (redis.keys r !! k) as [e|]; [|done].
  destruct (redis.expired _ e) eqn:He; [done|]. intros [= ->]. done.
Qed.

(** While Redis answers, every check of the window limiter counts one
    more, and admits while the count is at most 100. *)
Lemma redis_check_rate_limit_counting r user_id :
  counting r user_id →
  let '(ok, r') := RedisRateLimiter.check_rate_limit r user_id 1 in
  counting r' user_id
  ∧ pixel_count r' user_id = pixel_count r user_id + 1
  ∧ ok = (pixel_count r user_id + 1 <=? RedisRateLimiter.max_pixels).
Proof.
  unfold counting, pixel_count, RedisRateLimiter.check_rate_limit.
  intros (Hincr & Hexpire & Hkey).
  destruct (redis.lookup r _) as [[[c|l|n] t]|] eqn:Hlook; try done.
  - apply lookup_live in Hlook as [Hk Hlive].
    unfold RedisCache.increment_pixel_count, redis.incr, redis.expire,
      redis.lookup.
    rewrite Hincr, Hk, Hlive.
    destruct (n + 1 =? 1) eqn:Hone;
      cbn [redis.keys redis.time redis.failing];
      rewrite ?Hexpire, ?lookup_insert_eq, ?Hlive;
      cbn [redis.keys redis.time redis.failing redis.value];
      rewrite ?lookup_insert_eq, ?Hlive, ?not_expired_yet by done;
      repeat split; try done; lia.
  - rewrite increment_pixel_count_first by done.
    unfold redis.lookup. cbn [redis.keys redis.time redis.failing].
    rewrite lookup_insert_eq, not_expired_yet by done. by repeat split.
Qed.

(** ** What ingress leaves alone *)

Lemma standard_refill b t : standard b → standard (WebSocketRateLimiter.refill b t).
Proof. by intros []. Qed.

Lemma standard_check_rate_limit self user_id n t :
  (∀ k b, self !! k = Some b → standard b) →
  ∀ k b, (WebSocketRateLimiter.check_rate_limit self user_id n t).2 !! k
         = Some b → standard b.
Proof.
  intros Hall k b. unfold WebSocketRateLimiter.check_rate_limit. cbv zeta.
  assert (Hstd : standard (WebSocketRateLimiter.refill
                             match self !! user_id with
                             | Some bucket => bucket
                             | None => WebSocketRateLimiter.new_bucket t
                             end t)).
  { apply standard_refill. destruct (self !! user_id) eqn:Hb; [by eapply Hall|].
    apply standard_new_bucket. }
  destruct (Qle_bool _ _); cbn [snd]; rewrite lookup_insert;
    case_decide; [|by apply Hall| |by apply Hall]; by intros [= <-].
Qed.

Lemma standard_get_remaining_tokens self user_id t :
  (∀ k b, self !! k = Some b → standard b) →
  ∀ k b, (WebSocketRateLimiter.get_remaining_tokens self user_id t).2 !! k
         = Some b → standard b.
Proof.
  intros Hall k b. unfold WebSocketRateLimiter.get_remaining_tokens.
  destruct (self !! user_id) as [b0|] eqn:Hb; cbn [snd]; [|by apply Hall].
  rewrite lookup_insert. case_decide; [|by apply Hall].
  intros [= <-]. apply standard_refill. by eapply Hall.
Qed.

(** The limiters after a turn of the endpoint are those of the composite
    check, if the frame is a [pixel:update] with a payload, and untouched
    otherwise. *)
Lemma websocket_endpoint_limiters s ws frame now later :
  let s' := (websocket_endpoint s ws frame now later).1.1 in
  (buckets s' = buckets s
   ∧ redis_client (world s') = redis_client (world s))
  ∨ ∃ pixel_data,
      frame = Message (Some "pixel:update"%string) (Some pixel_data)
      ∧ let l := (check_pixel_rate_limit
                    (limiters s)
                    (dict_get (Payload.userId pixel_data) "anonymous"%string)
                    1 now later).2 in
        buckets s' = ws_rate_limiter l
        ∧ redis_client (world s') = redis_rate_limiter l.
Proof.
  cbv zeta. unfold websocket_endpoint.
  destruct frame as [| |type data]; [by left..|].
  destruct (decide (type = Some "pixel:update"%string)) as [->|].
  - destruct data as [pixel_data|]; [|by left]. right. exists pixel_data.
    split; [done|].
    destruct (check_pixel_rate_limit _ _ _ _ _) as [[allowed message] l].
    cbn [snd]. destruct allowed; cbn [negb].
    + by destruct (new_PixelUpdate _ _).
    + unfold send_text. cbn [gone]. by destruct (decide _).
  - destruct (decide (type = Some "heartbeat"%string)); [|by left].
    unfold send_text. by destruct (decide _); left.
Qed.

(** A turn of the endpoint appends at most one edit to the queue, the one
    the payload validates to. *)
Lemma websocket_endpoint_queue s ws frame now later :
  let s' := (websocket_endpoint s ws frame now later).1.1 in
  pixel_update_queue s' = pixel_update_queue s
  ∨ ∃ pixel_data u,
      frame = Message (Some "pixel:update"%string) (Some pixel_data)
      ∧ new_PixelUpdate pixel_data
          (dict_get (Payload.userId pixel_data) "anonymous"%string) = Return u
      ∧ pixel_update_queue s' = pixel_update_queue s ++ [u].
Proof.
  cbv zeta. unfold websocket_endpoint.
  destruct frame as [| |type data]; [by left..|].
  destruct (decide (type = Some "pixel:update"%string)) as [->|].
  - destruct data as [pixel_data|]; [|by left].
    destruct (check_pixel_rate_limit _ _ _ _ _) as [[allowed message] l].
    destruct allowed; cbn [negb].
    + destruct (new_PixelUpdate _ _) as [u|e] eqn:Hnew; [|by left].
      right. by exists pixel_data, u.
    + unfold send_text. cbn [gone]. by destruct (decide _); left.
  - destruct (decide (type = Some "heartbeat"%string)); [|by left].
    unfold send_text. by destruct (decide _); left.
Qed.

(** A turn of the endpoint does not touch the tables, nor the set of
    sockets that are gone, and takes at most its own socket out of the
    active connections. *)
Lemma websocket_endpoint_rest s ws frame now later :
  let s' := (websocket_endpoint s ws frame now later).1.1 in
  tables (world s') = tables (world s)
  ∧ gone s' = gone s
  ∧ (active_connections s' = active_connections s
     ∨ active_connections s' = active_connections s ∖ {[ws]}).
Proof.
  cbv zeta. unfold websocket_endpoint.
  destruct frame as [| |type data]; [by repeat split; try right..|].
  destruct (decide (type = Some "pixel:update"%string)) as [->|].
  - destruct data as [pixel_data|]; [|by repeat split; try right].
    destruct (check_pixel_rate_limit _ _ _ _ _) as [[allowed message] l].
    destruct allowed; cbn [negb].
    + destruct (new_PixelUpdate _ _);
        repeat split; try done; by (left + right).
    + unfold send_text. cbn [gone].
      destruct (decide _); repeat split; try done; by (left + right).
  - destruct (decide (type = Some "heartbeat"%string));
      [|by repeat split; try left].
    unfold send_text.
    destruct (decide _); repeat split; try done; by (left + right).
Qed.

Lemma standard_check_pixel_rate_limit l user_id n now later :
  (∀ k b, ws_rate_limiter l !! k = Some b → standard b) →
  ∀ k b, ws_rate_limiter (check_pixel_rate_limit l user_id n now later).2 !! k
         = Some b → standard b.
Proof.
  intros Hall. unfold check_pixel_rate_limit.
  pose proof (standard_check_rate_limit _ user_id n now Hall) as H1.
  destruct (WebSocketRateLimiter.check_rate_limit _ _ _ _) as [[] b1];
    cbn [negb snd] in *.
  - destruct (RedisRateLimiter.check_rate_limit _ _ _) as [[] r]; by cbn.
  - pose proof (standard_get_remaining_tokens _ user_id later H1) as H2.
    by destruct (WebSocketRateLimiter.get_remaining_tokens _ _ _).
Qed.

Lemma batch_pixel_updates_limiter s now :
  valid_batch (pixel_update_queue s) →
  buckets (batch_pixel_updates s now).1 = buckets s
  ∧ pixel_update_queue (batch_pixel_updates s now).1 = [].
Proof.
  intros Hvalid. unfold batch_pixel_updates.
  destruct (pixel_update_queue s) as [|u batch] eqn:Hq; [done|].
  destruct (process_pixel_batch _ _ _) as [[s' sent] res] eqn:Hp.
  apply process_pixel_batch_inv in Hp as (Hb & Hq' & _); [|done].
  cbn [fst]. by rewrite Hb, Hq'.
Qed.

Lemma step_well_formed s e : well_formed s → well_formed (step s e).
Proof.
  intros (Hvalid & Hstd).
  destruct e as [ws|ws frame now later|now|lock|x1 y1 x2 y2|ws|change];
    cbn [step]; try done.
  - pose proof (websocket_endpoint_queue s ws frame now later) as Hq.
    pose proof (websocket_endpoint_limiters s ws frame now later) as Hl.
    cbv zeta in Hq, Hl.
    set (s' := (websocket_endpoint s ws frame now later).1.1) in *.
    assert (Hqueue : valid_batch (pixel_update_queue s')).
    { destruct Hq as [->|(pixel_data & u & _ & Hnew & ->)]; [done|].
      apply new_PixelUpdate_inv in Hnew as [Hok Hid].
      apply Forall_app. split; [done|]. by repeat constructor. }
    split; [done|].
    destruct Hl as [[-> _]|(pixel_data & _ & -> & _)]; [done|].
    by apply standard_check_pixel_rate_limit.
  - destruct (batch_pixel_updates_limiter s now Hvalid) as [Hb Hq].
    unfold well_formed. rewrite Hb, Hq.
    split; [constructor|done].
  - by destruct (DynamoDBCanvas.add_region_lock _ _).
  - by destruct (DynamoDBCanvas.remove_region_lock _ _ _ _ _).
Qed.

(** X1. In every state a server reaches from its start, whatever happens
    to the stores meanwhile: every queued edit satisfies the constraints of
    the model (coordinates in the canvas, a well-formed colour), and every
    bucket has capacity 20 and refill rate 10. *)
Theorem reachable_states_are_well_formed events :
  well_formed (run fresh_server events).
Proof.
  unfold run.
  assert (Hinv : ∀ s, well_formed s → well_formed (fold_left step events s)).
  { induction events as [|e events IH]; intros s Hs; [done|].
    cbn [fold_left]. by apply IH, step_well_formed. }
  apply Hinv. split; [constructor|].
  intros k b. cbn. by rewrite lookup_empty.
Qed.

(** X2. Whatever the frame, a turn of the endpoint leaves the DynamoDB
    tables and the flags of the sockets as they are, takes no socket but
    its own out of the active connections, and leaves the queue as it is
    or appends one edit at its end. *)
Theorem endpoint_touches_only_limiters_and_queue s ws frame now later :
  let s' := (websocket_endpoint s ws frame now later).1.1 in
  tables (world s') = tables (world s)
  ∧ gone s' = gone s
  ∧ active_connections s ∖ {[ws]} ⊆ active_connections s'
  ∧ active_connections s' ⊆ active_connections s
  ∧ ∃ new, pixel_update_queue s' = pixel_update_queue s ++ new
           ∧ (length new ≤ 1)%nat.
Proof.
  cbv zeta.
  destruct (websocket_endpoint_rest s ws frame now later) as (Ht & Hg & Ha).
  pose proof (websocket_endpoint_queue s ws frame now later) as Hq.
  cbv zeta in Hq.
  split; [done|]. split; [done|].
  split; [destruct Ha as [Ha|Ha]; rewrite Ha; apply elem_of_subseteq;
          intros c; rewrite ?elem_of_difference; tauto|].
  split; [destruct Ha as [Ha|Ha]; rewrite Ha; apply elem_of_subseteq;
          intros c; rewrite ?elem_of_difference; tauto|].
  destruct Hq as [Hq|(pixel_data & u & _ & _ & Hq)]; rewrite Hq.
  - exists []. split; [by rewrite app_nil_r|cbn; lia].
  - exists [u]. split; [done|cbn; lia].
Qed.



(** A [pixel:update] is charged to the limiters before its payload is
    validated. *)
Lemma websocket_endpoint_charges s ws pixel_data now later :
  let user_id := dict_get (Payload.userId pixel_data) "anonymous"%string in
  counting (redis_client (world s)) user_id →
  let s' := (websocket_endpoint s ws
               (Message (Some "pixel:update"%string) (Some pixel_data))
               now later).1.1 in
  let check :=
    WebSocketRateLimiter.check_rate_limit (buckets s) user_id 1 now in
  pixel_count (redis_client (world s')) user_id
  = pixel_count (redis_client (world s)) user_id + (if check.1 then 1 else 0)
  ∧ (check.1 = true → buckets s' = check.2).
Proof.
  cbv zeta. intros Hcount.
  pose proof (websocket_endpoint_update s ws pixel_data now later) as Hstep.
  cbv zeta in Hstep.
  set (s' := (websocket_endpoint _ _ _ _ _).1.1) in *.
  unfold check_pixel_rate_limit, limiters in Hstep.
  cbn [ws_rate_limiter redis_rate_limiter] in Hstep.
  destruct (WebSocketRateLimiter.check_rate_limit _ _ _ _) as [[] b1];
    cbn [fst snd negb] in *.
  - pose proof (redis_check_rate_limit_counting _ _ Hcount) as Hredis.
    destruct (RedisRateLimiter.check_rate_limit _ _ _) as [ok' r1].
    destruct Hredis as (_ & Hinc & _).
    destruct ok'; cbn [negb] in Hstep; destruct Hstep as [[= Hb Hr] _];
      rewrite Hb, Hr; by split.
  - destruct (WebSocketRateLimiter.get_remaining_tokens b1 _ _) as [k b2].
    destruct Hstep as [[= _ Hr] _]. rewrite Hr. split; [lia|done].
Qed.

(** X4. A [pixel:update] that the token bucket admits is counted in the
    minute counter of its user (while Redis answers), and the bucket keeps
    the debit, whether or not the payload is valid and whether or not the
    window limiter then refuses it; one that the token bucket refuses
    leaves the minute counter as it is. *)
Theorem update_is_charged_before_it_is_validated s ws pixel_data now later :
  let user_id := dict_get (Payload.userId pixel_data) "anonymous"%string in
  counting (redis_client (world s)) user_id →
  let s' := (websocket_endpoint s ws
               (Message (Some "pixel:update"%string) (Some pixel_data))
               now later).1.1 in
  let check :=
    WebSocketRateLimiter.check_rate_limit (buckets s) user_id 1 now in
  pixel_count (redis_client (world s')) user_id
  = pixel_count (redis_client (world s)) user_id + (if check.1 then 1 else 0)
  ∧ (check.1 = true → buckets s' = check.2).
Proof. exact (websocket_endpoint_charges s ws pixel_data now later). Qed.

Lemma update_is_charged_before_it_is_validated_witness :
  new_PixelUpdate invalid_payload (Some "u1"%string) = Raise ValidationError
  ∧ (let s' := (websocket_endpoint open_server 1%nat
                  (Message (Some "pixel:update"%string) (Some invalid_payload))
                  0 0).1.1 in
     let check :=
       WebSocketRateLimiter.check_rate_limit (buckets open_server) (Some "u1"%string) 1 0 in
     pixel_count (redis_client (world s')) (Some "u1"%string)
     = pixel_count (redis_client (world open_server)) (Some "u1"%string)
       + (if check.1 then 1 else 0)
     ∧ (check.1 = true → buckets s' = check.2)).
Proof.
  split; [reflexivity|].
  apply (update_is_charged_before_it_is_validated open_server 1%nat
           invalid_payload 0 0).
  by repeat split.
Defined.

(** ** The token bucket over time *)

Local Open Scope Q_scope.

Lemma int_of_Q_range q : 0 <= q → q <= 20 → (0 <= int_of_Q q <= 20)%Z.
Proof.
  destruct q as [n d]. unfold Qle, int_of_Q. cbn. intros H0 H20.
  rewrite Z.mul_1_r in H0.
  rewrite Z.quot_div_nonneg by lia. split.
  - apply Z.div_pos; lia.
  - apply Z.div_le_upper_bound; lia.
Qed.

(** X5. A bucket of the limiter that holds between 0 and 20 tokens still
    does after a check for a non-negative count at a reading not before
    its last refill, whatever the verdict; a refusal leaves it fewer tokens
    than were asked for; and the remaining tokens reported afterwards are
    a whole number between 0 and 20. *)
Theorem check_keeps_tokens_in_range self user_id b n t t' :
  self !! user_id = Some b → standard b → in_range b →
  TokenBucket.last_refill b <= t → t <= t' → (0 <= n)%Z →
  let '(ok, self') :=
    WebSocketRateLimiter.check_rate_limit self user_id n t in
  (∃ b', self' !! user_id = Some b'
         ∧ standard b' ∧ in_range b' ∧ TokenBucket.last_refill b' = t
         ∧ (ok = false → TokenBucket.tokens b' < inject_Z n))
  ∧ (0 <= (WebSocketRateLimiter.get_remaining_tokens self' user_id t').1
     <= 20)%Z.
Proof.
  intros Hb Hstd [Hlo Hhi] Ht Ht' Hn.
  rewrite (check_rate_limit_some _ _ _ _ _ Hb). cbv zeta.
  destruct (refill_bounds b t Hstd Ht Hhi) as (Hstd' & Hlast & Hge & Hle & Hcap).
  set (b' := WebSocketRateLimiter.refill b t) in *.
  assert (Hn' : 0 <= inject_Z n).
  { change 0 with (inject_Z 0). by rewrite <- Zle_Qle. }
  assert (Hrem : ∀ b1 (m : gmap (option string) TokenBucket.t),
            standard b1 → in_range b1 → TokenBucket.last_refill b1 = t →
            (0 <= (WebSocketRateLimiter.get_remaining_tokens
                     (<[user_id := b1]> m) user_id t').1 <= 20)%Z).
  { intros b1 m Hs1 [Hlo1 Hhi1] Hl1.
    unfold WebSocketRateLimiter.get_remaining_tokens.
    rewrite lookup_insert_eq. cbn [fst].
    destruct (refill_bounds b1 t' Hs1) as (_ & _ & Hge1 & _ & Hcap1);
      [by rewrite Hl1|done|].
    apply int_of_Q_range; lra. }
  destruct (Qle_bool (inject_Z n) (TokenBucket.tokens b')) eqn:Hadmit.
  - apply Qle_bool_iff in Hadmit.
    assert (Hin : in_range (WebSocketRateLimiter.debit b' n)).
    { unfold in_range, WebSocketRateLimiter.debit. cbn [TokenBucket.tokens].
      split; lra. }
    split; [|by apply Hrem].
    eexists. split; [apply lookup_insert_eq|].
    split; [exact Hstd'|]. split; [exact Hin|]. split; [exact Hlast|done].
  - assert (Hdeny : ¬ inject_Z n <= TokenBucket.tokens b')
      by (rewrite <- Qle_bool_iff; congruence).
    assert (Hin : in_range b') by (unfold in_range; split; lra).
    split; [|by apply Hrem].
    eexists. split; [apply lookup_insert_eq|].
    split; [exact Hstd'|]. split; [exact Hin|]. split; [exact Hlast|].
    intros _. lra.
Qed.

Lemma check_keeps_tokens_in_range_witness :
  let b := WebSocketRateLimiter.new_bucket 0 in
  let '(ok, self') :=
    WebSocketRateLimiter.check_rate_limit {[Some "u2"%string := b]}
      (Some "u2"%string) 25 1 in
  (∃ b', self' !! Some "u2"%string = Some b'
         ∧ standard b' ∧ in_range b' ∧ TokenBucket.last_refill b' = 1
         ∧ (ok = false → TokenBucket.tokens b' < inject_Z 25))
  ∧ (0 <= (WebSocketRateLimiter.get_remaining_tokens self' (Some "u2"%string) 2).1
     <= 20)%Z.
Proof.
  apply (check_keeps_tokens_in_range {[Some "u2"%string := _]}
           (Some "u2"%string)
           (WebSocketRateLimiter.new_bucket 0) 25 1 2).
  - apply lookup_singleton_eq.
  - apply standard_new_bucket.
  - split; unfold Qle; cbn; unfold WebSocketRateLimiter.burst_capacity; lia.
  - unfold Qle; cbn; lia.
  - unfold Qle; cbn; lia.
  - lia.
Defined.






(** ** The sweep of idle buckets *)

Lemma cleanup_old_buckets_lookup self current_time user_id :
  WebSocketRateLimiter.cleanup_old_buckets self current_time !! user_id
  = match self !! user_id with
    | Some b =>
        if Qle_bool (current_time - TokenBucket.last_refill b) 300
        then Some b else None
    | None => None
    end.
Proof.
  unfold WebSocketRateLimiter.cleanup_old_buckets.
  destruct (self !! user_id) as [b|] eqn:Hb.
  - destruct (Qle_bool _ 300) eqn:Hidle.
    + by apply map_lookup_filter_Some.
    + apply map_lookup_filter_None. right. intros b' Hb'. cbn.
      assert (b' = b) as -> by congruence. congruence.
  - apply map_lookup_filter_None. by left.
Qed.

(** X7. The sweep drops exactly the buckets last refilled more than 300
    seconds before, and it is invisible to the verdicts: for a user whose
    bucket is one of the limiter's and holds between 0 and 20 tokens, a
    check at a reading not before the sweep has the verdict it would have
    had without the sweep, and leaves as many tokens. *)
Theorem sweep_does_not_change_verdicts self user_id swept t n :
  (∀ b, self !! user_id = Some b → standard b ∧ in_range b) →
  swept <= t →
  let swept_self := WebSocketRateLimiter.cleanup_old_buckets self swept in
  let check := WebSocketRateLimiter.check_rate_limit self user_id n t in
  let check' := WebSocketRateLimiter.check_rate_limit swept_self user_id n t in
  (∀ k b, swept_self !! k = Some b
          ↔ self !! k = Some b ∧ swept - TokenBucket.last_refill b <= 300)
  ∧ check'.1 = check.1
  ∧ ∃ b1 b2, check.2 !! user_id = Some b1 ∧ check'.2 !! user_id = Some b2
             ∧ TokenBucket.tokens b2 == TokenBucket.tokens b1.
Proof.
  intros Hself Ht. cbv zeta. split.
  { intros k b. rewrite cleanup_old_buckets_lookup.
    destruct (self !! k) as [b0|]; [|by split; [|intros [? _]]].
    destruct (Qle_bool _ 300) eqn:Hidle.
    - apply Qle_bool_iff in Hidle. split.
      + by intros [= <-].
      + by intros [[= <-] _].
    - split; [done|]. intros [[= ->] Hle%Qle_bool_iff]. congruence. }
  pose proof (cleanup_old_buckets_lookup self swept user_id) as Hlook.
  destruct (self !! user_id) as [b|] eqn:Hb.
  2:{ unfold WebSocketRateLimiter.check_rate_limit. rewrite Hlook, Hb.
      cbv zeta.
      destruct (Qle_bool (inject_Z n) _); cbn [fst snd];
        rewrite !lookup_insert_eq;
        (split; [done|]); eexists _, _;
        (split; [reflexivity|]); (split; reflexivity). }
  destruct (Hself b eq_refl) as [Hstd [Hlo Hhi]].
  destruct (Qle_bool (swept - TokenBucket.last_refill b) 300) eqn:Hidle.
  { unfold WebSocketRateLimiter.check_rate_limit. rewrite Hlook, Hb.
    cbv zeta.
    destruct (Qle_bool (inject_Z n) _); cbn [fst snd];
      rewrite !lookup_insert_eq;
      (split; [done|]); eexists _, _;
      (split; [reflexivity|]); (split; reflexivity). }
  assert (Hold : ¬ swept - TokenBucket.last_refill b <= 300)
    by (rewrite <- Qle_bool_iff; congruence).
  rewrite (check_rate_limit_none _ _ _ _ Hlook).
  rewrite (check_rate_limit_some _ _ _ _ _ Hb),
    (check_rate_limit_some _ _ _ _ _ (lookup_insert_eq _ _ _)).
  cbv zeta.
  assert (Hfull : TokenBucket.tokens (WebSocketRateLimiter.refill b t) == 20).
  { destruct Hstd as [Hcap Hrate]. unfold WebSocketRateLimiter.refill.
    cbn [TokenBucket.tokens]. rewrite Hcap, Hrate.
    change (inject_Z 20) with 20.
    destruct (Q.min_spec 20
                (TokenBucket.tokens b + (t - TokenBucket.last_refill b) * 10))
      as [[? Hm]|[? Hm]]; rewrite Hm; lra. }
  assert (Hnew : TokenBucket.tokens
                   (WebSocketRateLimiter.refill
                      (WebSocketRateLimiter.new_bucket t) t) == 20).
  { unfold WebSocketRateLimiter.refill, WebSocketRateLimiter.new_bucket.
    cbn [TokenBucket.tokens TokenBucket.capacity TokenBucket.refill_rate
         TokenBucket.last_refill].
    change (inject_Z WebSocketRateLimiter.burst_capacity) with 20.
    destruct (Q.min_spec 20 (20 + (t - t) * WebSocketRateLimiter.refill_rate))
      as [[? Hm]|[? Hm]]; rewrite Hm;
      unfold WebSocketRateLimiter.refill_rate in *; lra. }
  set (b1 := WebSocketRateLimiter.refill b t) in *.
  set (b2 := WebSocketRateLimiter.refill (WebSocketRateLimiter.new_bucket t) t)
    in *.
  destruct (Qle_bool (inject_Z n) (TokenBucket.tokens b1)) eqn:H1;
    destruct (Qle_bool (inject_Z n) (TokenBucket.tokens b2)) eqn:H2;
    cbn [fst snd]; rewrite !lookup_insert_eq.
  - split; [done|]. eexists _, _. split; [done|]. split; [done|].
    cbn [WebSocketRateLimiter.debit TokenBucket.tokens]. lra.
  - apply Qle_bool_iff in H1.
    assert (¬ inject_Z n <= TokenBucket.tokens b2)
      by (rewrite <- Qle_bool_iff; congruence). lra.
  - apply Qle_bool_iff in H2.
    assert (¬ inject_Z n <= TokenBucket.tokens b1)
      by (rewrite <- Qle_bool_iff; congruence). lra.
  - split; [done|]. eexists _, _. split; [done|]. split; [done|]. lra.
Qed.

Lemma sweep_does_not_change_verdicts_witness :
  let self : gmap (option string) TokenBucket.t :=
    {[Some "u2"%string := TokenBucket.Build 20 10 3 0]} in
  let swept_self := WebSocketRateLimiter.cleanup_old_buckets self 301 in
  let check := WebSocketRateLimiter.check_rate_limit self (Some "u2"%string) 5 302 in
  let check' := WebSocketRateLimiter.check_rate_limit swept_self (Some "u2"%string) 5 302 in
  (∀ k b, swept_self !! k = Some b
          ↔ self !! k = Some b ∧ 301 - TokenBucket.last_refill b <= 300)
  ∧ check'.1 = check.1
  ∧ ∃ b1 b2, check.2 !! Some "u2"%string = Some b1
             ∧ check'.2 !! Some "u2"%string = Some b2
             ∧ TokenBucket.tokens b2 == TokenBucket.tokens b1.
Proof.
  apply (sweep_does_not_change_verdicts
           {[Some "u2"%string := TokenBucket.Build 20 10 3 0]}
           (Some "u2"%string) 301 302 5).
  - intros b. rewrite lookup_singleton_eq. intros [= <-].
    split; [by split|]. split; unfold Qle; cbn; lia.
  - unfold Qle; cbn; lia.
Defined.

(** ** The minute counter *)

Local Open Scope Z_scope.

Lemma seq_Z_cons (n len : nat) :
  Z.of_nat <$> seq n (S len) = Z.of_nat n :: (Z.of_nat <$> seq (S n) len).
Proof. done. Qed.

(** From a counter at [n] that lasts until [t1], the increments made up to
    [t1] answer [n + 1], [n + 2], ... and leave its time to live alone. *)
Lemma increments_at_counting times : ∀ r user_id (n : nat) t,
  redis.keys r !! RedisCache.pixel_key user_id
  = Some (redis.BuildEntry (redis.Int (Z.of_nat (S n))) t) →
  redis.failing r redis.INCR = false →
  match t with
  | Some t1 => Forall (λ now, (now <= t1)%Q) times
  | None => True
  end →
  let '(counts, r') := increments_at r user_id times in
  counts = Z.of_nat <$> seq (S (S n)) (length times)
  ∧ counter_entry r' user_id
    = Some (redis.BuildEntry (redis.Int (Z.of_nat (S n + length times))) t)
  ∧ redis.failing r' = redis.failing r.
Proof.
  induction times as [|now times IH]; intros r user_id n t Hk Hincr Hlast.
  { cbn. unfold counter_entry. rewrite Hk. by rewrite Nat.add_0_r. }
  cbn [increments_at].
  rewrite (increment_pixel_count_next _ _ _ (Z.of_nat (S n)) t);
    [|unfold redis.lookup; cbn [redis.at_time redis.keys redis.time];
      rewrite Hk; destruct t as [t1|]; [|done];
      apply Forall_cons in Hlast as [Hnow _]; by rewrite expired_false
     |lia|done].
  cbn [redis.at_time redis.keys redis.time redis.failing].
  replace (Z.of_nat (S n) + 1) with (Z.of_nat (S (S n))) by lia.
  specialize (IH {| redis.keys :=
                      <[RedisCache.pixel_key user_id :=
                          redis.BuildEntry (redis.Int (Z.of_nat (S (S n)))) t]>
                        (redis.keys r);
                    redis.time := now;
                    redis.failing := redis.failing r |} user_id (S n) t).
  cbn [redis.keys redis.failing] in IH. rewrite lookup_insert_eq in IH.
  specialize (IH eq_refl Hincr).
  destruct (increments_at _ user_id times) as [counts r'].
  destruct IH as (-> & Hentry & Hf).
  { destruct t as [t1|]; [|done]. by apply Forall_cons in Hlast as [_ ?]. }
  split; [by rewrite length_cons, seq_Z_cons|].
  split; [|done]. rewrite Hentry, length_cons. do 4 f_equal. lia.
Qed.

(** X8. The minute window is fixed by the first edit.  From no counter
    (none stored, or one that has run out), the increment made when the
    clock of Redis reads [t0] answers 1 and gives the counter 60 seconds to
    live; the increments made up to [t0 + 60] answer 2, 3, ... and leave
    the time to live as it is; and the first increment after [t0 + 60]
    finds no counter: it answers 1 again and opens the next window. *)
Theorem minute_window_is_set_once r user_id t0 rest t' :
  redis.lookup (redis.at_time r t0) (RedisCache.pixel_key user_id) = None →
  redis.failing r redis.INCR = false →
  redis.failing r redis.EXPIRE = false →
  Forall (λ now, (now <= t0 + 60)%Q) rest →
  (t0 + 60 < t')%Q →
  let '(counts, r1) := increments_at r user_id (t0 :: rest) in
  counts = Z.of_nat <$> seq 1 (S (length rest))
  ∧ counter_entry r1 user_id
    = Some (redis.BuildEntry (redis.Int (Z.of_nat (S (length rest))))
              (Some (t0 + 60)%Q))
  ∧ let '(count, r2) :=
      RedisCache.increment_pixel_count (redis.at_time r1 t') user_id
        RedisRateLimiter.window in
    count = 1
    ∧ counter_entry r2 user_id
      = Some (redis.BuildEntry (redis.Int 1) (Some (t' + 60)%Q)).
Proof.
  intros Hnone Hincr Hexpire Hrest Hlate. cbn [increments_at].
  rewrite increment_pixel_count_first by done.
  cbn [redis.at_time redis.keys redis.time redis.failing].
  pose proof (increments_at_counting rest
                {| redis.keys :=
                     <[RedisCache.pixel_key user_id :=
                         redis.BuildEntry (redis.Int 1)
                           (Some (t0 + inject_Z RedisRateLimiter.window)%Q)]>
                       (redis.keys r);
                   redis.time := t0;
                   redis.failing := redis.failing r |}
                user_id 0%nat (Some (t0 + 60)%Q)) as Hnext.
  cbn [redis.keys redis.failing] in Hnext. rewrite lookup_insert_eq in Hnext.
  specialize (Hnext eq_refl Hincr Hrest).
  destruct (increments_at _ user_id rest) as [counts r1].
  destruct Hnext as (-> & Hentry & Hf).
  split; [done|]. split; [done|].
  unfold counter_entry in Hentry.
  rewrite increment_pixel_count_first;
    [|unfold redis.lookup; cbn [redis.at_time redis.keys redis.time];
      by rewrite Hentry, expired_true
     |cbn [redis.at_time redis.failing]; by rewrite Hf..].
  split; [done|]. unfold counter_entry.
  cbn [redis.at_time redis.keys redis.time]. by rewrite lookup_insert_eq.
Qed.

Lemma minute_window_is_set_once_witness :
  let '(counts, r1) :=
    increments_at fresh_redis (Some "u2"%string) [0; 1; 59]%Q in
  counts = Z.of_nat <$> seq 1 3
  ∧ counter_entry r1 (Some "u2"%string)
    = Some (redis.BuildEntry (redis.Int 3) (Some (0 + 60)%Q))
  ∧ let '(count, r2) :=
      RedisCache.increment_pixel_count (redis.at_time r1 61)
        (Some "u2"%string) RedisRateLimiter.window in
    count = 1
    ∧ counter_entry r2 (Some "u2"%string)
      = Some (redis.BuildEntry (redis.Int 1) (Some (61 + 60)%Q)).
Proof.
  apply (minute_window_is_set_once fresh_redis (Some "u2"%string) 0 [1; 59]%Q
           61);
    [reflexivity..| |]; repeat constructor; unfold Qle, Qlt; cbn; lia.
Defined.

(** X9. When [EXPIRE] raises at the first increment of a counter, that
    increment answers 0 and the counter is left at 1 with no time to live;
    no later increment gives it one, whenever it is made and even once
    [EXPIRE] answers again: the counter goes on from 2, and never runs
    out. *)
Theorem counter_without_expiry_never_resets r user_id t0 f times :
  redis.lookup (redis.at_time r t0) (RedisCache.pixel_key user_id) = None →
  redis.failing r redis.INCR = false →
  redis.failing r redis.EXPIRE = true →
  f redis.INCR = false →
  let '(count, r1) :=
    RedisCache.increment_pixel_count (redis.at_time r t0) user_id
      RedisRateLimiter.window in
  count = 0
  ∧ counter_entry r1 user_id = Some (redis.BuildEntry (redis.Int 1) None)
  ∧ let '(counts, r2) := increments_at (with_failing r1 f) user_id times in
    counts = Z.of_nat <$> seq 2 (length times)
    ∧ counter_entry r2 user_id
      = Some (redis.BuildEntry (redis.Int (Z.of_nat (1 + length times))) None).
Proof.
  intros Hnone Hincr Hexpire Hf.
  unfold RedisCache.increment_pixel_count, redis.incr. 
  cbn [redis.at_time redis.failing]. rewrite Hincr, Hnone.
  cbn. unfold redis.expire. cbn [redis.failing]. rewrite Hexpire.
  split; [done|]. unfold counter_entry at 1. cbn [redis.keys].
  rewrite lookup_insert_eq. split; [done|].
  pose proof (increments_at_counting times
                (with_failing
                   {| redis.keys :=
                        <[RedisCache.pixel_key user_id :=
                            redis.BuildEntry (redis.Int 1) None]> (redis.keys r);
                      redis.time := t0;
                      redis.failing := redis.failing r |} f)
                user_id 0%nat None) as Hnext.
  cbn [with_failing redis.keys redis.failing] in Hnext.
  rewrite lookup_insert_eq in Hnext. specialize (Hnext eq_refl Hf I).
  unfold with_failing. cbn [redis.keys redis.time].
  destruct (increments_at _ user_id times) as [counts r2].
  by destruct Hnext as (-> & -> & _).
Qed.

Lemma counter_without_expiry_never_resets_witness :
  let '(count, r1) :=
    RedisCache.increment_pixel_count (redis.at_time redis_without_expire 0)
      (Some "u2"%string) RedisRateLimiter.window in
  count = 0
  ∧ counter_entry r1 (Some "u2"%string)
    = Some (redis.BuildEntry (redis.Int 1) None)
  ∧ let '(counts, r2) :=
      increments_at (with_failing r1 (λ _, false)) (Some "u2"%string)
        [1; 1000]%Q in
    counts = Z.of_nat <$> seq 2 2
    ∧ counter_entry r2 (Some "u2"%string)
      = Some (redis.BuildEntry (redis.Int 3) None).
Proof.
  apply (counter_without_expiry_never_resets redis_without_expire
           (Some "u2"%string) 0 (λ _, false) [1; 1000]%Q); reflexivity.
Defined.

Lemma failing_increment_pixel_count r user_id window :
  redis.failing (RedisCache.increment_pixel_count r user_id window).2
  = redis.failing r.
Proof.
  unfold RedisCache.increment_pixel_count, redis.incr, redis.expire.
  destruct (redis.failing r redis.INCR); [done|].
  destruct (redis.lookup r _) as [[[c|l|n] t]|]; try done; cbn.
  - destruct (n + 1 =? 1); [|done]. by destruct (redis.failing r redis.EXPIRE).
  - by destruct (redis.failing r redis.EXPIRE).
Qed.

Lemma get_pixel_count_eq r user_id :
  RedisCache.get_pixel_count r user_id
  = if redis.failing r redis.GET then 0 else pixel_count r user_id.
Proof.
  unfold RedisCache.get_pixel_count, redis.get, pixel_count.
  destruct (redis.failing r redis.GET); [done|].
  by destruct (redis.lookup r _) as [[[c|l|n] t]|].
Qed.

Lemma pixel_count_nonneg r user_id :
  counting r user_id → 0 <= pixel_count r user_id.
Proof.
  unfold counting, pixel_count. intros (_ & _ & Hkey).
  destruct (redis.lookup r _) as [[[c|l|n] t]|]; try done; lia.
Qed.

(** X10. While Redis answers the window limiter, the pixels it reports as
    remaining after a check are between 0 and 100; after a refusal they
    are 0 when [GET] answers, and whenever [GET] raises they are 100,
    refusal or not. *)
Theorem remaining_pixels_after_check r user_id :
  counting r user_id →
  let '(ok, r') := RedisRateLimiter.check_rate_limit r user_id 1 in
  0 <= RedisRateLimiter.get_remaining_pixels r' user_id <= 100
  ∧ (ok = false → redis.failing r redis.GET = false →
     RedisRateLimiter.get_remaining_pixels r' user_id = 0)
  ∧ (redis.failing r redis.GET = true →
     RedisRateLimiter.get_remaining_pixels r' user_id = 100).
Proof.
  intros Hcount.
  pose proof (redis_check_rate_limit_counting r user_id Hcount) as H.
  pose proof (failing_increment_pixel_count r user_id RedisRateLimiter.window)
    as Hf.
  assert (Hr : (RedisRateLimiter.check_rate_limit r user_id 1).2
               = (RedisCache.increment_pixel_count r user_id
                    RedisRateLimiter.window).2).
  { unfold RedisRateLimiter.check_rate_limit.
    by destruct (RedisCache.increment_pixel_count _ _ _). }
  rewrite <- Hr in Hf.
  destruct (RedisRateLimiter.check_rate_limit r user_id 1) as [ok r'].
  cbn [snd] in Hf. destruct H as (Hcount' & Hinc & Hok).
  pose proof (pixel_count_nonneg _ _ Hcount').
  unfold RedisRateLimiter.get_remaining_pixels.
  rewrite get_pixel_count_eq, Hf.
  unfold RedisRateLimiter.max_pixels in *.
  destruct (redis.failing r redis.GET).
  - split; [lia|]. by split.
  - split; [lia|]. split; [|done]. intros -> _.
    symmetry in Hok. apply Z.leb_gt in Hok. lia.
Qed.

Lemma remaining_pixels_after_check_witness :
  let '(ok, r') :=
    RedisRateLimiter.check_rate_limit fresh_redis (Some "u2"%string) 1 in
  0 <= RedisRateLimiter.get_remaining_pixels r' (Some "u2"%string) <= 100
  ∧ (ok = false → redis.failing fresh_redis redis.GET = false →
     RedisRateLimiter.get_remaining_pixels r' (Some "u2"%string) = 0)
  ∧ (redis.failing fresh_redis redis.GET = true →
     RedisRateLimiter.get_remaining_pixels r' (Some "u2"%string) = 100).
Proof.
  apply (remaining_pixels_after_check fresh_redis (Some "u2"%string)).
  by repeat split.
Defined.

(** ** Saving and loading the canvas *)

Lemma cached_canvas_after_set r c :
  RedisCache.get_canvas_state (RedisCache.set_canvas_state r c)
  = if redis.failing r redis.SETEX then RedisCache.get_canvas_state r
    else if redis.failing r redis.GET then None else Some c.
Proof.
  unfold RedisCache.set_canvas_state.
  destruct (redis.failing r redis.SETEX) eqn:Hset.
  { unfold redis.setex. by rewrite Hset. }
  destruct (lookup_after_setex r "canvas:state" 3600 (redis.Canvas c)
              "canvas:state" Hset) as (r' & -> & Hf & _ & Hl); [done|].
  unfold RedisCache.get_canvas_state, redis.get. rewrite Hf, Hl.
  by destruct (redis.failing r redis.GET).
Qed.

Lemma save_canvas_state_inv w bitmap hash now w' :
  DynamoDBCanvas.save_canvas_state w bitmap hash now = Return w' →
  let saved := CanvasState.Build WIDTH HEIGHT bitmap hash now in
  dynamodb.canvas_table (tables w') = Some saved
  ∧ dynamodb.failing (tables w') = dynamodb.failing (tables w)
  ∧ redis_client w' = RedisCache.set_canvas_state (redis_client w) saved.
Proof.
  unfold DynamoDBCanvas.save_canvas_state.
  destruct (dynamodb.failing _ _); [done|]. by intros [= <-].
Qed.

(** X11. A canvas that is saved is in the table, and it is the canvas
    loaded next when the cache took the write and one of the cache and the
    table answers reads, or when the cache held no canvas and the table
    answers. *)
Theorem saved_canvas_is_loaded_next w bitmap hash now w' :
  DynamoDBCanvas.save_canvas_state w bitmap hash now = Return w' →
  (redis.failing (redis_client w) redis.SETEX = false
   ∧ (redis.failing (redis_client w) redis.GET = false
      ∨ dynamodb.failing (tables w) dynamodb.CanvasGetItem = false))
  ∨ (RedisCache.get_canvas_state (redis_client w) = None
     ∧ dynamodb.failing (tables w) dynamodb.CanvasGetItem = false) →
  let saved := CanvasState.Build WIDTH HEIGHT bitmap hash now in
  dynamodb.canvas_table (tables w') = Some saved
  ∧ (DynamoDBCanvas.get_canvas_state w').1 = Some saved.
Proof.
  intros (Htable & Hfail & Hredis)%save_canvas_state_inv Hcond. cbv zeta in *.
  split; [done|]. unfold DynamoDBCanvas.get_canvas_state.
  rewrite Hredis, cached_canvas_after_set, Htable, Hfail.
  destruct Hcond as [[-> Hread]|[Hnone Hget]].
  - destruct (redis.failing (redis_client w) redis.GET); [|done].
    destruct Hread as [?| ->]; done.
  - rewrite Hnone, Hget.
    destruct (redis.failing (redis_client w) redis.SETEX); [done|].
    by destruct (redis.failing (redis_client w) redis.GET).
Qed.

Lemma saved_canvas_is_loaded_next_witness :
  ∃ w',
    DynamoDBCanvas.save_canvas_state fresh_world [1; 2; 3] "h" 0 = Return w'
    ∧ dynamodb.canvas_table (tables w')
      = Some (CanvasState.Build WIDTH HEIGHT [1; 2; 3] "h" 0)
    ∧ (DynamoDBCanvas.get_canvas_state w').1
      = Some (CanvasState.Build WIDTH HEIGHT [1; 2; 3] "h" 0).
Proof.
  eexists. split; [reflexivity|].
  apply (saved_canvas_is_loaded_next fresh_world [1; 2; 3] "h" 0);
    [reflexivity|].
  left. split; [reflexivity|]. by left.
Defined.

(** X12. When [SETEX] raises while the cache holds a canvas and answers
    reads, the save still succeeds, and the canvas loaded next is the one
    the cache held, not the one saved. *)
Theorem failed_cache_write_hides_saved_canvas w bitmap hash now w' old :
  DynamoDBCanvas.save_canvas_state w bitmap hash now = Return w' →
  redis.failing (redis_client w) redis.SETEX = true →
  RedisCache.get_canvas_state (redis_client w) = Some old →
  dynamodb.canvas_table (tables w')
  = Some (CanvasState.Build WIDTH HEIGHT bitmap hash now)
  ∧ DynamoDBCanvas.get_canvas_state w' = (Some old, w').
Proof.
  intros (Htable & _ & Hredis)%save_canvas_state_inv Hset Hold.
  cbv zeta in *. split; [done|]. unfold DynamoDBCanvas.get_canvas_state.
  by rewrite Hredis, cached_canvas_after_set, Hset, Hold.
Qed.

Lemma failed_cache_write_hides_saved_canvas_witness :
  ∃ w',
    DynamoDBCanvas.save_canvas_state stale_canvas_world [1; 2; 3] "h" 1
    = Return w'
    ∧ dynamodb.canvas_table (tables w')
      = Some (CanvasState.Build WIDTH HEIGHT [1; 2; 3] "h" 1)
    ∧ DynamoDBCanvas.get_canvas_state w' = (Some old_canvas, w').
Proof.
  eexists. split; [reflexivity|].
  apply (failed_cache_write_hides_saved_canvas stale_canvas_world [1; 2; 3]
           "h" 1); reflexivity.
Defined.

(** ** The lock list and its cache *)

Lemma seen_locks_cached w :
  RedisCache.get_region_locks (redis_client w) ≠ [] →
  seen_locks w = RedisCache.get_region_locks (redis_client w).
Proof.
  intros H. rewrite seen_locks_eq.
  by destruct (RedisCache.get_region_locks _).
Qed.

(** X13. While a lock list that is not empty is cached and readable, a
    lock that is created, and a lock that is removed, change nothing of
    what the lock index answers: the positions it finds locked are the same
    after as before. *)
Theorem lock_changes_wait_for_the_cache w w' :
  RedisCache.get_region_locks (redis_client w) ≠ [] →
  (∃ lock, DynamoDBCanvas.add_region_lock w lock = Return w')
  ∨ (∃ x1 y1 x2 y2,
       DynamoDBCanvas.remove_region_lock w x1 y1 x2 y2 = Return w') →
  seen_locks w' = seen_locks w ∧ ∀ x y, locked w' x y = locked w x y.
Proof.
  intros Hcached Hchange.
  assert (Hr : redis_client w' = redis_client w).
  { destruct Hchange as [(lock & H)|(x1 & y1 & x2 & y2 & H)].
    - unfold DynamoDBCanvas.add_region_lock in H.
      destruct (dynamodb.failing _ _); [done|]. by injection H as <-.
    - unfold DynamoDBCanvas.remove_region_lock in H.
      destruct (dynamodb.failing _ _); [done|]. by injection H as <-. }
  assert (Hseen : seen_locks w' = seen_locks w).
  { rewrite !seen_locks_cached; by rewrite ?Hr. }
  split; [done|]. intros x y. by rewrite !locked_eq, Hseen.
Qed.

Lemma lock_changes_wait_for_the_cache_witness :
  seen_locks stale_world = seen_locks listed_world
  ∧ ∀ x y, locked stale_world x y = locked listed_world x y.
Proof.
  apply (lock_changes_wait_for_the_cache listed_world stale_world).
  - vm_compute. discriminate.
  - left. exists second_lock. reflexivity.
Defined.

Local Open Scope Q_scope.

(** X14. A stored lock is enforced as soon as no lock list is cached any
    more: when the clock of Redis is past the time to live of the cached
    list (or none is cached) and the scan of the table answers, the lock
    index finds every position locked that a lock of the table covers. *)
Theorem stored_lock_is_enforced_without_cache w k lock x y t :
  dynamodb.locks_table (tables w) !! k = Some lock →
  DynamoDBCanvas.covers lock x y = true →
  dynamodb.failing (tables w) dynamodb.LocksScan = false →
  match redis.keys (redis_client w) !! "canvas:locks"%string with
  | Some e => ∃ d, redis.expires_at e = Some d ∧ d < t
  | None => True
  end →
  locked (DynamoDBCanvas.with_redis w (redis.at_time (redis_client w) t)) x y
  = true.
Proof.
  intros Hk Hcovers Hscan Hgone. rewrite locked_eq, seen_locks_eq.
  cbn [DynamoDBCanvas.with_redis redis_client tables].
  assert (Hnone : RedisCache.get_region_locks
                    (redis.at_time (redis_client w) t) = []).
  { unfold RedisCache.get_region_locks, redis.get, redis.lookup.
    cbn [redis.at_time redis.keys redis.time redis.failing].
    destruct (redis.failing _ _); [done|].
    destruct (redis.keys _ !! _) as [e|]; [|done].
    destruct Hgone as (d & He & Hd).
    by rewrite (proj2 (expired_iff t e d He) Hd). }
  rewrite Hnone, Hscan. apply existsb_exists. exists lock. split; [|done].
  apply list_elem_of_In, list_elem_of_fmap. exists (k, lock).
  split; [done|]. by apply elem_of_map_to_list.
Qed.

Lemma stored_lock_is_enforced_without_cache_witness :
  locked stale_world 250 250 = false
  ∧ locked (DynamoDBCanvas.with_redis stale_world
              (redis.at_time (redis_client stale_world) 301)) 250 250
    = true.
Proof.
  split; [reflexivity|].
  apply (stored_lock_is_enforced_without_cache stale_world
           (DynamoDBCanvas.lock_id 200 200 300 300) second_lock 250 250 301);
    [reflexivity..|].
  vm_compute. eexists. split; reflexivity.
Defined.

Local Open Scope Z_scope.

(** ** Lock identifiers *)

Lemma comma_free_app s1 s2 :
  comma_free (s1 +:+ s2) = comma_free s1 && comma_free s2.
Proof.
  induction s1 as [|c s1 IH]; [done|].
  change (comma_free (String c s1 +:+ s2))
    with (negb (Ascii.eqb c ",") && comma_free (s1 +:+ s2)).
  by rewrite IH, andb_assoc.
Qed.

Lemma comma_free_pretty_N_go x : ∀ s,
  comma_free s = true → comma_free (pretty_N_go x s) = true.
Proof.
  induction (N.lt_wf_0 x) as [x _ IH]; intros s Hs.
  destruct (decide (0 < x)%N) as [Hx|Hx].
  - rewrite pretty_N_go_step by done. apply IH; [by apply N.div_lt|].
    cbn. rewrite Hs, andb_true_r.
    unfold pretty_N_char. by repeat case_match.
  - replace x with 0%N by lia. by rewrite pretty_N_go_0.
Qed.

Lemma comma_free_pretty_N (x : N) : comma_free (pretty x) = true.
Proof.
  unfold pretty, pretty_N. case_decide; [done|].
  by apply comma_free_pretty_N_go.
Qed.

Lemma comma_free_pretty_Z (x : Z) : comma_free (pretty x) = true.
Proof.
  destruct x as [|p|p]; [done|..]; unfold pretty, pretty_Z.
  - apply (comma_free_pretty_N (N.pos p)).
  - rewrite comma_free_app. apply (comma_free_pretty_N (N.pos p)).
Qed.

Lemma split_at_comma s1 : ∀ s2 r1 r2,
  comma_free s1 = true → comma_free s2 = true →
  s1 +:+ "," +:+ r1 = s2 +:+ "," +:+ r2 → s1 = s2 ∧ r1 = r2.
Proof.
  assert (Hnil : ∀ s, "" +:+ s = s) by done.
  assert (Hcons : ∀ c s t, String c s +:+ t = String c (s +:+ t)) by done.
  induction s1 as [|c s1 IH]; intros [|c' s2] r1 r2 H1 H2;
    repeat (rewrite Hnil || rewrite Hcons); cbn in H1, H2.
  - by intros [= ->].
  - intros [= <- _]. done.
  - intros [= -> _]. done.
  - apply andb_true_iff in H1 as [_ H1]. apply andb_true_iff in H2 as [_ H2].
    intros [= -> H]. by destruct (IH _ _ _ H1 H2 H) as [-> ->].
Qed.

(** The identifier tells the rectangle. *)
Lemma lock_id_inj x1 y1 x2 y2 x1' y1' x2' y2' :
  DynamoDBCanvas.lock_id x1 y1 x2 y2 = DynamoDBCanvas.lock_id x1' y1' x2' y2' →
  (x1, y1, x2, y2) = (x1', y1', x2', y2').
Proof.
  unfold DynamoDBCanvas.lock_id. intros H.
  apply split_at_comma in H as [H1 H]; [|apply comma_free_pretty_Z..].
  apply split_at_comma in H as [H2 H]; [|apply comma_free_pretty_Z..].
  apply split_at_comma in H as [H3 H4]; [|apply comma_free_pretty_Z..].
  apply (inj pretty) in H1, H2, H3, H4. congruence.
Qed.

(** X15. Locks of different rectangles never collide in the table: a lock
    that is created is stored under the identifier of its rectangle and
    leaves the lock of every other rectangle as it is; removing its
    rectangle afterwards takes it out again and, once more, touches no
    other. *)
Theorem lock_rectangles_do_not_collide w lock w' :
  DynamoDBCanvas.add_region_lock w lock = Return w' →
  let id x1 y1 x2 y2 := DynamoDBCanvas.lock_id x1 y1 x2 y2 in
  let '(a1, b1, a2, b2) := corners lock in
  dynamodb.locks_table (tables w') !! id a1 b1 a2 b2 = Some lock
  ∧ (∀ x1 y1 x2 y2, (x1, y1, x2, y2) ≠ corners lock →
       dynamodb.locks_table (tables w') !! id x1 y1 x2 y2
       = dynamodb.locks_table (tables w) !! id x1 y1 x2 y2)
  ∧ ∀ w'', DynamoDBCanvas.remove_region_lock w' a1 b1 a2 b2 = Return w'' →
           dynamodb.locks_table (tables w'') !! id a1 b1 a2 b2 = None
           ∧ ∀ x1 y1 x2 y2, (x1, y1, x2, y2) ≠ corners lock →
               dynamodb.locks_table (tables w'') !! id x1 y1 x2 y2
               = dynamodb.locks_table (tables w) !! id x1 y1 x2 y2.
Proof.
  unfold DynamoDBCanvas.add_region_lock, DynamoDBCanvas.remove_region_lock,
    corners.
  destruct (dynamodb.failing (tables w) dynamodb.LocksPutItem) eqn:Hput;
    [done|].
  intros [= <-]. cbv zeta.
  cbn [tables DynamoDBCanvas.with_tables dynamodb.locks_table dynamodb.failing].
  assert (Hne : ∀ x1 y1 x2 y2,
            (x1, y1, x2, y2)
            ≠ (RegionLock.x1 lock, RegionLock.y1 lock, RegionLock.x2 lock,
               RegionLock.y2 lock) →
            DynamoDBCanvas.lock_id (RegionLock.x1 lock) (RegionLock.y1 lock)
              (RegionLock.x2 lock) (RegionLock.y2 lock)
            ≠ DynamoDBCanvas.lock_id x1 y1 x2 y2).
  { intros x1 y1 x2 y2 Hc Hid. by apply lock_id_inj in Hid. }
  split; [apply lookup_insert_eq|].
  split; [intros x1 y1 x2 y2 Hc; by apply lookup_insert_ne, Hne|].
  intros w''.
  destruct (dynamodb.failing (tables w) dynamodb.LocksDeleteItem); [done|].
  intros [= <-].
  cbn [tables DynamoDBCanvas.with_tables dynamodb.locks_table].
  split; [apply lookup_delete_eq|]. intros x1 y1 x2 y2 Hc.
  rewrite lookup_delete_ne, lookup_insert_ne by by apply Hne. done.
Qed.

Lemma lock_rectangles_do_not_collide_witness :
  dynamodb.locks_table (tables stale_world)
    !! DynamoDBCanvas.lock_id 200 200 300 300 = Some second_lock
  ∧ dynamodb.locks_table (tables stale_world)
      !! DynamoDBCanvas.lock_id 50 50 100 100
    = dynamodb.locks_table (tables listed_world)
        !! DynamoDBCanvas.lock_id 50 50 100 100.
Proof.
  destruct (lock_rectangles_do_not_collide listed_world second_lock stale_world)
    as (Hstored & Hothers & _); [reflexivity|].
  split; [exact Hstored|]. apply Hothers. discriminate.
Defined.

(** ** What a flush does to a stored canvas *)

Lemma applied_get_region_locks w batch :
  applied (DynamoDBCanvas.get_region_locks w).2 batch = applied w batch.
Proof. apply stable_applied, stable_get_region_locks. Qed.

(** On an array that is not writeable, the loop raises at the first edit
    it has to write, before anything is logged. *)
Lemma apply_updates_readonly now batch :
  valid_batch batch →
  ∀ w bitmap acks rejects,
    np.writeable bitmap = false →
    let '(w', res) := apply_updates now batch w bitmap acks rejects in
    tables w' = tables w
    ∧ match applied w batch with
      | [] => ∃ r, res = Return r
      | _ :: _ => res = Raise ValueError
      end.
Proof.
  induction 1 as [|u batch Hu Hbatch IH]; intros w bitmap acks rejects Hro.
  { cbn. split; [done|]. by eexists. }
  cbn [apply_updates]. rewrite is_position_locked_eq.
  pose proof (tables_get_region_locks w) as Ht1.
  pose proof (applied_get_region_locks w batch) as Ha1.
  set (w1 := (DynamoDBCanvas.get_region_locks w).2) in *.
  fold (locked_update w u).
  apply pixel_update_ok_inv in Hu as [Hin Hcolor].
  destruct (locked_update w u) eqn:Hlocked.
  - rewrite applied_cons_locked by done.
    specialize (IH w1 bitmap acks (rejects ++ [reject_of u]) Hro).
    destruct (apply_updates _ _ _ _ _ _) as [w' res].
    rewrite Ha1, Ht1 in IH. done.
  - rewrite applied_cons_free by done.
    destruct (color_rgb_ok _ Hcolor) as (r & g & b & -> & _).
    by rewrite setitem_readonly.
Qed.

(** X16. Once a canvas is stored, no flush can write to it: the array
    made from the stored bytes is read-only, so a flush that loads a
    canvas and has an edit to apply raises [ValueError] at the first such
    edit; nothing is logged, stored or broadcast, and no socket is
    dropped. *)
Theorem flush_on_stored_canvas_raises s batch now c :
  valid_batch batch →
  (DynamoDBCanvas.get_canvas_state (world s)).1 = Some c →
  applied (world s) batch ≠ [] →
  ∃ s', process_pixel_batch s batch now = (s', [], Raise ValueError)
        ∧ tables (world s') = tables (world s)
        ∧ active_connections s' = active_connections s
        ∧ pixel_update_queue s' = pixel_update_queue s.
Proof.
  intros Hvalid Hsome Happlied. unfold process_pixel_batch.
  pose proof (tables_get_canvas_state (world s)) as Ht0.
  pose proof (stable_get_canvas_state (world s)) as Hst0.
  destruct (DynamoDBCanvas.get_canvas_state (world s)) as [canvas_state w0].
  cbn [fst snd] in *. subst canvas_state.
  unfold np.frombuffer. destruct (_ =? _).
  2:{ eexists. by repeat split. }
  pose proof (apply_updates_readonly now batch Hvalid w0
                {| np.data := CanvasState.bitmap c; np.writeable := false |}
                [] [] eq_refl) as Hloop.
  destruct (apply_updates _ _ _ _ _ _) as [w1 res].
  destruct Hloop as [Ht1 Hres].
  rewrite (stable_applied (world s) w0) in Hres by done.
  destruct (applied (world s) batch); [done|]. subst res.
  eexists. split; [done|]. cbn. by rewrite Ht1, Ht0.
Qed.

Lemma flush_on_stored_canvas_raises_witness :
  let s := with_world open_server
             (BuildWorld
                (dynamodb.Build
                   (Some (CanvasState.Build WIDTH HEIGHT (np.data np.zeros)
                            "h" 0)) [] ∅ (λ _, false))
                fresh_redis) in
  ∃ s', process_pixel_batch s [red_edit] 1 = (s', [], Raise ValueError)
        ∧ tables (world s') = tables (world s)
        ∧ active_connections s' = active_connections s
        ∧ pixel_update_queue s' = pixel_update_queue s.
Proof.
  cbv zeta.
  apply (flush_on_stored_canvas_raises _ [red_edit] 1
           (CanvasState.Build WIDTH HEIGHT (np.data np.zeros) "h" 0)).
  - exact valid_red.
  - reflexivity.
  - assert (H : ∀ w, seen_locks w = [] → applied w [red_edit] ≠ []).
    { intros w Hw. unfold applied, locked_update.
      rewrite filter_cons_True; [done|]. by rewrite locked_eq, Hw. }
    apply H. reflexivity.
Defined.

(** The stores after a flush, whatever its outcome, answer the lock index
    and fail as before. *)
Lemma process_pixel_batch_stores s batch now :
  valid_batch batch →
  let s' := (process_pixel_batch s batch now).1.1 in
  dynamodb.failing (tables (world s')) = dynamodb.failing (tables (world s))
  ∧ redis.failing (redis_client (world s'))
    = redis.failing (redis_client (world s))
  ∧ seen_locks (world s') = seen_locks (world s).
Proof.
  intros Hvalid. cbv zeta. unfold process_pixel_batch.
  pose proof (stable_get_canvas_state (world s)) as Hst0.
  destruct (DynamoDBCanvas.get_canvas_state (world s)) as [canvas_state w0].
  cbn [fst snd] in *.
  destruct (match canvas_state with
            | Some c => np.frombuffer (CanvasState.bitmap c)
            | None => Return np.zeros
            end) as [bitmap|e].
  2:{ cbn. by destruct Hst0. }
  destruct (apply_updates now batch w0 bitmap [] []) as [w1 r] eqn:Hloop.
  apply apply_updates_inv in Hloop as (Hst1 & _); [|done].
  pose proof (stable_trans _ _ _ Hst0 Hst1) as Hst.
  destruct r as [[[bitmap' acks] rejects]|e]; [|cbn; by destruct Hst].
  unfold DynamoDBCanvas.save_canvas_state.
  destruct (dynamodb.failing (tables w1) dynamodb.CanvasPutItem);
    [cbn; by destruct Hst|].
  cbn. rewrite failing_after_set_canvas.
  split; [by destruct Hst|]. split; [by destruct Hst|].
  rewrite <- (stable_seen _ _ Hst), !seen_locks_eq. cbn.
  by rewrite cached_locks_after_canvas.
Qed.

Lemma applied_seen w w' batch :
  seen_locks w' = seen_locks w → applied w' batch = applied w batch.
Proof.
  intros Hs. unfold applied, locked_update.
  induction batch as [|u batch IH]; [done|].
  rewrite !filter_cons, IH, !locked_eq, Hs. done.
Qed.

(** X17. The canvas can be written once.  After a flush that has stored
    a canvas, and while the table answers reads, every later flush that has
    an edit to apply raises [ValueError]: it stores and broadcasts nothing,
    and the stored canvas stays the one of the first flush. *)
Theorem canvas_is_written_once s batch now s' sent batch' later :
  valid_batch batch →
  process_pixel_batch s batch now = (s', sent, Return tt) →
  dynamodb.failing (tables (world s)) dynamodb.CanvasGetItem = false →
  valid_batch batch' →
  applied (world s) batch' ≠ [] →
  ∃ s'', process_pixel_batch s' batch' later = (s'', [], Raise ValueError)
         ∧ tables (world s'') = tables (world s')
         ∧ persisted_bitmap (world s'')
           = Some (flushed_bitmap (world s) batch).
Proof.
  intros Hvalid Hflush Hget Hvalid' Happlied.
  pose proof (process_pixel_batch_stores s batch now Hvalid) as Hstores.
  cbv zeta in Hstores. rewrite Hflush in Hstores. cbn [fst] in Hstores.
  destruct Hstores as (Hf & _ & Hseen).
  apply process_pixel_batch_inv in Hflush as (_ & _ & _ & _ & Hres); [|done].
  destruct Hres as (Hc & _).
  assert (Hloaded : ∃ c, (DynamoDBCanvas.get_canvas_state (world s')).1
                         = Some c).
  { unfold DynamoDBCanvas.get_canvas_state.
    destruct (RedisCache.get_canvas_state _); [by eexists|].
    rewrite Hf, Hget, Hc. by eexists. }
  destruct Hloaded as [c Hloaded].
  rewrite <- (applied_seen _ _ _ Hseen) in Happlied.
  destruct (flush_on_stored_canvas_raises s' batch' later c Hvalid' Hloaded
              Happlied) as (s'' & Hraise & Ht & _).
  exists s''. split; [done|]. split; [done|].
  unfold persisted_bitmap. by rewrite Ht, Hc.
Qed.

Lemma canvas_is_written_once_witness :
  ∃ s' sent,
    process_pixel_batch open_server [red_edit] 0 = (s', sent, Return tt)
    ∧ ∃ s'', process_pixel_batch s' [green_edit] 1
             = (s'', [], Raise ValueError)
             ∧ tables (world s'') = tables (world s')
             ∧ persisted_bitmap (world s'')
               = Some (flushed_bitmap (world open_server) [red_edit]).
Proof.
  destruct (process_pixel_batch_returns open_server [red_edit] 0)
    as (s' & sent & H); [exact valid_red|reflexivity..|].
  exists s', sent. split; [exact H|].
  apply (canvas_is_written_once open_server [red_edit] 0 s' sent [green_edit]
           1 valid_red H); [reflexivity|exact valid_green|].
  vm_compute. discriminate.
Defined.

(** ** What a flush leaves in the stores *)

Lemma last_filter_cons {A} (P : A → Prop) `{∀ x, Decision (P x)} x l :
  last (filter P (x :: l))
  = match last (filter P l) with
    | Some y => Some y
    | None => if decide (P x) then Some x else None
    end.
Proof.
  rewrite filter_cons. case_decide; [|by destruct (last _)].
  rewrite last_cons. by destruct (last _).
Qed.

(** The bytes of a pixel after a run of writes are those of the last write
    that targets it. *)
Lemma pixel_at_last_paint us : ∀ b x y,
  valid_batch us → in_canvas x y → Z.of_nat (length b) = np.size →
  pixel_at (fold_left paint us b) x y
  = match last (filter (λ u, (PixelUpdate.x u, PixelUpdate.y u) = (x, y)) us)
    with
    | Some u => [Some (written_rgb u).1.1; Some (written_rgb u).1.2;
                 Some (written_rgb u).2]
    | None => pixel_at b x y
    end.
Proof.
  induction us as [|u us IH]; intros b x y Hvalid Hin Hlen; [done|].
  apply Forall_cons in Hvalid as [Hu Hvalid].
  apply pixel_update_ok_inv in Hu as [Hinu _].
  cbn [fold_left]. rewrite IH; [|done..|].
  2:{ unfold paint, write_rgb. by rewrite !length_insert. }
  rewrite last_filter_cons. destruct (last _); [done|].
  case_decide as Hxy.
  - injection Hxy as <- <-. by apply pixel_at_painted.
  - by apply pixel_at_paint.
Qed.

(** X18. In the canvas a flush stores, every pixel holds the bytes of the
    last applied edit of the batch that targets it (white for the eraser,
    the three bytes of the colour for the brush), and the bytes it had in
    the loaded canvas when no applied edit targets it. *)
Theorem last_applied_edit_wins s batch now s' sent x y :
  valid_batch batch → in_canvas x y →
  process_pixel_batch s batch now = (s', sent, Return tt) →
  ∃ bytes,
    persisted_bitmap (world s') = Some bytes
    ∧ pixel_at bytes x y
      = match last_write (world s) batch x y with
        | Some u =>
            match PixelUpdate.tool u with
            | ERASER => [Some 255; Some 255; Some 255]
            | BRUSH =>
                match color_rgb (PixelUpdate.color u) with
                | Return (r, g, b) => [Some r; Some g; Some b]
                | Raise _ => []
                end
            end
        | None => pixel_at (loaded_bitmap (world s)) x y
        end.
Proof.
  intros Hvalid Hin Hflush.
  assert (Hlen : Z.of_nat (length (loaded_bitmap (world s))) = np.size).
  { pose proof Hflush as H.
    apply process_pixel_batch_inv in H as (_ & _ & _ & _ & Hres); [|done].
    destruct Hres as (_ & Hlen & _). cbv zeta in Hlen.
    unfold flushed_bitmap in Hlen. by rewrite length_paint in Hlen. }
  apply process_pixel_batch_inv in Hflush as (_ & _ & _ & _ & Hres); [|done].
  destruct Hres as (Hc & _).
  unfold persisted_bitmap. rewrite Hc. eexists. split; [reflexivity|].
  cbn [CanvasState.bitmap]. unfold flushed_bitmap, last_write.
  rewrite pixel_at_last_paint by (by try apply valid_applied).
  destruct (last _) as [u|] eqn:Hlast; [|done].
  assert (Hu : u ∈ applied (world s) batch).
  { apply last_Some in Hlast as [l Hl].
    assert (Hin' : u ∈ filter
                     (λ u, (PixelUpdate.x u, PixelUpdate.y u) = (x, y))
                     (applied (world s) batch))
      by (rewrite Hl; apply elem_of_app; right; by apply list_elem_of_singleton).
    by apply list_elem_of_filter in Hin' as [_ ?]. }
  assert (Hok : pixel_update_ok u = true).
  { pose proof (valid_applied (world s) batch Hvalid) as Hva.
    by apply (proj1 (Forall_forall _ _) Hva). }
  apply pixel_update_ok_inv in Hok as [_ Hcolor].
  destruct (color_rgb_ok _ Hcolor) as (r & g & b & Hrgb & _).
  unfold written_rgb. rewrite Hrgb. by destruct (PixelUpdate.tool u).
Qed.

Lemma last_applied_edit_wins_witness :
  ∃ s' sent,
    process_pixel_batch open_server [red_edit; green_edit; red_edit] 0
    = (s', sent, Return tt)
    ∧ ∃ bytes, persisted_bitmap (world s') = Some bytes
               ∧ pixel_at bytes 100 200 = [Some 255; Some 0; Some 0].
Proof.
  assert (Hvalid : valid_batch [red_edit; green_edit; red_edit])
    by (by repeat constructor).
  destruct (process_pixel_batch_returns open_server
              [red_edit; green_edit; red_edit] 0)
    as (s' & sent & H); [exact Hvalid|reflexivity..|].
  exists s', sent. split; [exact H|].
  destruct (last_applied_edit_wins open_server
              [red_edit; green_edit; red_edit] 0 s' sent 100 200 Hvalid)
    as (bytes & Hb & Hp); [unfold in_canvas, WIDTH, HEIGHT; lia|exact H|].
  exists bytes. split; [exact Hb|]. rewrite Hp. reflexivity.
Defined.



(** ** Broadcasts *)




(** ** Payloads *)

(** X22. A payload whose [userId] is [null] is checked under the user id
    [None]: its bucket is that of [None], apart from the bucket of any
    string, but its minute counter is the key ["rate_limit:pixels:None"],
    the one of the user named ["None"]; so an update with [null] that the
    token bucket admits counts against the minute quota of that user, and
    the edit it queues carries no user. *)
Theorem null_user_id_counts_for_the_user_None s ws pixel_data now later :
  Payload.userId pixel_data = Null →
  counting (redis_client (world s)) None →
  let s' := (websocket_endpoint s ws
               (Message (Some "pixel:update"%string) (Some pixel_data))
               now later).1.1 in
  let check := WebSocketRateLimiter.check_rate_limit (buckets s) None 1 now in
  pixel_count (redis_client (world s')) (Some "None"%string)
  = pixel_count (redis_client (world s)) (Some "None"%string)
    + (if check.1 then 1 else 0)
  ∧ (∀ name : string,
       buckets s' !! Some name = buckets s !! Some name)
  ∧ ∀ u, u ∈ pixel_update_queue s' →
         u ∈ pixel_update_queue s ∨ PixelUpdate.user_id u = None.
Proof.
  intros Hnull Hcount. cbv zeta.
  pose proof (websocket_endpoint_charges s ws pixel_data now later) as Hcharge.
  pose proof (websocket_endpoint_update s ws pixel_data now later) as Hstep.
  cbv zeta in Hcharge, Hstep. rewrite Hnull in Hcharge, Hstep.
  cbn [dict_get] in Hcharge, Hstep.
  destruct (Hcharge Hcount) as [Hpixels _].
  split; [exact Hpixels|].
  pose proof (check_pixel_rate_limit_frame (limiters s) None 1 now later)
    as [Hframe _].
  destruct (check_pixel_rate_limit _ _ _ _ _) as [[ok message] l].
  destruct Hstep as [Hl Hq]. cbn [snd] in Hframe.
  split.
  - intros name. rewrite <- Hl in Hframe. by apply Hframe.
  - intros u. rewrite Hq, elem_of_app. intros [?|Hu]; [by left|]. right.
    destruct ok; [|by apply elem_of_nil in Hu].
    destruct (new_PixelUpdate _ _) as [u'|] eqn:Hnew;
      [|by apply elem_of_nil in Hu].
    apply list_elem_of_singleton in Hu as ->.
    by apply new_PixelUpdate_inv in Hnew as [_ ?].
Qed.

Lemma null_user_id_counts_for_the_user_None_witness :
  let pixel_data :=
    Payload.Build (Value 75) (Value 75) (Value "#00FF00"%string)
      (Value "brush"%string) (Value (Some 0%Q)) Null in
  let s' := (websocket_endpoint open_server 1%nat
               (Message (Some "pixel:update"%string) (Some pixel_data))
               0 0).1.1 in
  let check :=
    WebSocketRateLimiter.check_rate_limit (buckets open_server) None 1 0 in
  pixel_count (redis_client (world s')) (Some "None"%string)
  = pixel_count (redis_client (world open_server)) (Some "None"%string)
    + (if check.1 then 1 else 0)
  ∧ (∀ name : string,
       buckets s' !! Some name = buckets open_server !! Some name)
  ∧ ∀ u, u ∈ pixel_update_queue s' →
         u ∈ pixel_update_queue open_server ∨ PixelUpdate.user_id u = None.
Proof.
  apply (null_user_id_counts_for_the_user_None open_server 1%nat
           (Payload.Build (Value 75) (Value 75) (Value "#00FF00"%string)
              (Value "brush"%string) (Value (Some 0%Q)) Null) 0 0).
  - reflexivity.
  - by repeat split.
Defined.

(** X23. An edit that the endpoint queues can always be painted: its
    position is on the canvas and its colour parses to three bytes, so on a
    writeable array the assignment of the applier returns, and writes
    exactly these bytes (or white, for the eraser) at the pixel. *)
Theorem queued_edit_can_be_painted pixel_data user_id u a :
  new_PixelUpdate pixel_data user_id = Return u →
  np.writeable a = true →
  ∃ r g b,
    color_rgb (PixelUpdate.color u) = Return (r, g, b)
    ∧ 0 <= r < 256 ∧ 0 <= g < 256 ∧ 0 <= b < 256
    ∧ in_canvas (PixelUpdate.x u) (PixelUpdate.y u)
    ∧ ∃ a', np.setitem a (PixelUpdate.y u) (PixelUpdate.x u) (written_rgb u)
            = Return a'
            ∧ np.data a' = paint (np.data a) u.
Proof.
  intros [Hok _]%new_PixelUpdate_inv Hwr.
  apply pixel_update_ok_inv in Hok as [Hin Hcolor].
  destruct (color_rgb_ok _ Hcolor) as (r & g & b & Hrgb & Hr & Hg & Hb).
  exists r, g, b. do 5 (split; [done|]).
  destruct (setitem_writes a (PixelUpdate.y u) (PixelUpdate.x u)
              (written_rgb u) Hwr Hin) as (a' & Hset & _).
  exists a'. split; [done|].
  by apply setitem_inv in Hset as (_ & _ & ->).
Qed.

Lemma queued_edit_can_be_painted_witness :
  ∃ r g b,
    color_rgb (PixelUpdate.color green_edit) = Return (r, g, b)
    ∧ 0 <= r < 256 ∧ 0 <= g < 256 ∧ 0 <= b < 256
    ∧ in_canvas (PixelUpdate.x green_edit) (PixelUpdate.y green_edit)
    ∧ ∃ a', np.setitem np.zeros (PixelUpdate.y green_edit)
              (PixelUpdate.x green_edit) (written_rgb green_edit)
            = Return a'
            ∧ np.data a' = paint (np.data np.zeros) green_edit.
Proof.
  apply (queued_edit_can_be_painted green_payload (Some "anonymous"%string)
           green_edit np.zeros); reflexivity.
Defined.
